(** * PgPolymorphismPlugin: a shallow embedding and its properties

    The development follows
    [graphile-build/graphile-build-pg/src/plugins/PgPolymorphismPlugin.ts]:
    the gather hooks ([pgCodecs_recordType_spec],
    [pgRegistry_PgRegistryBuilder_finalize], [pgRegistry_PgRegistry]) and the
    schema hooks ([entityBehavior.pgCodecRelation], [init],
    [GraphQLSchema_types]).

    Conventions.
    - JavaScript strings are [string]; the operations used by the plugin
      ([endsWith], [substring], [split], [trim]) work on code units, which
      are the characters here.
    - A thrown [Error] is the [Err] branch of [Result]; [await] is sequential
      evaluation.
    - JavaScript objects used as dictionaries are [JsObject.obj] (entries in
      enumeration order) where the plugin enumerates them and order can be
      observed, and [gmap string _] where only lookups and updates matter.
    - Collaborators that the plugin imports or receives (the smart-tag option
      parser, the introspection lookups, the inflectors, the build object)
      are fields of the records [Utils], [Info] and [Build], passed to the
      hooks as the source passes [info] and [build]. *)

From Stdlib Require Import Ascii String List Bool Arith Lia.
From stdpp Require Import base option list strings gmap fin_maps.

Set Default Proof Using "Type".

(** ** Results of fallible hooks *)

Inductive Result (E A : Type) : Type :=
| Ok (a : A)
| Err (e : E).
Arguments Ok {E A} a.
Arguments Err {E A} e.

(** Sequencing: the first [throw] ends the hook. Written [x ← r; k]. *)
#[global] Instance result_bind {E} : MBind (Result E) :=
  fun A B (k : A -> Result E B) (r : Result E A) =>
    match r with
    | Ok a => k a
    | Err e => Err e
    end.

#[global] Instance result_ret {E} : MRet (Result E) := fun A a => Ok a.

Definition isOk {E A} (r : Result E A) : bool :=
  match r with Ok _ => true | Err _ => false end.

(** [for (const x of xs) { body }] over a state that the body may abort. *)
Fixpoint forEachR {E S X} (body : S -> X -> Result E S) (xs : list X) (s : S)
  : Result E S :=
  match xs with
  | [] => Ok s
  | x :: rest => s' ← body s x; forEachR body rest s'
  end.

(** ** JavaScript string and array primitives used by the plugin *)

Module Js.

(** [s.endsWith(suffix)] *)
Fixpoint endsWith (s suffix : string) : bool :=
  if String.eqb s suffix then true
  else match s with
       | EmptyString => false
       | String _ rest => endsWith rest suffix
       end.

(** [s.substring(0, s.length - 1)] is [substring 0 (length s - 1) s] with the
    Standard Library's [substring start len]. *)
Definition dropLast (s : string) : string :=
  String.substring 0 (String.length s - 1) s.

(** [s.split(sep)] for a one-character separator; the plugin only splits
    on [">"] and [","]. The result is never empty: splitting the empty
    string gives one empty piece. *)
Fixpoint split (sep : ascii) (s : string) : list string :=
  match s with
  | EmptyString => [EmptyString]
  | String c rest =>
      if Ascii.eqb c sep then EmptyString :: split sep rest
      else match split sep rest with
           | piece :: pieces => String c piece :: pieces
           | [] => [String c EmptyString]
           end
  end.

(** Characters removed by [String.prototype.trim] that fit in one code
    unit below 128: tab, line feed, vertical tab, form feed, carriage
    return and space. *)
Definition isWhiteSpace (c : ascii) : bool :=
  let n := nat_of_ascii c in
  ((9 <=? n) && (n <=? 13)) || (n =? 32).

Fixpoint trimStart (s : string) : string :=
  match s with
  | EmptyString => EmptyString
  | String c rest => if isWhiteSpace c then trimStart rest else s
  end.

Fixpoint trimEnd (s : string) : string :=
  match s with
  | EmptyString => EmptyString
  | String c rest =>
      match trimEnd rest with
      | EmptyString => if isWhiteSpace c then EmptyString
                       else String c EmptyString
      | kept => String c kept
      end
  end.

(** [s.trim()] *)
Definition trim (s : string) : string := trimEnd (trimStart s).

(** Does character [c] occur in [s]? *)
Fixpoint occurs (c : ascii) (s : string) : bool :=
  match s with
  | EmptyString => false
  | String d rest => Ascii.eqb d c || occurs c rest
  end.

(** Modelled from the spec: [arraysMatch] is imported from [grafast] and is
    not among the sources. The spec asks for "exact positional equality,
    not merely set equality" of the two lists: equal lengths and equal
    elements at every index. Elements are compared with the decidable
    equality of their type, which stands for [===] on the introspection
    objects (one object per attribute). *)
Fixpoint arraysMatch {A} `{EqDecision A} (array1 array2 : list A) : bool :=
  match array1, array2 with
  | [], [] => true
  | x :: xs, y :: ys => bool_decide (x = y) && arraysMatch xs ys
  | _, _ => false
  end.

End Js.

(** ** [parseAttribute] *)

Record PgCodecPolymorphismSingleTypeAttributeSpec := mkAttributeSpec {
  attribute : string;
  isNotNull : bool;
  rename : option string
}.

#[global] Instance attributeSpec_eq_dec :
  EqDecision PgCodecPolymorphismSingleTypeAttributeSpec.
Proof. solve_decision. Defined.

(** [const [a, b] = spec.split(">")]: [a] is the first piece (always there),
    [b] the second one or [undefined]. *)
Definition parseAttribute (colSpec : string)
  : PgCodecPolymorphismSingleTypeAttributeSpec :=
  let '(spec, isNotNull) :=
    if Js.endsWith colSpec "!" then (Js.dropLast colSpec, true)
    else (colSpec, false) in
  let pieces := Js.split ">" spec in
  {| attribute := hd EmptyString pieces;
     isNotNull := isNotNull;
     rename := nth_error pieces 1 |}.

(** The optional [>rename] suffix of an entry. *)
Definition renamePart (ren : option string) : string :=
  match ren with Some r => ">" +:+ r | None => EmptyString end.

(** An attribute-override entry as the grammar [name[!][>rename]] writes it. *)
Definition renderBangFirst (name : string) (bang : bool) (ren : option string)
  : string :=
  name +:+ (if bang then "!" else EmptyString) +:+ renamePart ren.

(** The entry with the not-null mark last: [name[>rename][!]]. *)
Definition renderBangLast (name : string) (ren : option string) (bang : bool)
  : string :=
  name +:+ renamePart ren +:+ (if bang then "!" else EmptyString).

(** A bare name: neither ['>'] nor ['!'] occurs in it. *)
Definition bareName (s : string) : Prop :=
  Js.occurs ">" s = false /\ Js.occurs "!" s = false.

Definition bareRename (ren : option string) : Prop :=
  match ren with Some r => bareName r | None => True end.


(** ** JavaScript objects and Maps with observable enumeration order *)

Module JsObject.

(** Entries in enumeration order; keys are pairwise distinct in every
    object built with [set] from [empty]. Enumeration is insertion order,
    as for a [Map] and for the non-index string keys of a plain object. *)
Definition obj (V : Type) : Type := list (string * V).

Definition empty {V} : obj V := [].

(** [o[k]] / [m.get(k)] *)
Fixpoint get {V} (k : string) (o : obj V) : option V :=
  match o with
  | [] => None
  | (k', v) :: rest => if decide (k' = k) then Some v else get k rest
  end.

(** [o[k] = v] / [m.set(k, v)]: an existing key keeps its position. *)
Fixpoint set {V} (k : string) (v : V) (o : obj V) : obj V :=
  match o with
  | [] => [(k, v)]
  | (k', v') :: rest =>
      if decide (k' = k) then (k, v) :: rest else (k', v') :: set k v rest
  end.

(** [Object.keys(o)], [Object.values(o)], [Object.entries(o)] *)
Definition keys {V} (o : obj V) : list string := map fst o.
Definition values {V} (o : obj V) : list V := map snd o.
Definition entries {V} (o : obj V) : list (string * V) := o.

End JsObject.

(** ** Smart tags *)

(** A smart tag value is [true], a string, or an array of those. *)
Inductive TagAtom : Type :=
| AtomTrue
| AtomStr (s : string).

Inductive TagValue : Type :=
| TagOne (a : TagAtom)
| TagMany (l : list TagAtom).

#[global] Instance tagAtom_eq_dec : EqDecision TagAtom.
Proof. solve_decision. Defined.
#[global] Instance tagValue_eq_dec : EqDecision TagValue.
Proof. solve_decision. Defined.

(** [String(t)] *)
Definition String_ (t : TagAtom) : string :=
  match t with
  | AtomTrue => "true"
  | AtomStr s => s
  end.

(** [Array.isArray(raw) ? raw.map((t) => String(t)) : [String(raw)]];
    [String(undefined)] is ["undefined"]. *)
Definition typeTagsOf (rawTypeTags : option TagValue) : list string :=
  match rawTypeTags with
  | Some (TagMany l) => map String_ l
  | Some (TagOne a) => [String_ a]
  | None => ["undefined"]
  end.

(** Truthiness of an optional string: [undefined] and the empty string are
    falsy. *)
Definition truthy (o : option string) : option string :=
  match o with
  | Some s => if decide (s = EmptyString) then None else Some s
  | None => None
  end.

(** The result of [parseSmartTagsOptsString]. *)
Record SmartTagsOpts := mkOpts {
  args : list string;
  params : gmap string string
}.

(** ** Introspection data *)

Record PgAttribute := mkPgAttribute {
  attrelid : string;
  attnum : Z;
  attname : string
}.

#[global] Instance pgAttribute_eq_dec : EqDecision PgAttribute.
Proof. solve_decision. Defined.

(** [con_getAttributes] and [con_getForeignAttributes] are the results of
    [c.getAttributes()!] and [c.getForeignAttributes()!]. *)
Record PgConstraint := mkPgConstraint {
  conname : string;
  contype : string;
  confrelid : string;
  con_getAttributes : list PgAttribute;
  con_getForeignAttributes : list PgAttribute
}.

#[global] Instance pgConstraint_eq_dec : EqDecision PgConstraint.
Proof. solve_decision. Defined.

Record PgClass := mkPgClass {
  _id : string;
  relname : string;
  nspname : string;                          (* getNamespace().nspname *)
  getAttributes : list PgAttribute;
  getConstraints : list PgConstraint;
  getTags : gmap string TagValue
}.

(** Modelled from the spec: [pgClass.getAttribute({ name })] belongs to the
    introspection package, which is not among the sources; the spec's
    invariant "Discriminator attribute exists on the table" makes it the
    lookup of the attribute of that name among the table's attributes. *)
Definition getAttribute (pgClass : PgClass) (name : string)
  : option PgAttribute :=
  find (fun a => bool_decide (attname a = name)) (getAttributes pgClass).

(** A codec object is referred to by its name during the gather phase. *)
Definition CodecRef : Type := string.

(** The argument of [inflection.resourceRelationName]. *)
Record RelationDetails := mkRelationDetails {
  rd_serviceName : string;
  rd_isReferencee : bool;
  rd_isUnique : bool;
  rd_localClass : PgClass;
  rd_localAttributes : list PgAttribute;
  rd_foreignClass : PgClass;
  rd_foreignAttributes : list PgAttribute;
  rd_pgConstraint : PgConstraint
}.

(** ** Codecs and their polymorphism *)

Record PgCodecPolymorphismSingleTypeSpec := mkSingleTypeSpec {
  st_name : string;
  st_attributes : list PgCodecPolymorphismSingleTypeAttributeSpec
}.

Record PgCodecPolymorphismRelationalTypeSpec := mkRelationalTypeSpec {
  rt_name : string;
  rt_references : string;
  rt_relationName : string
}.

(** [PgCodecPolymorphism], one constructor per [mode]. *)
Inductive PgCodecPolymorphism : Type :=
| PolySingle (commonAttributes : list string) (typeAttributes : list string)
    (types : JsObject.obj PgCodecPolymorphismSingleTypeSpec)
| PolyRelational (typeAttributes : list string)
    (types : JsObject.obj PgCodecPolymorphismRelationalTypeSpec)
| PolyUnion.

(** [extensions.pg] of a resource made from a table *)
Record PgExtension := mkPgExtension {
  schemaName : string;
  pg_serviceName : string;
  pg_name : string
}.

(** The [extensions] object of a codec, a resource or a relation. *)
Record Extensions := mkExtensions {
  tags : option (gmap string TagValue);
  pg : option PgExtension
}.

Record PgCodecAttribute := mkPgCodecAttribute {
  codec : CodecRef;
  notNull : option bool;
  hasDefault : option bool;
  via : option string;
  identicalVia : option string;
  restrictedAccess : option bool;
  description : option string;
  attr_extensions : option (gmap string TagValue)
}.

Record PgRefDefinition := mkPgRefDefinition {
  singular : bool;
  singleRecordFieldName : string;
  listFieldName : string;
  connectionFieldName : string;
  ref_behavior : list string               (* extensions.tags.behavior *)
}.

(** One hop of a ref path. *)
Record PgCodecRefPathEntry := mkPathEntry { pe_relationName : string }.

Record PgCodecRef := mkPgCodecRef {
  definition : PgRefDefinition;
  paths : list (list PgCodecRefPathEntry)
}.

Record PgCodec := mkPgCodec {
  name : string;
  attributes : option (gmap string PgCodecAttribute);
  polymorphism : option PgCodecPolymorphism;
  refs : option (gmap string PgCodecRef);
  isAnonymous : bool;
  extensions : option Extensions
}.

(** The codec objects of the registry under construction, by name. The
    gather hooks mutate them in place; a hook is a function from one state
    of these objects to the next. *)
Abbreviation Codecs := (gmap CodecRef PgCodec).

(** ** Collaborators *)

(** [../utils.js] *)
Record Utils := mkUtils {
  parseSmartTagsOptsString : string -> nat -> SmartTagsOpts;
  (** [parseDatabaseIdentifier(identifier, 2, defaultSchema)], [None] when
      it throws. *)
  parseDatabaseIdentifier : string -> nat -> string -> option (string * string)
}.

(** A resource under construction; [ro_parameters] tells whether
    [resource.parameters] is set. *)
Record PgResourceOptions := mkPgResourceOptions {
  ro_name : string;
  ro_codec : CodecRef;
  ro_parameters : bool;
  ro_extensions : option Extensions
}.

(** The inflectors of the gather phase. The field-name inflectors take the
    codec name and the relation name of their [relationDetails]. *)
Record Inflection := mkInflection {
  (** [tableType(codec)] on what [getCodecFromClass] returned *)
  tableTypeOfRef : option CodecRef -> string;
  resourceRelationName : RelationDetails -> string;
  singleRelation : string -> string -> string;
  singleRelationBackwards : string -> string -> string;
  manyRelationConnection : string -> string -> string;
  manyRelationList : string -> string -> string
}.

Record Helpers := mkHelpers {
  (** [pgIntrospection.getClassByName(serviceName, schema, table)] *)
  getClassByName : string -> string -> string -> option PgClass;
  (** [pgCodecs.getCodecFromClass(serviceName, classId)] *)
  getCodecFromClass : string -> string -> option CodecRef;
  (** [pgTables.getResourceOptions(serviceName, pgClass)] *)
  getResourceOptions : string -> PgClass -> option PgResourceOptions
}.

Record Info := mkInfo {
  helpers : Helpers;
  inflection : Inflection
}.

(** ** Discovery: the [pgCodecs_recordType_spec] hook *)

Inductive DiscoveryError : Type :=
| InvalidInterfaceTag
| NoTypeAttribute (type nsp rel : string)
| TypeWithoutName
| TypeWithoutReferences
| InvalidDatabaseIdentifier (references : string)
| ReferencedClassNotFound (namespaceName tableName : string)
| MissingPrimaryKey
| MissingForeignKeyConstraint
| UnsupportedMode
| TagsUndefined.

#[global] Instance discoveryError_eq_dec : EqDecision DiscoveryError.
Proof. solve_decision. Defined.

(** The codec spec being built: only its extensions are read. *)
Record CodecSpec := mkCodecSpec {
  spec_extensions : option Extensions
}.

Record RecordTypeEvent := mkEvent {
  pgClass : PgClass;
  spec : CodecSpec;
  serviceName : string
}.

(** [a.attnum >= 1] then [a.attname] *)
Definition attributeNamesOf (pgClass : PgClass) : list string :=
  map attname (filter (fun a => (1 <= attnum a)%Z) (getAttributes pgClass)).

(** [args: [typeValue]]; a missing first argument is [undefined], which as a
    property key is ["undefined"]. *)
Definition typeValueOf (parsed : SmartTagsOpts) : string :=
  nth 0 (args parsed) "undefined".

(** [attributes?.split(",").map(parseAttribute) ?? []] *)
Definition typeAttributeSpecs (attributes : option string)
  : list PgCodecPolymorphismSingleTypeAttributeSpec :=
  match attributes with
  | Some a => map parseAttribute (Js.split "," a)
  | None => []
  end.

(** State of the loop over the type tags in mode [single]. *)
Definition SingleAcc : Type :=
  JsObject.obj PgCodecPolymorphismSingleTypeSpec * gset string.

(** The body of [for (const typeTag of typeTags)] in mode [single]. *)
Definition singleTypeTag (utils : Utils) (acc : SingleAcc) (typeTag : string)
  : Result DiscoveryError SingleAcc :=
  let '(types, specificAttributes) := acc in
  let parsed := parseSmartTagsOptsString utils typeTag 1 in
  let typeValue := typeValueOf parsed in
  match truthy (params parsed !! "name") with
  | None => Err TypeWithoutName
  | Some name =>
      let entry :=
        {| st_name := name;
           st_attributes := typeAttributeSpecs (params parsed !! "attributes") |} in
      Ok (JsObject.set typeValue entry types,
          foldl (fun acc col => {[ attribute col ]} ∪ acc) specificAttributes
                (st_attributes entry))
  end.

(** [getConstraints().find((c) => c.contype === "p")] *)
Definition primaryKeyOf (cls : PgClass) : option PgConstraint :=
  find (fun c => bool_decide (contype c = "p")) (getConstraints cls).

(** The predicate of the foreign-key search in the hook: a foreign key of
    the referenced table that targets the root, whose attributes match the
    referenced table's primary key and whose foreign attributes match the
    root's primary key. *)
Definition linksToRoot (pgClass : PgClass) (pk remotePk c : PgConstraint)
  : bool :=
  bool_decide (contype c = "f")
  && bool_decide (confrelid c = _id pgClass)
  && Js.arraysMatch (con_getAttributes c) (con_getAttributes remotePk)
  && Js.arraysMatch (con_getForeignAttributes c) (con_getAttributes pk).

(** The body of [for (const typeTag of typeTags)] in mode [relational]. *)
Definition relationalTypeTag (utils : Utils) (info : Info)
    (serviceName : string) (pgClass : PgClass)
    (types : JsObject.obj PgCodecPolymorphismRelationalTypeSpec)
    (typeTag : string)
  : Result DiscoveryError (JsObject.obj PgCodecPolymorphismRelationalTypeSpec) :=
  let parsed := parseSmartTagsOptsString utils typeTag 1 in
  let typeValue := typeValueOf parsed in
  match truthy (params parsed !! "references") with
  | None => Err TypeWithoutReferences
  | Some references =>
  match parseDatabaseIdentifier utils references 2 (nspname pgClass) with
  | None => Err (InvalidDatabaseIdentifier references)
  | Some (namespaceName, tableName) =>
  match getClassByName (helpers info) serviceName namespaceName tableName with
  | None => Err (ReferencedClassNotFound namespaceName tableName)
  | Some referencedClass =>
  match primaryKeyOf pgClass, primaryKeyOf referencedClass with
  | Some pk, Some remotePk =>
      match find (linksToRoot pgClass pk remotePk)
                 (getConstraints referencedClass) with
      | None => Err MissingForeignKeyConstraint
      | Some pgConstraint =>
          let codec :=
            getCodecFromClass (helpers info) serviceName (_id referencedClass) in
          Ok (JsObject.set typeValue
                {| rt_name := tableTypeOfRef (inflection info) codec;
                   rt_references := references;
                   rt_relationName :=
                     resourceRelationName (inflection info)
                       {| rd_serviceName := serviceName;
                          rd_isReferencee := true;
                          rd_isUnique := true;
                          rd_localClass := pgClass;
                          rd_localAttributes := con_getAttributes pk;
                          rd_foreignClass := referencedClass;
                          rd_foreignAttributes := con_getAttributes remotePk;
                          rd_pgConstraint := pgConstraint |} |}
                types)
      end
  | _, _ => Err MissingPrimaryKey
  end end end end.

(** [const { type = "type" } = params] *)
Definition discriminatorOf (params : gmap string string) : string :=
  default "type" (params !! "type").

(** The discriminator check shared by the modes [single] and
    [relational]. *)
Definition checkDiscriminator (pgClass : PgClass) (type : string)
  : Result DiscoveryError PgAttribute :=
  match getAttribute pgClass type with
  | None => Err (NoTypeAttribute type (nspname pgClass) (relname pgClass))
  | Some attr => Ok attr
  end.

(** [case "single"] *)
Definition discoverSingle (utils : Utils) (pgClass : PgClass)
    (params : gmap string string) (rawTypeTags : option TagValue)
  : Result DiscoveryError PgCodecPolymorphism :=
  let type := discriminatorOf params in
  _ ← checkDiscriminator pgClass type;
  let typeTags := typeTagsOf rawTypeTags in
  let attributeNames := attributeNamesOf pgClass in
  acc ← forEachR (singleTypeTag utils) typeTags (JsObject.empty, ∅);
  let '(types, specificAttributes) := acc in
  let commonAttributes :=
    filter (fun n => n ∉ specificAttributes) attributeNames in
  Ok (PolySingle commonAttributes [type] types).

(** [case "relational"] *)
Definition discoverRelational (utils : Utils) (info : Info)
    (serviceName : string) (pgClass : PgClass)
    (params : gmap string string) (rawTypeTags : option TagValue)
  : Result DiscoveryError PgCodecPolymorphism :=
  let type := discriminatorOf params in
  _ ← checkDiscriminator pgClass type;
  let typeTags := typeTagsOf rawTypeTags in
  types ← forEachR (relationalTypeTag utils info serviceName pgClass)
                   typeTags JsObject.empty;
  Ok (PolyRelational [type] types).

(** [spec.extensions.tags] *)
Definition tagsOfSpec (spec : CodecSpec) : option (gmap string TagValue) :=
  match spec_extensions spec with
  | Some extensions => tags extensions
  | None => None
  end.

(** [extensions.tags.interface ?? pgClass.getTags().interface] *)
Definition interfaceTagOf (tags : gmap string TagValue) (pgClass : PgClass)
  : option TagValue :=
  match tags !! "interface" with
  | Some t => Some t
  | None => getTags pgClass !! "interface"
  end.

(** The hook. The result is the value assigned to [spec.polymorphism], or
    [None] when the hook leaves the spec alone. Reading [extensions.tags]
    of a spec whose extensions carry no tags throws. *)
Definition pgCodecs_recordType_spec (utils : Utils) (info : Info)
    (event : RecordTypeEvent)
  : Result DiscoveryError (option PgCodecPolymorphism) :=
  let pgClass := pgClass event in
  match tagsOfSpec (spec event) with
  | None => Err TagsUndefined
  | Some tags =>
      match interfaceTagOf tags pgClass with
      | None => Ok None
      | Some (TagOne AtomTrue) | Some (TagMany _) => Err InvalidInterfaceTag
      | Some (TagOne (AtomStr interfaceTag)) =>
          if decide (interfaceTag = EmptyString) then Ok None else
          let params := params (parseSmartTagsOptsString utils interfaceTag 0) in
          let mode := params !! "mode" in
          if decide (mode = Some "single") then
            poly ← discoverSingle utils pgClass params (tags !! "type");
            Ok (Some poly)
          else if decide (mode = Some "relational") then
            poly ← discoverRelational utils info (serviceName event)
                     pgClass params (tags !! "type");
            Ok (Some poly)
          else if decide (mode = Some "union") then Ok (Some PolyUnion)
          else Err UnsupportedMode
      end
  end.

(** *** Vocabulary for the properties of Discovery *)

(** The discriminator attribute names recorded in a polymorphism. *)
Definition typeAttributesOf (polymorphism : PgCodecPolymorphism) : list string :=
  match polymorphism with
  | PolySingle _ typeAttributes _ => typeAttributes
  | PolyRelational typeAttributes _ => typeAttributes
  | PolyUnion => []
  end.

(** The attributes named in the override list of one type tag, and in the
    override list of any of the type tags. *)
Definition overridesOfTag (utils : Utils) (typeTag : string) : list string :=
  map attribute
      (typeAttributeSpecs
         (params (parseSmartTagsOptsString utils typeTag 1) !! "attributes")).

Definition overrideNames (utils : Utils) (typeTags : list string) : list string :=
  flat_map (overridesOfTag utils) typeTags.

(** The table a relational type tag refers to, when its [references]
    parameter is there and resolves. *)
Definition referencedClassOf (utils : Utils) (info : Info)
    (serviceName : string) (pgClass : PgClass) (typeTag : string)
  : option PgClass :=
  match truthy (params (parseSmartTagsOptsString utils typeTag 1)
                  !! "references") with
  | None => None
  | Some references =>
      match parseDatabaseIdentifier utils references 2 (nspname pgClass) with
      | None => None
      | Some (namespaceName, tableName) =>
          getClassByName (helpers info) serviceName namespaceName tableName
      end
  end.

(** Constraint [c] of the referenced table is a foreign key to the root
    whose local attributes are, position by position, the referenced table's
    primary key and whose foreign attributes are the root's primary key. *)
Definition KeysMatch (pgClass referencedClass : PgClass) (c : PgConstraint)
  : Prop :=
  exists pk remotePk,
    primaryKeyOf pgClass = Some pk
    /\ primaryKeyOf referencedClass = Some remotePk
    /\ In c (getConstraints referencedClass)
    /\ contype c = "f"
    /\ confrelid c = _id pgClass
    /\ con_getAttributes c = con_getAttributes remotePk
    /\ con_getForeignAttributes c = con_getAttributes pk.

(** ** Attribute inheritance: the [pgRegistry_PgRegistryBuilder_finalize] hook *)

Inductive RegistryError : Type :=
| InvalidIdentifier (references : string)
| InvalidReference (references schemaName tableName : string)
| NoPrimaryKey (relname : string)
| NoMatchingRelation (rootRelname relatedRelname : string)
| UndefinedDereferenced.

#[global] Instance registryError_eq_dec : EqDecision RegistryError.
Proof. solve_decision. Defined.

(** The predicate of the foreign-key search of the two registry hooks; [pk]
    is the related table's primary key and [remotePk] the root's. *)
Definition linksBackToRoot (pgClass : PgClass) (pk remotePk c : PgConstraint)
  : bool :=
  bool_decide (contype c = "f")
  && bool_decide (confrelid c = _id pgClass)
  && Js.arraysMatch (con_getForeignAttributes c) (con_getAttributes remotePk)
  && Js.arraysMatch (con_getAttributes c) (con_getAttributes pk).

(** From [const pk = pgRelatedClass...] to [const sharedRelationName = ...];
    the two registry hooks share this text. *)
Definition sharedRelationNameOf (info : Info) (serviceName : string)
    (pgClass pgRelatedClass : PgClass) : Result RegistryError string :=
  match primaryKeyOf pgRelatedClass with
  | None => Err (NoPrimaryKey (relname pgRelatedClass))
  | Some pk =>
  match primaryKeyOf pgClass with
  | None => Err (NoPrimaryKey (relname pgClass))
  | Some remotePk =>
  match find (linksBackToRoot pgClass pk remotePk)
             (getConstraints pgRelatedClass) with
  | None => Err (NoMatchingRelation (relname pgClass) (relname pgRelatedClass))
  | Some pgConstraint =>
      Ok (resourceRelationName (inflection info)
            {| rd_serviceName := serviceName;
               rd_isReferencee := false;
               rd_isUnique := true;
               rd_localClass := pgRelatedClass;
               rd_localAttributes := con_getAttributes pk;
               rd_foreignClass := pgClass;
               rd_foreignAttributes := con_getAttributes remotePk;
               rd_pgConstraint := pgConstraint |})
  end end end.

(** [attr.identicalVia = sharedRelationName] *)
Definition setIdenticalVia (sharedRelationName : string) (a : PgCodecAttribute)
  : PgCodecAttribute :=
  {| codec := codec a; notNull := notNull a; hasDefault := hasDefault a;
     via := via a; identicalVia := Some sharedRelationName;
     restrictedAccess := restrictedAccess a; description := description a;
     attr_extensions := attr_extensions a |}.

(** The attribute synthesized on the subtype from the root's [colSpec];
    [{ ...colSpec.extensions }] is an object even when [colSpec.extensions]
    is [undefined]. *)
Definition inheritedAttribute (sharedRelationName : string)
    (colSpec : PgCodecAttribute) : PgCodecAttribute :=
  {| codec := codec colSpec; notNull := notNull colSpec;
     hasDefault := hasDefault colSpec;
     via := Some sharedRelationName; identicalVia := None;
     restrictedAccess := restrictedAccess colSpec;
     description := description colSpec;
     attr_extensions := Some (default ∅ (attr_extensions colSpec)) |}.

(** The body of [for (const [colName, colSpec] of Object.entries(...))]. *)
Definition copyAttribute (sharedRelationName : string)
    (otherAttributes : gmap string PgCodecAttribute)
    (entry : string * PgCodecAttribute) : gmap string PgCodecAttribute :=
  let '(colName, colSpec) := entry in
  match otherAttributes !! colName with
  | Some existing =>
      <[colName := setIdenticalVia sharedRelationName existing]> otherAttributes
  | None =>
      <[colName := inheritedAttribute sharedRelationName colSpec]> otherAttributes
  end.

Definition copyAttributes (sharedRelationName : string)
    (entries : list (string * PgCodecAttribute))
    (otherAttributes : gmap string PgCodecAttribute)
  : gmap string PgCodecAttribute :=
  foldl (copyAttribute sharedRelationName) otherAttributes entries.

Definition setAttributes (c : PgCodec) (a : gmap string PgCodecAttribute)
  : PgCodec :=
  {| name := name c; attributes := Some a; polymorphism := polymorphism c;
     refs := refs c; isAnonymous := isAnonymous c; extensions := extensions c |}.

(** The attributes of the codec behind a reference, when it has any. *)
Definition attributesOf (codecs : Codecs) (r : CodecRef)
  : option (gmap string PgCodecAttribute) :=
  codecs !! r ≫= attributes.

(** [resource.extensions?.pg] and [codec.polymorphism] through a reference *)
Definition pgOf (extensions : option Extensions) : option PgExtension :=
  extensions ≫= pg.

Definition polymorphismOf (codecs : Codecs) (r : CodecRef)
  : option PgCodecPolymorphism :=
  codecs !! r ≫= polymorphism.

(** The body of [for (const spec of Object.values(poly.types))] in the
    finalize hook. [continue] returns the codecs unchanged. The entries of
    the root's attributes are read when the inner loop starts. *)
Definition inheritSubtype (utils : Utils) (info : Info)
    (serviceName resourceSchemaName : string) (pgClass : PgClass)
    (rootCodec : CodecRef) (codecs : Codecs)
    (spec : PgCodecPolymorphismRelationalTypeSpec)
  : Result RegistryError Codecs :=
  match parseDatabaseIdentifier utils (rt_references spec) 2
                                resourceSchemaName with
  | None => Err (InvalidIdentifier (rt_references spec))
  | Some (schemaName, tableName) =>
  match getClassByName (helpers info) serviceName schemaName tableName with
  | None => Err (InvalidReference (rt_references spec) schemaName tableName)
  | Some pgRelatedClass =>
  match getCodecFromClass (helpers info) serviceName (_id pgRelatedClass) with
  | None => Ok codecs
  | Some otherCodec =>
  match codecs !! otherCodec with
  | None => Ok codecs
  | Some other =>
  match attributes other with
  | None => Ok codecs
  | Some otherAttributes =>
      sharedRelationName ←
        sharedRelationNameOf info serviceName pgClass pgRelatedClass;
      match attributesOf codecs rootCodec with
      | None => Err UndefinedDereferenced
      | Some rootAttributes =>
          Ok (<[otherCodec :=
                  setAttributes other
                    (copyAttributes sharedRelationName
                       (map_to_list rootAttributes) otherAttributes)]> codecs)
      end
  end end end end end.

(** The body of [for (const resource of Object.values(pgResources))] in the
    finalize hook. *)
Definition inheritRoot (utils : Utils) (info : Info) (codecs : Codecs)
    (resource : PgResourceOptions) : Result RegistryError Codecs :=
  if ro_parameters resource
     || bool_decide (attributesOf codecs (ro_codec resource) = None)
  then Ok codecs
  else
    match pgOf (ro_extensions resource) with
    | None => Ok codecs
    | Some ext =>
        let resourceSchemaName := schemaName ext in
        let serviceName := pg_serviceName ext in
        let resourceClassName := pg_name ext in
        match getClassByName (helpers info) serviceName resourceSchemaName
                             resourceClassName with
        | None => Ok codecs
        | Some pgClass =>
            match polymorphismOf codecs (ro_codec resource) with
            | Some (PolyRelational _ types) =>
                forEachR
                  (inheritSubtype utils info serviceName resourceSchemaName
                                  pgClass (ro_codec resource))
                  (JsObject.values types) codecs
            | _ => Ok codecs
            end
        end
    end.

Definition pgRegistry_PgRegistryBuilder_finalize (utils : Utils) (info : Info)
    (pgResources : JsObject.obj PgResourceOptions) (codecs : Codecs)
  : Result RegistryError Codecs :=
  forEachR (inheritRoot utils info) (JsObject.values pgResources) codecs.

(** *** Vocabulary for the properties of the registry hooks *)

(** The table a declared subtype refers to, as the registry hooks resolve
    it. *)
Definition relatedClassOf (utils : Utils) (info : Info)
    (serviceName resourceSchemaName : string)
    (spec : PgCodecPolymorphismRelationalTypeSpec) : option PgClass :=
  match parseDatabaseIdentifier utils (rt_references spec) 2
                                resourceSchemaName with
  | None => None
  | Some (schemaName, tableName) =>
      getClassByName (helpers info) serviceName schemaName tableName
  end.

(** The tables of the declared subtypes. *)
Definition relatedClasses (utils : Utils) (info : Info)
    (serviceName resourceSchemaName : string)
    (specs : list PgCodecPolymorphismRelationalTypeSpec) : list PgClass :=
  omap (relatedClassOf utils info serviceName resourceSchemaName) specs.

(** A codec stands for one table: two of the given tables with the same
    codec are the same table. *)
Definition CodecIdentifiesClass (info : Info) (serviceName : string)
    (classes : list PgClass) : Prop :=
  forall c1 c2 codec,
    In c1 classes -> In c2 classes ->
    getCodecFromClass (helpers info) serviceName (_id c1) = Some codec ->
    getCodecFromClass (helpers info) serviceName (_id c2) = Some codec ->
    c1 = c2.

(** What attribute [attr] of the subtype is, for the root attribute
    [colSpec] of the same name: the subtype's [existing] attribute with
    [identicalVia] set to the shared relation, or, when the subtype had none,
    an attribute with the root's codec, [notNull], [hasDefault] and
    [restrictedAccess] and [via] set to the shared relation. *)
Definition Inherited (sharedRelationName : string) (colSpec : PgCodecAttribute)
    (existing : option PgCodecAttribute) (attr : PgCodecAttribute) : Prop :=
  match existing with
  | Some existing => attr = setIdenticalVia sharedRelationName existing
  | None =>
      via attr = Some sharedRelationName
      /\ codec attr = codec colSpec
      /\ notNull attr = notNull colSpec
      /\ hasDefault attr = hasDefault colSpec
      /\ restrictedAccess attr = restrictedAccess colSpec
  end.

(** The subtype's attributes [newAttributes] are its [otherAttributes]
    extended with the root's: every root attribute is there as [Inherited]
    says, and the attributes the root does not have are as they were. *)
Definition InheritsFrom (sharedRelationName : string)
    (rootAttributes otherAttributes newAttributes
       : gmap string PgCodecAttribute) : Prop :=
  forall colName,
    match rootAttributes !! colName with
    | Some colSpec =>
        exists attr,
          newAttributes !! colName = Some attr
          /\ Inherited sharedRelationName colSpec
                       (otherAttributes !! colName) attr
    | None => newAttributes !! colName = otherAttributes !! colName
    end.

(** [codec.attributes?.[colName]] through a reference *)
Definition attributeAt (codecs : Codecs) (r : CodecRef) (colName : string)
  : option PgCodecAttribute :=
  match attributesOf codecs r with
  | Some a => a !! colName
  | None => None
  end.

(** The root's attributes [current] are the attributes [initial] it had
    when its run began, up to [identicalVia]. *)
Definition SameColumns (initial current : gmap string PgCodecAttribute) : Prop :=
  forall colName,
    match initial !! colName with
    | Some colSpec =>
        exists attr,
          current !! colName = Some attr
          /\ codec attr = codec colSpec
          /\ notNull attr = notNull colSpec
          /\ hasDefault attr = hasDefault colSpec
          /\ restrictedAccess attr = restrictedAccess colSpec
    | None => current !! colName = None
    end.

(** Codec [x] is the codec of one of the subtype tables and, since
    [codecs0], has inherited the root attributes [rootAttributes] through
    that table's shared relation. *)
Definition HasInherited (info : Info) (serviceName : string)
    (pgClass : PgClass) (classes : list PgClass)
    (rootAttributes : gmap string PgCodecAttribute)
    (codecs0 codecs : Codecs) (x : CodecRef) : Prop :=
  exists pgRelatedClass sharedRelationName otherAttributes newAttributes,
    In pgRelatedClass classes
    /\ getCodecFromClass (helpers info) serviceName (_id pgRelatedClass)
       = Some x
    /\ sharedRelationNameOf info serviceName pgClass pgRelatedClass
       = Ok sharedRelationName
    /\ attributesOf codecs0 x = Some otherAttributes
    /\ attributesOf codecs x = Some newAttributes
    /\ InheritsFrom sharedRelationName rootAttributes otherAttributes
                    newAttributes.

(** The state of the codecs during the run for one root: every codec has
    the attributes it had at the start or has inherited the root's. *)
Definition InheritanceReached (info : Info) (serviceName : string)
    (pgClass : PgClass) (classes : list PgClass)
    (rootAttributes : gmap string PgCodecAttribute)
    (codecs0 codecs : Codecs) : Prop :=
  forall x,
    attributesOf codecs x = attributesOf codecs0 x
    \/ HasInherited info serviceName pgClass classes rootAttributes
                    codecs0 codecs x.

(** ** Reference synthesis: the [pgRegistry_PgRegistry] hook *)

(** The final registry. Its resources and relations hold their codecs by
    value: the hook reads a registry codec for its name, polymorphism,
    attributes and extensions only, and writes [refs] through the codec of
    the resource options, which lives in [Codecs]. [objectId] stands for
    the identity of the relation object. *)
Record PgResource := mkPgResource {
  res_name : string;
  res_codec : PgCodec;
  res_parameters : bool;
  res_extensions : option Extensions
}.

Record PgCodecRelation := mkPgCodecRelation {
  objectId : positive;
  localCodec : PgCodec;
  remoteResource : PgResource;
  localAttributes : list string;
  remoteAttributes : list string;
  isUnique : bool;
  isReferencee : bool;
  rel_extensions : option Extensions
}.

Record PgRegistry := mkPgRegistry {
  pgResources : JsObject.obj PgResource;
  pgRelations : gmap string (gmap string PgCodecRelation)
}.

(** [extensions?.tags?.[tagName]] *)
Definition tagOf (extensions : option Extensions) (tagName : string)
  : option TagValue :=
  match extensions with
  | Some e => match tags e with
              | Some t => t !! tagName
              | None => None
              end
  | None => None
  end.

(** The behavior flags carried by one [extensions] object: the values of
    its [behavior] tag. *)
Definition behaviorFlags (extensions : option Extensions) : list string :=
  match tagOf extensions "behavior" with
  | Some (TagOne (AtomStr s)) => [s]
  | Some (TagMany l) => omap (fun a => match a with
                                       | AtomStr s => Some s
                                       | AtomTrue => None
                                       end) l
  | _ => []
  end.

(** Modelled from the spec: [getBehavior] is imported from [../behavior.js],
    which is not among the sources. The spec describes its result on the
    three extension objects as "the union of" their flags: the flags of
    each argument, in argument order. *)
Definition getBehavior (extensions : list (option Extensions)) : list string :=
  concat (map behaviorFlags extensions).

(** [const ref: PgCodecRef = { definition, paths: [[...]] }] for one relation
    of the root. *)
Definition synthesizedRef (info : Info) (resource : PgResource)
    (sharedRelationName relationName : string)
    (relationSpec : PgCodecRelation) : PgCodecRef :=
  let behavior :=
    getBehavior [ extensions (res_codec (remoteResource relationSpec));
                  res_extensions (remoteResource relationSpec);
                  rel_extensions relationSpec ] in
  let codecName := name (res_codec resource) in
  let singleRecordFieldName :=
    if isReferencee relationSpec
    then singleRelationBackwards (inflection info) codecName relationName
    else singleRelation (inflection info) codecName relationName in
  let connectionFieldName :=
    manyRelationConnection (inflection info) codecName relationName in
  let listFieldName :=
    manyRelationList (inflection info) codecName relationName in
  {| definition :=
       {| singular := isUnique relationSpec;
          singleRecordFieldName := singleRecordFieldName;
          listFieldName := listFieldName;
          connectionFieldName := connectionFieldName;
          ref_behavior := behavior |};
     paths := [ [ {| pe_relationName := sharedRelationName |};
                  {| pe_relationName := relationName |} ] ] |}.

Definition setRefs (c : PgCodec) (r : gmap string PgCodecRef) : PgCodec :=
  {| name := name c; attributes := attributes c;
     polymorphism := polymorphism c; refs := Some r;
     isAnonymous := isAnonymous c; extensions := extensions c |}.

(** [if (!codec.refs) codec.refs = Object.create(null); codec.refs[k] = ref] *)
Definition writeRef (relationName : string) (ref : PgCodecRef) (c : PgCodec)
  : PgCodec :=
  setRefs c (<[relationName := ref]> (default ∅ (refs c))).

(** The body of [for (const [relationName, relationSpec] of
    Object.entries(relations))]; [otherResourceOptions!] is dereferenced
    here. *)
Definition installRef (info : Info) (resource : PgResource)
    (sharedRelationName : string)
    (otherResourceOptions : option PgResourceOptions)
    (codecs : Codecs) (entry : string * PgCodecRelation)
  : Result RegistryError Codecs :=
  let '(relationName, relationSpec) := entry in
  let ref :=
    synthesizedRef info resource sharedRelationName relationName relationSpec in
  match otherResourceOptions with
  | None => Err UndefinedDereferenced
  | Some options =>
      match codecs !! ro_codec options with
      | None => Err UndefinedDereferenced
      | Some c => Ok (<[ro_codec options := writeRef relationName ref c]> codecs)
      end
  end.

(** The body of [for (const spec of Object.values(poly.types))] in the
    registry hook. *)
Definition synthesizeSubtype (utils : Utils) (info : Info)
    (serviceName resourceSchemaName : string) (pgClass : PgClass)
    (resource : PgResource)
    (relations : option (gmap string PgCodecRelation))
    (codecs : Codecs) (spec : PgCodecPolymorphismRelationalTypeSpec)
  : Result RegistryError Codecs :=
  match parseDatabaseIdentifier utils (rt_references spec) 2
                                resourceSchemaName with
  | None => Err (InvalidIdentifier (rt_references spec))
  | Some (schemaName, tableName) =>
  match getClassByName (helpers info) serviceName schemaName tableName with
  | None => Err (InvalidReference (rt_references spec) schemaName tableName)
  | Some pgRelatedClass =>
  match getCodecFromClass (helpers info) serviceName (_id pgRelatedClass) with
  | None => Ok codecs
  | Some _ =>
      sharedRelationName ←
        sharedRelationNameOf info serviceName pgClass pgRelatedClass;
      let otherResourceOptions :=
        getResourceOptions (helpers info) serviceName pgRelatedClass in
      match relations with
      | None => Err UndefinedDereferenced
      | Some relations =>
          forEachR
            (installRef info resource sharedRelationName otherResourceOptions)
            (map_to_list relations) codecs
      end
  end end end.

(** The body of [for (const rawResource of Object.values(pgResources))] in
    the registry hook. *)
Definition synthesizeRoot (utils : Utils) (info : Info) (registry : PgRegistry)
    (codecs : Codecs) (rawResource : PgResource)
  : Result RegistryError Codecs :=
  if res_parameters rawResource
     || bool_decide (attributes (res_codec rawResource) = None)
  then Ok codecs
  else
    let resource := rawResource in
    match pgOf (res_extensions resource) with
    | None => Ok codecs
    | Some ext =>
        let resourceSchemaName := schemaName ext in
        let serviceName := pg_serviceName ext in
        let resourceClassName := pg_name ext in
        match getClassByName (helpers info) serviceName resourceSchemaName
                             resourceClassName with
        | None => Ok codecs
        | Some pgClass =>
            let relations :=
              pgRelations registry !! name (res_codec resource) in
            match polymorphism (res_codec resource) with
            | Some (PolyRelational _ types) =>
                forEachR
                  (synthesizeSubtype utils info serviceName resourceSchemaName
                                     pgClass resource relations)
                  (JsObject.values types) codecs
            | _ => Ok codecs
            end
        end
    end.

Definition pgRegistry_PgRegistry (utils : Utils) (info : Info)
    (registry : PgRegistry) (codecs : Codecs) : Result RegistryError Codecs :=
  forEachR (synthesizeRoot utils info registry)
           (JsObject.values (pgResources registry)) codecs.

(** *** Vocabulary for the properties of reference synthesis *)

(** [codec.refs?.[refName]] through a reference *)
Definition refAt (codecs : Codecs) (r : CodecRef) (refName : string)
  : option PgCodecRef :=
  match codecs !! r with
  | Some c => match refs c with
              | Some rs => rs !! refName
              | None => None
              end
  | None => None
  end.

(** The codec of the resource options of a subtype table. *)
Definition resourceCodecOf (info : Info) (serviceName : string)
    (pgRelatedClass : PgClass) : option CodecRef :=
  ro_codec <$> getResourceOptions (helpers info) serviceName pgRelatedClass.

(** A resource codec stands for one table: two of the given tables whose
    resource options have the same codec are the same table. *)
Definition ResourceCodecIdentifiesClass (info : Info) (serviceName : string)
    (classes : list PgClass) : Prop :=
  forall c1 c2 codec,
    In c1 classes -> In c2 classes ->
    resourceCodecOf info serviceName c1 = Some codec ->
    resourceCodecOf info serviceName c2 = Some codec ->
    c1 = c2.

(** Codec [x] carries, for every relation of the root, the ref synthesized
    for it through the shared relation. *)
Definition CarriesRefs (info : Info) (resource : PgResource)
    (relations : gmap string PgCodecRelation) (sharedRelationName : string)
    (codecs : Codecs) (x : CodecRef) : Prop :=
  forall relationName relationSpec,
    relations !! relationName = Some relationSpec ->
    refAt codecs x relationName
    = Some (synthesizedRef info resource sharedRelationName relationName
                           relationSpec).

(** ** The schema phase *)

Inductive GraphQLKind : Type :=
| InterfaceKind | ObjectKind | UnionKind | OtherKind.

Record GraphQLNamedType := mkGraphQLNamedType {
  gql_name : string;
  gql_kind : GraphQLKind
}.

#[global] Instance graphQLKind_eq_dec : EqDecision GraphQLKind.
Proof. solve_decision. Defined.
#[global] Instance graphQLNamedType_eq_dec : EqDecision GraphQLNamedType.
Proof. solve_decision. Defined.

(** [build.graphql.isInterfaceType(type)] *)
Definition isInterfaceType (type : GraphQLNamedType) : bool :=
  bool_decide (gql_kind type = InterfaceKind).

(** [GraphileBuild.ScopeInterface] *)
Record ScopeInterface := mkScopeInterface {
  scope_pgCodec : option PgCodec;
  isPgPolymorphicTableType : bool;
  pgPolymorphism : option PgCodecPolymorphism
}.

(** What the schema hooks read from [build]. *)
Record Build := mkBuild {
  tableType : PgCodec -> string;             (* build.inflection.tableType *)
  tableConnectionType : PgCodec -> string;
  tableEdgeType : PgCodec -> string;
  connectionType : string -> string;
  edgeType : string -> string;
  getTypeByName : string -> option GraphQLNamedType;
  getAllTypes : JsObject.obj GraphQLNamedType;
  scopeByType : GraphQLNamedType -> option ScopeInterface;
  pgCodecMatches : PgCodec -> string -> bool;  (* build.behavior.pgCodecMatches *)
  pgCodecMetaLookup_keys : list PgCodec;
  input_pgRelations : gmap string (gmap string PgCodecRelation);
  pgForbidSetofFunctionsToReturnNull : bool
}.

(** *** [entityBehavior.pgCodecRelation.callback] *)

(** A behavior is a string or an array of behaviors. *)
#[warning="-register-all"] Inductive Behavior : Type :=
| BehaviorString (s : string)
| BehaviorList (l : list Behavior).

Definition hideFields : string := "-connection -list -single".

(** [[behavior, "-connection -list -single"]] *)
Definition hidden (behavior : Behavior) : Behavior :=
  BehaviorList [behavior; BehaviorString hideFields].

Inductive CallbackError : Type :=
| RelationUndefined (codecName relationName : string).

(** [===] on relation objects *)
Definition sameObject (r1 r2 : PgCodecRelation) : bool :=
  bool_decide (objectId r1 = objectId r2).

(** [pgRelations[codecName]?.[relationName]] *)
Definition relationAt (pgRelations : gmap string (gmap string PgCodecRelation))
    (codecName relationName : string) : option PgCodecRelation :=
  match pgRelations !! codecName with
  | Some relations => relations !! relationName
  | None => None
  end.

(** The first [if] of the callback: does the relation go from a concrete
    type back to its abstract root? Reading [relation.remoteAttributes] of
    a missing relation throws. *)
Definition hidesLinkToRoot (entity : PgCodecRelation) (build : Build)
  : Result CallbackError bool :=
  let remoteCodec := res_codec (remoteResource entity) in
  if isUnique entity && negb (isReferencee entity) then
    match polymorphism remoteCodec with
    | Some (PolyRelational _ types) =>
        let localTypeName := tableType build (localCodec entity) in
        match find (fun '(_, val) => bool_decide (rt_name val = localTypeName))
                   (JsObject.entries types) with
        | Some (_, val) =>
            let relationName := rt_relationName val in
            match relationAt (input_pgRelations build) (name remoteCodec)
                             relationName with
            | Some relation =>
                Ok (Js.arraysMatch (remoteAttributes relation)
                                   (localAttributes entity))
            | None => Err (RelationUndefined (name remoteCodec) relationName)
            end
        | None => Ok false
        end
    | _ => Ok false
    end
  else Ok false.

(** The second [if]: is the relation one of the links from the abstract
    root to its concrete types? [relations.includes(entity)] compares
    objects; a missing relation is [undefined] and never equals [entity]. *)
Definition hidesLinkFromRoot (entity : PgCodecRelation) (build : Build) : bool :=
  let localCodec := localCodec entity in
  if isReferencee entity then
    match polymorphism localCodec with
    | Some (PolyRelational _ types) =>
        let relations :=
          map (fun t => relationAt (input_pgRelations build) (name localCodec)
                                   (rt_relationName t))
              (JsObject.values types) in
        existsb (fun r => match r with
                          | Some r => sameObject r entity
                          | None => false
                          end) relations
    | _ => false
    end
  else false.

Definition pgCodecRelation_callback (behavior : Behavior)
    (entity : PgCodecRelation) (build : Build)
  : Result CallbackError Behavior :=
  match hidesLinkToRoot entity build with
  | Err e => Err e
  | Ok true => Ok (hidden behavior)
  | Ok false =>
      if hidesLinkFromRoot entity build then Ok (hidden behavior)
      else Ok behavior
  end.

(** *** The [init] hook *)

(** The calls the hook makes on [build], in order. The thunks passed to
    the [register...] functions are kept by what they capture. *)
Inductive BuildCall : Type :=
| RegisterInterfaceType (typeName : string) (scope : ScopeInterface)
| SetGraphQLTypeForPgCodec (codecName typeName : string)
| RegisterCursorConnection (typeName connectionTypeName edgeTypeName : string)
    (nonNullNode : bool)
| RegisterObjectType (typeName typeIdentifier interfaceTypeName : string)
    (attributes : list PgCodecPolymorphismSingleTypeAttributeSpec)
| RegisterUnionType (unionName : string) (codecs : list PgCodec).

(** The interface registration shared by the three modes. *)
Definition registerInterface (build : Build) (codec : PgCodec)
    (polymorphism : PgCodecPolymorphism) : list BuildCall :=
  let interfaceTypeName := tableType build codec in
  [ RegisterInterfaceType interfaceTypeName
      {| scope_pgCodec := Some codec;
         isPgPolymorphicTableType := true;
         pgPolymorphism := Some polymorphism |};
    SetGraphQLTypeForPgCodec (name codec) interfaceTypeName;
    RegisterCursorConnection interfaceTypeName
      (tableConnectionType build codec) (tableEdgeType build codec)
      (pgForbidSetofFunctionsToReturnNull build) ].

(** The first recoverable block: "Detect interface". *)
Definition detectInterface (build : Build) (codec : PgCodec) : list BuildCall :=
  match polymorphism codec with
  | None => []
  | Some polymorphism =>
      let isTable := pgCodecMatches build codec "table" in
      if negb isTable || isAnonymous codec then []
      else
        let selectable := pgCodecMatches build codec "select" in
        if selectable then
          match polymorphism with
          | PolySingle _ _ types =>
              registerInterface build codec polymorphism
              ++ flat_map
                   (fun '(typeIdentifier, spec) =>
                      let tableTypeName := st_name spec in
                      [ RegisterObjectType tableTypeName typeIdentifier
                          (tableType build codec) (st_attributes spec);
                        RegisterCursorConnection tableTypeName
                          (connectionType build tableTypeName)
                          (edgeType build tableTypeName)
                          (pgForbidSetofFunctionsToReturnNull build) ])
                   (JsObject.entries types)
          | PolyRelational _ _ => registerInterface build codec polymorphism
          | PolyUnion => registerInterface build codec polymorphism
          end
        else []
  end.

(** [unionsToRegister]: a [Map<string, PgCodec[]>]. *)
Abbreviation UnionsToRegister := (JsObject.obj (list PgCodec)).

(** The body of [for (const membership of memberships)] *)
Definition registerMembership (codec : PgCodec) (membership : string)
    (unionsToRegister : UnionsToRegister) : UnionsToRegister :=
  let unionName := Js.trim membership in
  match JsObject.get unionName unionsToRegister with
  | None => JsObject.set unionName [codec] unionsToRegister
  | Some list => JsObject.set unionName (list ++ [codec]) unionsToRegister
  end.

(** The loop over the memberships. [membership.trim()] on [true] throws:
    the recoverable block ends there and keeps what was registered. *)
Fixpoint registerMemberships (codec : PgCodec) (memberships : list TagAtom)
    (unionsToRegister : UnionsToRegister) : UnionsToRegister :=
  match memberships with
  | [] => unionsToRegister
  | AtomTrue :: _ => unionsToRegister
  | AtomStr membership :: rest =>
      registerMemberships codec rest
        (registerMembership codec membership unionsToRegister)
  end.

(** [Array.isArray(raw) ? raw : [raw]] for a truthy [raw] *)
Definition membershipsOf (codec : PgCodec) : list TagAtom :=
  match tagOf (extensions codec) "unionMember" with
  | None => []
  | Some (TagOne (AtomStr s)) => if decide (s = EmptyString) then [] else [AtomStr s]
  | Some (TagOne AtomTrue) => [AtomTrue]
  | Some (TagMany l) => l
  end.

(** The second recoverable block: "Detect union membership". *)
Definition detectUnionMembership (codec : PgCodec)
    (unionsToRegister : UnionsToRegister) : UnionsToRegister :=
  registerMemberships codec (membershipsOf codec) unionsToRegister.

(** The body of [for (const codec of build.pgCodecMetaLookup.keys())]: the
    calls made so far and the unions accumulated so far. *)
Definition scanCodec (build : Build)
    (state : list BuildCall * UnionsToRegister) (codec : PgCodec)
  : list BuildCall * UnionsToRegister :=
  let '(calls, unionsToRegister) := state in
  match attributes codec with
  | None => (calls, unionsToRegister)
  | Some _ =>
      (calls ++ detectInterface build codec,
       detectUnionMembership codec unionsToRegister)
  end.

Definition scanCodecs (build : Build) (codecs : list PgCodec)
  : list BuildCall * UnionsToRegister :=
  foldl (scanCodec build) ([], JsObject.empty) codecs.

(** The unions accumulated by the scan. *)
Definition unionsToRegisterOf (build : Build) : UnionsToRegister :=
  snd (scanCodecs build (pgCodecMetaLookup_keys build)).

(** [.filter(isNotNullish)] *)
Definition filterNotNullish {A} (l : list (option A)) : list A := omap id l.

(** The [types] thunk of a union: the member types, once they exist. *)
Definition unionTypes (build : Build) (codecs : list PgCodec)
  : list GraphQLNamedType :=
  filterNotNullish
    (map (fun codec => getTypeByName build (tableType build codec)) codecs).

Definition init (build : Build) : list BuildCall :=
  let '(calls, unionsToRegister) :=
    scanCodecs build (pgCodecMetaLookup_keys build) in
  calls ++ map (fun '(unionName, codecs) => RegisterUnionType unionName codecs)
               (JsObject.entries unionsToRegister).

(** *** The [GraphQLSchema_types] hook *)

(** The names of the concrete types declared by a polymorphism. *)
Definition declaredTypeNames (polymorphism : PgCodecPolymorphism)
  : list string :=
  match polymorphism with
  | PolySingle _ _ types => map st_name (JsObject.values types)
  | PolyRelational _ types => map rt_name (JsObject.values types)
  | PolyUnion => []
  end.

(** The body of [for (const type of Object.values(build.getAllTypes()))];
    [types.push(t)] also pushes an [undefined] result of [getTypeByName]. *)
Definition forceDeclaredTypes (build : Build)
    (types : list (option GraphQLNamedType)) (type : GraphQLNamedType)
  : list (option GraphQLNamedType) :=
  if isInterfaceType type then
    match scopeByType build type with
    | Some scope =>
        match pgPolymorphism scope with
        | Some polymorphism =>
            foldl (fun types typeName => types ++ [getTypeByName build typeName])
                  types (declaredTypeNames polymorphism)
        | None => types
        end
    | None => types
    end
  else types.

Definition GraphQLSchema_types (types : list (option GraphQLNamedType))
    (build : Build) : list (option GraphQLNamedType) :=
  foldl (forceDeclaredTypes build) types (JsObject.values (getAllTypes build)).

(** *** Vocabulary for the properties of the schema hooks *)

(** The union names a codec's [unionMember] tag registers: the trimmed
    memberships up to the first one that is not a string. *)
Fixpoint registeredNames (memberships : list TagAtom) : list string :=
  match memberships with
  | [] => []
  | AtomTrue :: _ => []
  | AtomStr membership :: rest => Js.trim membership :: registeredNames rest
  end.

(** The occurrences of [unionName] among the tags of the scanned codecs:
    the tagged codec once per occurrence, in scan order. *)
Definition occurrencesOf (unionName : string) (codecs : list PgCodec)
  : list PgCodec :=
  flat_map
    (fun codec =>
       match attributes codec with
       | None => []
       | Some _ =>
           map (fun _ => codec)
               (filter (fun n => n = unionName)
                       (registeredNames (membershipsOf codec)))
       end)
    codecs.

(** The members accumulated for a union name. *)
Definition membersOf (unionName : string) (unionsToRegister : UnionsToRegister)
  : list PgCodec :=
  default [] (JsObject.get unionName unionsToRegister).

(** What the accumulator holds: distinct names, and under every name a
    non-empty list. *)
Definition WellKept (unions : UnionsToRegister) : Prop :=
  NoDup (JsObject.keys unions)
  /\ forall unionName,
       unionName ∈ JsObject.keys unions <-> membersOf unionName unions <> [].

(** The [registerUnionType] calls among the calls of a hook. *)
Definition unionCalls (calls : list BuildCall)
  : list (string * list PgCodec) :=
  omap (fun call => match call with
                    | RegisterUnionType unionName codecs =>
                        Some (unionName, codecs)
                    | _ => None
                    end) calls.

(** The relation goes from a concrete type back to its relational root:
    it is unique and not a referencee, the remote codec is a relational
    root that declares the local type, and the local attributes are the
    remote attributes of the shared relation registered for that type. *)
Definition LinkToRoot (entity : PgCodecRelation) (build : Build) : Prop :=
  let remoteCodec := res_codec (remoteResource entity) in
  isUnique entity = true
  /\ isReferencee entity = false
  /\ exists typeAttributes types key val relation,
       polymorphism remoteCodec = Some (PolyRelational typeAttributes types)
       /\ find (fun '(_, val) =>
                  bool_decide (rt_name val
                               = tableType build (localCodec entity)))
               (JsObject.entries types) = Some (key, val)
       /\ relationAt (input_pgRelations build) (name remoteCodec)
                     (rt_relationName val) = Some relation
       /\ remoteAttributes relation = localAttributes entity.

(** The relation is, seen from a relational root, one of the links to its
    declared subtypes. *)
Definition LinkFromRoot (entity : PgCodecRelation) (build : Build) : Prop :=
  isReferencee entity = true
  /\ exists typeAttributes types t relation,
       polymorphism (localCodec entity)
       = Some (PolyRelational typeAttributes types)
       /\ In t (JsObject.values types)
       /\ relationAt (input_pgRelations build) (name (localCodec entity))
                     (rt_relationName t) = Some relation
       /\ objectId relation = objectId entity.

(** The relation looks like a link to its root, but the registry has no
    relation under the name registered for the local type. *)
Definition SharedRelationMissing (entity : PgCodecRelation) (build : Build)
  : Prop :=
  let remoteCodec := res_codec (remoteResource entity) in
  isUnique entity = true
  /\ isReferencee entity = false
  /\ exists typeAttributes types key val,
       polymorphism remoteCodec = Some (PolyRelational typeAttributes types)
       /\ find (fun '(_, val) =>
                  bool_decide (rt_name val
                               = tableType build (localCodec entity)))
               (JsObject.entries types) = Some (key, val)
       /\ relationAt (input_pgRelations build) (name remoteCodec)
                     (rt_relationName val) = None.

(** ** Instances of the collaborators for the worked examples *)

Module Example.

(** A tag-option parser for the examples: words separated by one space;
    the first [leading] words are the arguments, every further word
    [key:value] is a parameter. *)
Definition keyValue (word : string) : option (string * string) :=
  match Js.split ":" word with
  | key :: value :: _ => Some (key, value)
  | _ => None
  end.

Definition parseOpts (optsString : string) (leading : nat) : SmartTagsOpts :=
  let words := Js.split " " optsString in
  {| args := take leading words;
     params := list_to_map (omap keyValue (drop leading words)) |}.

(** [schema.table], or [table] in the default schema. *)
Definition parseIdentifier (identifier : string) (count : nat)
    (defaultSchema : string) : option (string * string) :=
  match Js.split "." identifier with
  | [tableName] => Some (defaultSchema, tableName)
  | [namespaceName; tableName] => Some (namespaceName, tableName)
  | _ => None
  end.

Definition utils : Utils :=
  {| parseSmartTagsOptsString := parseOpts;
     parseDatabaseIdentifier := parseIdentifier |}.

Definition column (table : string) (num : Z) (colName : string) : PgAttribute :=
  {| attrelid := table; attnum := num; attname := colName |}.

Definition tagStrings (l : list string) : TagValue := TagMany (map AtomStr l).

Definition specWithTags (t : gmap string TagValue) : CodecSpec :=
  {| spec_extensions := Some {| tags := Some t; pg := None |} |}.

(** The [person] table of the spec: single-table inheritance on [kind]. *)
Definition person : PgClass :=
  {| _id := "1"; relname := "person"; nspname := "app";
     getAttributes :=
       [ column "1" (-1) "ctid"; column "1" 1 "id"; column "1" 2 "kind";
         column "1" 3 "name"; column "1" 4 "salary";
         column "1" 5 "hourly_rate" ];
     getConstraints := [];
     getTags := ∅ |}.

Definition personTags : gmap string TagValue :=
  <["interface" := TagOne (AtomStr "mode:single type:kind")]>
    (<["type" := tagStrings
                   [ "employee name:Employee attributes:salary!";
                     "contractor name:Contractor attributes:hourly_rate" ]]>
     ∅).

Definition personEvent : RecordTypeEvent :=
  {| pgClass := person; spec := specWithTags personTags;
     serviceName := "main" |}.

(** A single-mode root whose type tag names a column the table lacks, and
    which leaves the discriminator to its default. *)
Definition item : PgClass :=
  {| _id := "2"; relname := "item"; nspname := "app";
     getAttributes := [ column "2" 1 "id"; column "2" 2 "type" ];
     getConstraints := [];
     getTags := ∅ |}.

Definition itemTags : gmap string TagValue :=
  <["interface" := TagOne (AtomStr "mode:single")]>
    (<["type" := TagOne (AtomStr "a name:A attributes:bogus")]> ∅).

Definition itemEvent : RecordTypeEvent :=
  {| pgClass := item; spec := specWithTags itemTags; serviceName := "main" |}.

(** Class-table inheritance with a two-column key: [vehicle (make, serial)]
    is the root; [car] and [truck] have the primary key [(make, serial)]
    too. The foreign key of [car] lists the columns in key order, the one
    of [truck] lists the same columns in the other order. *)
Definition primaryKey (cols : list PgAttribute) : PgConstraint :=
  {| conname := "pkey"; contype := "p"; confrelid := "0";
     con_getAttributes := cols; con_getForeignAttributes := [] |}.

Definition foreignKey (target : string) (cols foreignCols : list PgAttribute)
  : PgConstraint :=
  {| conname := "fkey"; contype := "f"; confrelid := target;
     con_getAttributes := cols; con_getForeignAttributes := foreignCols |}.

Definition vehicle : PgClass :=
  {| _id := "10"; relname := "vehicle"; nspname := "app";
     getAttributes :=
       [ column "10" 1 "make"; column "10" 2 "serial"; column "10" 3 "type" ];
     getConstraints :=
       [ primaryKey [ column "10" 1 "make"; column "10" 2 "serial" ] ];
     getTags := ∅ |}.

Definition car : PgClass :=
  {| _id := "11"; relname := "car"; nspname := "app";
     getAttributes :=
       [ column "11" 1 "make"; column "11" 2 "serial"; column "11" 3 "doors" ];
     getConstraints :=
       [ primaryKey [ column "11" 1 "make"; column "11" 2 "serial" ];
         foreignKey "10"
           [ column "11" 1 "make"; column "11" 2 "serial" ]
           [ column "10" 1 "make"; column "10" 2 "serial" ] ];
     getTags := ∅ |}.

Definition truck : PgClass :=
  {| _id := "12"; relname := "truck"; nspname := "app";
     getAttributes :=
       [ column "12" 1 "make"; column "12" 2 "serial"; column "12" 3 "load" ];
     getConstraints :=
       [ primaryKey [ column "12" 1 "make"; column "12" 2 "serial" ];
         foreignKey "10"
           [ column "12" 2 "serial"; column "12" 1 "make" ]
           [ column "10" 2 "serial"; column "10" 1 "make" ] ];
     getTags := ∅ |}.

(** A table without a primary key. *)
Definition trailer : PgClass :=
  {| _id := "13"; relname := "trailer"; nspname := "app";
     getAttributes := [ column "13" 1 "make"; column "13" 2 "serial" ];
     getConstraints :=
       [ foreignKey "10"
           [ column "13" 1 "make"; column "13" 2 "serial" ]
           [ column "10" 1 "make"; column "10" 2 "serial" ] ];
     getTags := ∅ |}.

Definition classes : list PgClass := [person; item; vehicle; car; truck; trailer].

Definition tableHelpers : Helpers :=
  {| getClassByName := fun _ namespaceName tableName =>
       find (fun c => bool_decide (nspname c = namespaceName)
                      && bool_decide (relname c = tableName)) classes;
     getCodecFromClass := fun _ classId =>
       relname <$> find (fun c => bool_decide (_id c = classId)) classes;
     getResourceOptions := fun _ cls =>
       Some {| ro_name := relname cls; ro_codec := relname cls;
               ro_parameters := false; ro_extensions := None |} |}.

Definition plainInflection : Inflection :=
  {| tableTypeOfRef := fun codec => default "undefined" codec;
     resourceRelationName := fun d =>
       relname (rd_foreignClass d) +:+ "By"
       +:+ (if rd_isReferencee d then "Their" else "My")
       +:+ String.concat "And" (map attname (rd_localAttributes d));
     singleRelation := fun _ relationName => relationName;
     singleRelationBackwards := fun _ relationName => relationName;
     manyRelationConnection := fun _ relationName => relationName +:+ "Connection";
     manyRelationList := fun _ relationName => relationName +:+ "List" |}.

Definition info : Info :=
  {| helpers := tableHelpers; inflection := plainInflection |}.

(** The codecs, resources and relations of the [vehicle] hierarchy once
    Discovery has run. The [car] codec starts with a stale ref under the
    name of one of the root's relations. *)
Definition plainAttribute (valueCodec : string) : PgCodecAttribute :=
  {| codec := valueCodec; notNull := Some true; hasDefault := None;
     via := None; identicalVia := None; restrictedAccess := None;
     description := None; attr_extensions := None |}.

Definition carSpec : PgCodecPolymorphismRelationalTypeSpec :=
  {| rt_name := "car"; rt_references := "car";
     rt_relationName := "carByTheirmakeAndserial" |}.

Definition vehicleTypes : JsObject.obj PgCodecPolymorphismRelationalTypeSpec :=
  [("CAR", carSpec)].

Definition vehicleAttributes : gmap string PgCodecAttribute :=
  <["make" := plainAttribute "text"]>
    (<["serial" := plainAttribute "int4"]>
       (<["type" := plainAttribute "text"]>
          (<["owner_id" := plainAttribute "int4"]> ∅))).

Definition carAttributes : gmap string PgCodecAttribute :=
  <["make" := plainAttribute "text"]>
    (<["serial" := plainAttribute "int4"]>
       (<["doors" := plainAttribute "int4"]> ∅)).

Definition behaviorTag (flags : string) : option Extensions :=
  Some {| tags := Some {[ "behavior" := TagOne (AtomStr flags) ]}; pg := None |}.

Definition vehicleCodec : PgCodec :=
  {| name := "vehicle"; attributes := Some vehicleAttributes;
     polymorphism := Some (PolyRelational ["type"] vehicleTypes);
     refs := None; isAnonymous := false; extensions := None |}.

Definition staleRef : PgCodecRef :=
  {| definition := {| singular := false; singleRecordFieldName := "stale";
                      listFieldName := "stale"; connectionFieldName := "stale";
                      ref_behavior := [] |};
     paths := [] |}.

Definition carCodec : PgCodec :=
  {| name := "car"; attributes := Some carAttributes; polymorphism := None;
     refs := Some {[ "personByMyownerId" := staleRef; "wheels" := staleRef ]};
     isAnonymous := false; extensions := None |}.

Definition personCodec : PgCodec :=
  {| name := "person"; attributes := Some ∅; polymorphism := None;
     refs := None; isAnonymous := false; extensions := behaviorTag "select" |}.

Definition registryCodecs : Codecs :=
  <["vehicle" := vehicleCodec]> (<["car" := carCodec]> ∅).

Definition vehicleExt : PgExtension :=
  {| schemaName := "app"; pg_serviceName := "main"; pg_name := "vehicle" |}.

Definition vehicleOptions : PgResourceOptions :=
  {| ro_name := "vehicle"; ro_codec := "vehicle"; ro_parameters := false;
     ro_extensions := Some {| tags := None; pg := Some vehicleExt |} |}.

Definition vehicleResource : PgResource :=
  {| res_name := "vehicle"; res_codec := vehicleCodec; res_parameters := false;
     res_extensions := Some {| tags := None; pg := Some vehicleExt |} |}.

Definition carResource : PgResource :=
  {| res_name := "car"; res_codec := carCodec; res_parameters := false;
     res_extensions := None |}.

Definition personResource : PgResource :=
  {| res_name := "person"; res_codec := personCodec; res_parameters := false;
     res_extensions := behaviorTag "-insert" |}.

(** [vehicle.owner_id] references [person.id]. *)
Definition ownerRelation : PgCodecRelation :=
  {| objectId := 1; localCodec := vehicleCodec; remoteResource := personResource;
     localAttributes := ["owner_id"]; remoteAttributes := ["id"];
     isUnique := true; isReferencee := false;
     rel_extensions := behaviorTag "-list" |}.

(** The link from the root to [car], seen from the root. *)
Definition carLink : PgCodecRelation :=
  {| objectId := 2; localCodec := vehicleCodec; remoteResource := carResource;
     localAttributes := ["make"; "serial"];
     remoteAttributes := ["make"; "serial"];
     isUnique := true; isReferencee := true; rel_extensions := None |}.

Definition vehicleRelations : gmap string PgCodecRelation :=
  {[ "personByMyownerId" := ownerRelation;
     "carByTheirmakeAndserial" := carLink ]}.

Definition registry : PgRegistry :=
  {| pgResources := [("vehicle", vehicleResource); ("car", carResource);
                     ("person", personResource)];
     pgRelations := {[ "vehicle" := vehicleRelations ]} |}.

(** The schema phase: [circle] is tagged as a member of [Shape] twice,
    [square] once (with blanks around the name) and has no GraphQL type. *)
Definition unionMemberTags (memberships : list string) : option Extensions :=
  Some {| tags := Some {[ "unionMember" := TagMany (map AtomStr memberships) ]};
          pg := None |}.

Definition circleCodec : PgCodec :=
  {| name := "circle"; attributes := Some ∅; polymorphism := None;
     refs := None; isAnonymous := false;
     extensions := unionMemberTags ["Shape"; "Shape"] |}.

Definition squareCodec : PgCodec :=
  {| name := "square"; attributes := Some ∅; polymorphism := None;
     refs := None; isAnonymous := false;
     extensions := unionMemberTags [" Shape "] |}.

Definition vehicleInterface : GraphQLNamedType :=
  {| gql_name := "vehicle"; gql_kind := InterfaceKind |}.
Definition carType : GraphQLNamedType :=
  {| gql_name := "car"; gql_kind := ObjectKind |}.
Definition circleType : GraphQLNamedType :=
  {| gql_name := "circle"; gql_kind := ObjectKind |}.
Definition queryType : GraphQLNamedType :=
  {| gql_name := "Query"; gql_kind := ObjectKind |}.

(** The link from [car] to the root, seen from [car]. *)
Definition carToVehicle : PgCodecRelation :=
  {| objectId := 3; localCodec := carCodec; remoteResource := vehicleResource;
     localAttributes := ["make"; "serial"];
     remoteAttributes := ["make"; "serial"];
     isUnique := true; isReferencee := false; rel_extensions := None |}.

Definition schemaBuild : Build :=
  {| tableType := name;
     tableConnectionType := fun c => name c +:+ "Connection";
     tableEdgeType := fun c => name c +:+ "Edge";
     connectionType := fun n => n +:+ "Connection";
     edgeType := fun n => n +:+ "Edge";
     getTypeByName := fun n =>
       find (fun t => bool_decide (gql_name t = n))
            [vehicleInterface; carType; circleType; queryType];
     getAllTypes := [("vehicle", vehicleInterface); ("Query", queryType)];
     scopeByType := fun t =>
       if bool_decide (t = vehicleInterface)
       then Some {| scope_pgCodec := Some vehicleCodec;
                    isPgPolymorphicTableType := true;
                    pgPolymorphism := polymorphism vehicleCodec |}
       else None;
     pgCodecMatches := fun _ _ => true;
     pgCodecMetaLookup_keys :=
       [circleCodec; squareCodec; vehicleCodec; carCodec];
     input_pgRelations :=
       {[ "vehicle" := vehicleRelations;
          "car" := {[ "vehicleByMymakeAndserial" := carToVehicle ]} ]};
     pgForbidSetofFunctionsToReturnNull := false |}.

(** The same build with an empty relation registry. *)
Definition buildWithoutRelations : Build :=
  {| tableType := tableType schemaBuild;
     tableConnectionType := tableConnectionType schemaBuild;
     tableEdgeType := tableEdgeType schemaBuild;
     connectionType := connectionType schemaBuild;
     edgeType := edgeType schemaBuild;
     getTypeByName := getTypeByName schemaBuild;
     getAllTypes := getAllTypes schemaBuild;
     scopeByType := scopeByType schemaBuild;
     pgCodecMatches := pgCodecMatches schemaBuild;
     pgCodecMetaLookup_keys := pgCodecMetaLookup_keys schemaBuild;
     input_pgRelations := ∅;
     pgForbidSetofFunctionsToReturnNull := false |}.

Definition vehicleTags (typeTags : list string) : gmap string TagValue :=
  <["interface" := TagOne (AtomStr "mode:relational")]>
    (<["type" := tagStrings typeTags]> ∅).

Definition vehicleEvent (typeTags : list string) : RecordTypeEvent :=
  {| pgClass := vehicle; spec := specWithTags (vehicleTags typeTags);
     serviceName := "main" |}.

End Example.

(** ** Further hooks of the plugin *)

(** *** The [GraphQLObjectType_interfaces] hook *)

(** What the hook reports with [console.error]. *)
Inductive ConsoleError : Type :=
| TypeNotFound (interfaceName : string)
| NotAnInterfaceType (interfaceName : string) (found : GraphQLNamedType).

(** What the hook reads from its [context]: [scope.pgCodec],
    [scope.isPgClassType] and [Self.name]. *)
Record ObjectContext := mkObjectContext {
  ctx_pgCodec : option PgCodec;
  ctx_isPgClassType : bool;
  ctx_SelfName : string
}.

(** [Array.isArray(raw) ? raw : [raw]] for a truthy [implements] tag *)
Definition implementsOf (pgCodec : option PgCodec) : list TagAtom :=
  match pgCodec with
  | None => []
  | Some codec =>
      match tagOf (extensions codec) "implements" with
      | None => []
      | Some (TagOne (AtomStr s)) =>
          if decide (s = EmptyString) then [] else [AtomStr s]
      | Some (TagOne AtomTrue) => [AtomTrue]
      | Some (TagMany l) => l
      end
  end.

(** The state of the hook: the interfaces so far and the errors logged. *)
Definition InterfacesState : Type :=
  list (option GraphQLNamedType) * list ConsoleError.

(** The body of [for (const interfaceName of interfaceNames)] *)
Definition implementInterface (build : Build) (state : InterfacesState)
    (interfaceName : TagAtom) : InterfacesState :=
  let '(interfaces, errors) := state in
  match getTypeByName build (String_ interfaceName) with
  | None => (interfaces, errors ++ [TypeNotFound (String_ interfaceName)])
  | Some interfaceType =>
      if negb (isInterfaceType interfaceType)
      then (interfaces,
            errors ++ [NotAnInterfaceType (String_ interfaceName) interfaceType])
      else (interfaces ++ [Some interfaceType], errors)
  end.

(** Does the codec make the object type [selfName] implement its
    interface? [!codec.attributes || !polymorphism ||
    polymorphism.mode !== "relational"] is the [continue]. *)
Definition declaresType (codec : PgCodec) (selfName : string) : bool :=
  match attributes codec, polymorphism codec with
  | Some _, Some (PolyRelational _ types) =>
      bool_decide (selfName ∈ map rt_name (JsObject.values types))
  | _, _ => false
  end.

(** The body of [for (const codec of build.pgCodecMetaLookup.keys())] *)
Definition attachRootInterface (build : Build) (selfName : string)
    (interfaces : list (option GraphQLNamedType)) (codec : PgCodec)
  : list (option GraphQLNamedType) :=
  if declaresType codec selfName
  then interfaces ++ [getTypeByName build (tableType build codec)]
  else interfaces.

Definition GraphQLObjectType_interfaces
    (interfaces : list (option GraphQLNamedType)) (build : Build)
    (context : ObjectContext) : InterfacesState :=
  let afterImplements :=
    if ctx_isPgClassType context
    then foldl (implementInterface build) (interfaces, [])
               (implementsOf (ctx_pgCodec context))
    else (interfaces, []) in
  (foldl (attachRootInterface build (ctx_SelfName context))
         afterImplements.1 (pgCodecMetaLookup_keys build),
   afterImplements.2).

(** *** Vocabulary for the further properties *)

(** The number of occurrences of a character in a string. *)
Fixpoint countChar (c : ascii) (s : string) : nat :=
  match s with
  | EmptyString => 0
  | String d rest => (if Ascii.eqb d c then 1 else 0) + countChar c rest
  end.

(** The last type tag, among those processed, that carries the
    discriminator value [typeValue]. *)
Definition lastTagFor (utils : Utils) (typeValue : string)
    (typeTags : list string) : option string :=
  last (filter (fun typeTag =>
                  typeValueOf (parseSmartTagsOptsString utils typeTag 1)
                  = typeValue) typeTags).

(** The entry a single-mode type tag registers. *)
Definition singleEntryOf (utils : Utils) (typeTag : string)
  : option PgCodecPolymorphismSingleTypeSpec :=
  let parsed := parseSmartTagsOptsString utils typeTag 1 in
  match truthy (params parsed !! "name") with
  | None => None
  | Some name =>
      Some {| st_name := name;
              st_attributes :=
                typeAttributeSpecs (params parsed !! "attributes") |}
  end.

(** The calls of a hook that register an interface type, and those that
    register an object type. *)
Definition interfaceCalls (calls : list BuildCall) : list string :=
  omap (fun call => match call with
                    | RegisterInterfaceType typeName _ => Some typeName
                    | _ => None
                    end) calls.

Definition objectCalls (calls : list BuildCall) : list (string * string * string) :=
  omap (fun call => match call with
                    | RegisterObjectType typeName typeIdentifier
                                         interfaceTypeName _ =>
                        Some (typeName, typeIdentifier, interfaceTypeName)
                    | _ => None
                    end) calls.

(** The codecs for which the [init] hook registers an interface: the
    polymorphic, non-anonymous codecs with attributes that match the
    [table] and [select] behaviors. *)
Definition registersInterface (build : Build) (codec : PgCodec) : bool :=
  match attributes codec, polymorphism codec with
  | Some _, Some _ =>
      pgCodecMatches build codec "table"
      && negb (isAnonymous codec)
      && pgCodecMatches build codec "select"
  | _, _ => false
  end.

(** The entry a relational-mode type tag registers for the root [pgClass],
    when the tag is accepted. *)
Definition relationalEntryOf (utils : Utils) (info : Info)
    (serviceName : string) (pgClass : PgClass) (typeTag : string)
  : option PgCodecPolymorphismRelationalTypeSpec :=
  match relationalTypeTag utils info serviceName pgClass JsObject.empty
                          typeTag with
  | Ok [(_, entry)] => Some entry
  | _ => None
  end.

(** The discriminator value of a type tag. *)
Definition typeValueOfTag (utils : Utils) (typeTag : string) : string :=
  typeValueOf (parseSmartTagsOptsString utils typeTag 1).

(** *** Vocabulary for the frame of the registry hooks *)

(** Two attributes that differ at most in [identicalVia]. *)
Definition SameButIdenticalVia (before after : PgCodecAttribute) : Prop :=
  codec after = codec before
  /\ notNull after = notNull before
  /\ hasDefault after = hasDefault before
  /\ via after = via before
  /\ restrictedAccess after = restrictedAccess before
  /\ description after = description before
  /\ attr_extensions after = attr_extensions before.

(** The attributes of a codec before and after: no attribute is lost, an
    attribute that was there differs at most in [identicalVia], and an
    attribute that was not there has a [via]. *)
Definition AttributesGrow
    (before after : option (gmap string PgCodecAttribute)) : Prop :=
  match before, after with
  | Some a, Some a' =>
      forall colName,
        match a !! colName, a' !! colName with
        | Some attr, Some attr' => SameButIdenticalVia attr attr'
        | Some _, None => False
        | None, Some attr' => via attr' <> None
        | None, None => True
        end
  | None, None => True
  | _, _ => False
  end.

(** The codecs before and after: the same references, and behind each the
    same codec up to its attributes, which have grown. *)
Definition OnlyAttributesChange (before after : Codecs) : Prop :=
  forall r,
    match before !! r, after !! r with
    | Some c, Some c' =>
        name c' = name c
        /\ polymorphism c' = polymorphism c
        /\ refs c' = refs c
        /\ isAnonymous c' = isAnonymous c
        /\ extensions c' = extensions c
        /\ AttributesGrow (attributes c) (attributes c')
    | None, None => True
    | _, _ => False
    end.

(** [ref] is the ref the registry hook synthesizes under [refName] for the
    codec [r]: [r] is the resource codec of a table declared as a subtype of
    a relational root resource of the registry, [refName] names a relation
    of that root, and the ref goes through the shared relation of the two
    tables. *)
Definition SynthesizedFor (utils : Utils) (info : Info) (registry : PgRegistry)
    (r : CodecRef) (refName : string) (ref : PgCodecRef) : Prop :=
  exists resource ext pgClass typeAttributes types spec pgRelatedClass
         sharedRelationName relations relationSpec,
    In resource (JsObject.values (pgResources registry))
    /\ pgOf (res_extensions resource) = Some ext
    /\ getClassByName (helpers info) (pg_serviceName ext) (schemaName ext)
                      (pg_name ext) = Some pgClass
    /\ polymorphism (res_codec resource)
       = Some (PolyRelational typeAttributes types)
    /\ In spec (JsObject.values types)
    /\ relatedClassOf utils info (pg_serviceName ext) (schemaName ext) spec
       = Some pgRelatedClass
    /\ resourceCodecOf info (pg_serviceName ext) pgRelatedClass = Some r
    /\ sharedRelationNameOf info (pg_serviceName ext) pgClass pgRelatedClass
       = Ok sharedRelationName
    /\ pgRelations registry !! name (res_codec resource) = Some relations
    /\ relations !! refName = Some relationSpec
    /\ ref = synthesizedRef info resource sharedRelationName refName
                            relationSpec.

(** The refs of the codec [r] before and after: no ref is lost, and each
    ref is the one that was there or one the hook synthesizes. *)
Definition RefsGrow (utils : Utils) (info : Info) (registry : PgRegistry)
    (r : CodecRef) (before after : option (gmap string PgCodecRef)) : Prop :=
  (before <> None -> after <> None)
  /\ forall refName,
       match default ∅ after !! refName with
       | Some ref =>
           default ∅ before !! refName = Some ref
           \/ SynthesizedFor utils info registry r refName ref
       | None => default ∅ before !! refName = None
       end.

(** The codecs before and after: the same references, and behind each the
    same codec up to its refs, which have grown. *)
Definition OnlyRefsChange (utils : Utils) (info : Info) (registry : PgRegistry)
    (before after : Codecs) : Prop :=
  forall r,
    match before !! r, after !! r with
    | Some c, Some c' =>
        name c' = name c
        /\ attributes c' = attributes c
        /\ polymorphism c' = polymorphism c
        /\ isAnonymous c' = isAnonymous c
        /\ extensions c' = extensions c
        /\ RefsGrow utils info registry r (refs c) (refs c')
    | None, None => True
    | _, _ => False
    end.

(** Is the polymorphism the relational one? *)
Definition isRelational (polymorphism : option PgCodecPolymorphism) : bool :=
  match polymorphism with
  | Some (PolyRelational _ _) => true
  | _ => false
  end.

(** The codecs [second] of a second run of the registry hook, against the
    codecs [first] of the first run at the same point: the same references
    and, behind each, the same codec up to its refs; as for the refs, the
    second run has what the first has, or still what the first run ended
    with, [final]. *)
Definition RunsAgree (final first second : Codecs) : Prop :=
  forall r,
    match first !! r, second !! r with
    | Some x, Some y =>
        name y = name x
        /\ attributes y = attributes x
        /\ polymorphism y = polymorphism x
        /\ isAnonymous y = isAnonymous x
        /\ extensions y = extensions x
        /\ ((refs y = None <-> refs x = None)
            \/ exists z, final !! r = Some z
                         /\ (refs y = None <-> refs z = None))
        /\ forall refName,
             default ∅ (refs y) !! refName = default ∅ (refs x) !! refName
             \/ default ∅ (refs y) !! refName = refAt final r refName
    | None, None => True
    | _, _ => False
    end.

(** *** Vocabulary for the further properties of the schema hooks *)

(** The names the [implements] tag is read for. *)
Definition interfaceNamesOf (context : ObjectContext) : list TagAtom :=
  if ctx_isPgClassType context then implementsOf (ctx_pgCodec context) else [].

(** The interface types found under the given names. *)
Definition implementedTypes (build : Build) (names : list TagAtom)
  : list GraphQLNamedType :=
  filter (fun type => isInterfaceType type = true)
         (omap (fun interfaceName =>
                  getTypeByName build (String_ interfaceName)) names).

(** What is reported for the given names. *)
Definition implementErrors (build : Build) (names : list TagAtom)
  : list ConsoleError :=
  omap (fun interfaceName =>
          match getTypeByName build (String_ interfaceName) with
          | None => Some (TypeNotFound (String_ interfaceName))
          | Some type =>
              if isInterfaceType type then None
              else Some (NotAnInterfaceType (String_ interfaceName) type)
          end) names.

(** The relational roots that declare the object type [selfName]. *)
Definition rootsDeclaring (build : Build) (selfName : string) : list PgCodec :=
  filter (fun codec => declaresType codec selfName = true)
         (pgCodecMetaLookup_keys build).

(** The types of a single-mode codec, by discriminator value. *)
Definition singleTypesOf (codec : PgCodec)
  : list (string * PgCodecPolymorphismSingleTypeSpec) :=
  match polymorphism codec with
  | Some (PolySingle _ _ types) => JsObject.entries types
  | _ => []
  end.

(** [getTypeByName(typeName)] was pushed for a type declared by the
    polymorphism of a registered interface type. *)
Definition ForcedBy (build : Build) (t : option GraphQLNamedType) : Prop :=
  exists type scope polymorphism typeName,
    In type (JsObject.values (getAllTypes build))
    /\ isInterfaceType type = true
    /\ scopeByType build type = Some scope
    /\ pgPolymorphism scope = Some polymorphism
    /\ In typeName (declaredTypeNames polymorphism)
    /\ t = getTypeByName build typeName.

(** ** PgOrderByPrimaryKeyPlugin: the [GraphQLEnumType_values] hook *)

Module OrderByPrimaryKey.

(** [PgSourceColumn], [PgTypeCodec], [PgSourceUnique] and [PgSource], as
    far as the hook reads them. [codecId] stands for the identity of the
    codec object, which [s.codec === pgCodec] compares. *)
Record PgSourceColumn := mkPgSourceColumn {
  column_codec : string
}.

Record PgTypeCodec := mkPgTypeCodec {
  codecId : positive;
  name : string;
  columns : option (gmap string PgSourceColumn);
  isAnonymous : bool
}.

Record PgSourceUnique := mkPgSourceUnique {
  isPrimary : bool;
  unique_columns : list string
}.

Record PgSource := mkPgSource {
  codec : PgTypeCodec;
  parameters : bool;                       (* is [s.parameters] truthy? *)
  uniques : list PgSourceUnique
}.

(** [context.scope] *)
Record Scope := mkScope {
  isPgRowSortEnum : bool;
  pgCodec : option PgTypeCodec
}.

(** What the hook reads from [build]. *)
Record Build := mkBuild {
  builtin : string -> string;              (* build.inflection.builtin *)
  pgSources : list PgSource                (* build.input.pgSources *)
}.

Inductive Direction : Type := ASC | DESC.

(** The argument of [plan.orderBy]; the fragment
    [sql`${plan.alias}.${sql.identifier(columnName)}`] is kept by its two
    parts. *)
Record OrderSpec := mkOrderSpec {
  order_codec : string;
  fragment_alias : string;
  fragment_identifier : string;
  direction : Direction
}.

(** The calls a plan function makes on the [PgSelectPlan] it is given. *)
Inductive PlanCall : Type :=
| OrderBy (spec : OrderSpec)
| SetOrderIsUnique.

(** Reading [column.codec] of a column the codec does not have throws. *)
Inductive PlanError : Type :=
| ColumnUndefined (columnName : string).

(** The body of [primaryKeyColumns.forEach((columnName) => ...)] *)
Definition orderByColumn (pgCodec : PgTypeCodec) (alias : string)
    (direction : Direction) (calls : list PlanCall) (columnName : string)
  : Result PlanError (list PlanCall) :=
  match default ∅ (columns pgCodec) !! columnName with
  | None => Err (ColumnUndefined columnName)
  | Some column =>
      Ok (calls ++ [OrderBy {| order_codec := column_codec column;
                               fragment_alias := alias;
                               fragment_identifier := columnName;
                               direction := direction |}])
  end.

(** The plan function of the two enum values, as a function of what it
    captures, [pgCodec] and [primaryKeyColumns], of its direction and of the
    alias of the plan it is applied to. *)
Definition plan (pgCodec : PgTypeCodec) (primaryKeyColumns : list string)
    (direction : Direction) (alias : string)
  : Result PlanError (list PlanCall) :=
  calls ← forEachR (orderByColumn pgCodec alias direction) primaryKeyColumns [];
  Ok (calls ++ [SetOrderIsUnique]).

(** An enum value added by the hook, kept by what its plan captures. *)
Record EnumValue := mkEnumValue {
  plan_pgCodec : PgTypeCodec;
  plan_primaryKeyColumns : list string;
  plan_direction : Direction
}.

(** What the hook returns: the values it was given, or the result of
    [extend(values, added, hint)]. *)
Inductive HookResult (V : Type) : Type :=
| Returned (values : V)
| Extend (values : V) (added : JsObject.obj EnumValue) (hint : string).

Arguments Returned {V} values.
Arguments Extend {V} values added hint.

(** [s.codec === pgCodec && !s.parameters] *)
Definition isSourceOf (pgCodec : PgTypeCodec) (s : PgSource) : bool :=
  bool_decide (codecId (codec s) = codecId pgCodec) && negb (parameters s).

Definition GraphQLEnumType_values {V} (values : V) (build : Build)
    (scope : Scope) : HookResult V :=
  if negb (isPgRowSortEnum scope) then Returned values else
  match pgCodec scope with
  | None => Returned values
  | Some pgCodec =>
      if bool_decide (columns pgCodec = None) || isAnonymous pgCodec
      then Returned values
      else
        let sources :=
          List.filter (isSourceOf pgCodec) (pgSources build) in
        match sources with
        | [] => Returned values
        | source :: _ =>
            match find isPrimary (uniques source) with
            | None => Returned values
            | Some primaryKey =>
                let primaryKeyColumns := unique_columns primaryKey in
                Extend values
                  (JsObject.set (builtin build "PRIMARY_KEY_DESC")
                     {| plan_pgCodec := pgCodec;
                        plan_primaryKeyColumns := primaryKeyColumns;
                        plan_direction := DESC |}
                     (JsObject.set (builtin build "PRIMARY_KEY_ASC")
                        {| plan_pgCodec := pgCodec;
                           plan_primaryKeyColumns := primaryKeyColumns;
                           plan_direction := ASC |}
                        JsObject.empty))
                  ("Adding primary key asc/desc sort to table '"
                   +:+ name pgCodec +:+ "'")
            end
        end
  end.

(** *** Vocabulary for the properties of the hook *)

(** The primary key the hook orders by: the first primary unique of the
    first source of the codec that has no parameters. *)
Definition primaryKeyFor (build : Build) (pgCodec : PgTypeCodec)
  : option PgSourceUnique :=
  match List.filter (isSourceOf pgCodec) (pgSources build) with
  | [] => None
  | source :: _ => find isPrimary (uniques source)
  end.

(** The [orderBy] specs among the calls of a plan. *)
Definition orderSpecs (calls : list PlanCall) : list OrderSpec :=
  omap (fun call => match call with
                    | OrderBy spec => Some spec
                    | SetOrderIsUnique => None
                    end) calls.

(** The same call in the other direction. *)
Definition reverseCall (call : PlanCall) : PlanCall :=
  match call with
  | OrderBy spec =>
      OrderBy {| order_codec := order_codec spec;
                 fragment_alias := fragment_alias spec;
                 fragment_identifier := fragment_identifier spec;
                 direction := match direction spec with
                              | ASC => DESC
                              | DESC => ASC
                              end |}
  | SetOrderIsUnique => SetOrderIsUnique
  end.

(** The [orderBy] specs of a plan that has gone through the columns:
    one per column, in order. *)
Definition OrdersBy (pgCodec : PgTypeCodec) (alias : string)
    (direction : Direction) (columnNames : list string)
    (specs : list OrderSpec) : Prop :=
  Forall2 (fun columnName spec =>
             exists column,
               default ∅ (columns pgCodec) !! columnName = Some column
               /\ spec = {| order_codec := column_codec column;
                            fragment_alias := alias;
                            fragment_identifier := columnName;
                            direction := direction |})
          columnNames specs.

End OrderByPrimaryKey.

(** ** Grafast: [withGrafastArgs] and [execute] *)

Module Grafast.

(** [args.rootValue], as far as the function looks at it: [undefined],
    [null], a value whose [typeof] is not ["object"], or an object with its
    own enumerable string keys. *)
Inductive RootValue : Type :=
| RootUndefined
| RootNull
| RootNonObject
| RootObject (keys : list string).

(** An operation announced by an [explainOperation] event. *)
Record Operation := mkOperation {
  type : string;
  title : string
}.

Record GrafastExecuteOptions := mkOptions {
  explain : option (list string);
  asString : option bool
}.

Inductive ExecuteError : Type :=
| RootValueNotSupported
| RootValueNotAnObject.

(** The root value handed to [grafastPrepare]: its keys, and under
    [$$extensions] and [$$eventEmitter] what the function has stored. *)
Record PreparedRootValue := mkPreparedRootValue {
  rootKeys : list string;
  explainOperations : option (list Operation);
  eventEmitter : bool
}.

(** [grafastPrepare], by what the function can see of it: the
    [explainOperation] events emitted on the emitter it finds in the root
    value until its result has settled, and that result. *)
Record Prepare (R : Type) := mkPrepare {
  emitted : list string -> GrafastExecuteOptions -> list Operation;
  settled : list string -> GrafastExecuteOptions -> R
}.

Arguments emitted {R}.
Arguments settled {R}.

(** The first [if]: in development mode a root value is refused unless it
    is nullish or an object without keys. *)
Definition refusedInDevelopment (rootValue : RootValue) : bool :=
  match rootValue with
  | RootUndefined | RootNull => false
  | RootNonObject => true
  | RootObject keys => bool_decide (0 < length keys)
  end.

(** [if (args.rootValue == null) args.rootValue = Object.create(null)] *)
Definition defaultRootValue (rootValue : RootValue) : RootValue :=
  match rootValue with
  | RootUndefined | RootNull => RootObject []
  | other => other
  end.

(** [!!options.explain?.length] *)
Definition shouldExplain (options : GrafastExecuteOptions) : bool :=
  match explain options with
  | Some l => bool_decide (0 < length l)
  | None => false
  end.

(** [handleExplainOperation] *)
Definition handleExplainOperation (options : GrafastExecuteOptions)
    (explainOperations : list Operation) (operation : Operation)
  : list Operation :=
  if bool_decide (type operation ∈ default [] (explain options))
  then explainOperations ++ [operation]
  else explainOperations.

(** The function. [development] says whether [process] is defined and
    [NODE_ENV] is ["development"]. The result is the root value as it is
    when the result of [grafastPrepare] has settled and the listener is
    taken off, with that result. *)
Definition withGrafastArgs {R} (development : bool) (prepare : Prepare R)
    (rootValue : RootValue) (options : GrafastExecuteOptions)
  : Result ExecuteError (PreparedRootValue * R) :=
  if development && refusedInDevelopment rootValue
  then Err RootValueNotSupported
  else
    match defaultRootValue rootValue with
    | RootObject keys =>
        let operations :=
          if shouldExplain options
          then Some (foldl (handleExplainOperation options) []
                           (emitted prepare keys options))
          else None in
        Ok ({| rootKeys := keys;
               explainOperations := operations;
               eventEmitter := shouldExplain options |},
            settled prepare keys options)
    | _ => Err RootValueNotAnObject
    end.

Definition execute {R} (development : bool) (prepare : Prepare R)
    (rootValue : RootValue) (options : GrafastExecuteOptions)
  : Result ExecuteError (PreparedRootValue * R) :=
  withGrafastArgs development prepare rootValue options.

End Grafast.

(** * Properties *)


(** ** String primitives *)

Section JsFacts.

Lemma append_cons (c : ascii) (a b : string) :
  String c a +:+ b = String c (a +:+ b).
Proof. reflexivity. Qed.

Lemma append_empty_r (s : string) : s +:+ EmptyString = s.
Proof.
  induction s as [|c s IH]; [done |]. by rewrite append_cons, IH.
Qed.

Lemma append_assoc (a b c : string) : (a +:+ b) +:+ c = a +:+ b +:+ c.
Proof.
  induction a as [|x a IH]; [done |]. by rewrite !append_cons, IH.
Qed.

Lemma occurs_append (c : ascii) (a b : string) :
  Js.occurs c (a +:+ b) = Js.occurs c a || Js.occurs c b.
Proof.
  induction a as [|x a IH]; [done |].
  rewrite append_cons. cbn [Js.occurs]. rewrite IH. by rewrite orb_assoc.
Qed.

Lemma endsWith_append_bang (s : string) : Js.endsWith (s +:+ "!") "!" = true.
Proof.
  induction s as [|c s IH]; [done |].
  rewrite append_cons. cbn [Js.endsWith].
  destruct (String.eqb _ _); [done |]. exact IH.
Qed.

Lemma endsWith_absent (s : string) :
  Js.occurs "!" s = false -> Js.endsWith s "!" = false.
Proof.
  induction s as [|c s IH]; [done |].
  cbn [Js.occurs]. intros [Hc Hs]%orb_false_iff.
  cbn [Js.endsWith].
  destruct (String.eqb (String c s) "!") eqn:E.
  - apply String.eqb_eq in E. injection E as -> _.
    by rewrite Ascii.eqb_refl in Hc.
  - by apply IH.
Qed.

Lemma length_append_bang (s : string) :
  String.length (s +:+ "!") - 1 = String.length s.
Proof.
  induction s as [|c s IH]; [done |].
  rewrite append_cons. cbn [String.length].
  destruct s as [|d s]; [done |].
  rewrite append_cons in *. cbn [String.length] in *. lia.
Qed.

Lemma substring_append (s t : string) :
  String.substring 0 (String.length s) (s +:+ t) = s.
Proof.
  induction s as [|c s IH].
  - by destruct t.
  - rewrite append_cons. cbn [String.length String.substring]. by rewrite IH.
Qed.

Lemma dropLast_append (s : string) : Js.dropLast (s +:+ "!") = s.
Proof.
  unfold Js.dropLast. rewrite length_append_bang. apply substring_append.
Qed.

Lemma split_absent (sep : ascii) (s : string) :
  Js.occurs sep s = false -> Js.split sep s = [s].
Proof.
  induction s as [|c s IH]; [done |].
  cbn [Js.occurs Js.split]. intros [Hc Hs]%orb_false_iff.
  rewrite Hc. by rewrite (IH Hs).
Qed.

Lemma split_append (sep : ascii) (a b : string) :
  Js.occurs sep a = false ->
  Js.split sep (a +:+ String sep b) = a :: Js.split sep b.
Proof.
  induction a as [|c a IH].
  - intros _. change (EmptyString +:+ String sep b) with (String sep b).
    cbn [Js.split]. by rewrite Ascii.eqb_refl.
  - cbn [Js.occurs]. intros [Hc Ha]%orb_false_iff.
    rewrite append_cons. cbn [Js.split]. rewrite Hc. by rewrite (IH Ha).
Qed.

Lemma split_nonempty (sep : ascii) (s : string) : Js.split sep s <> [].
Proof.
  induction s as [|c s IH]; [done |].
  cbn [Js.split]. destruct (Ascii.eqb c sep); [done |].
  by destruct (Js.split sep s).
Qed.

Lemma arraysMatch_eq {A} `{EqDecision A} (xs ys : list A) :
  Js.arraysMatch xs ys = true <-> xs = ys.
Proof.
  revert ys. induction xs as [|x xs IH]; intros [|y ys]; simpl; try done.
  rewrite andb_true_iff, bool_decide_eq_true, IH.
  split; [intros [-> ->]; done | intros [= -> ->]; done].
Qed.

End JsFacts.

(** ** [parseAttribute] *)

Section ParseAttributeFacts.

Lemma parseAttribute_marked (spec : string) :
  parseAttribute (spec +:+ "!")
  = {| attribute := hd EmptyString (Js.split ">" spec);
       isNotNull := true;
       rename := nth_error (Js.split ">" spec) 1 |}.
Proof.
  unfold parseAttribute. by rewrite endsWith_append_bang, dropLast_append.
Qed.

Lemma parseAttribute_unmarked (spec : string) :
  Js.occurs "!" spec = false ->
  parseAttribute spec
  = {| attribute := hd EmptyString (Js.split ">" spec);
       isNotNull := false;
       rename := nth_error (Js.split ">" spec) 1 |}.
Proof.
  intros H. unfold parseAttribute. by rewrite (endsWith_absent _ H).
Qed.

Lemma split_name_rename (name : string) (ren : option string) :
  bareName name -> bareRename ren ->
  Js.split ">" (name +:+ renamePart ren)
  = name :: match ren with Some r => [r] | None => [] end.
Proof.
  intros [Hn _] Hr. destruct ren as [r|]; cbn [renamePart].
  - destruct Hr as [Hr _].
    change (">" +:+ r) with (String ">" r).
    rewrite (split_append _ _ _ Hn). by rewrite (split_absent _ _ Hr).
  - rewrite append_empty_r. by apply split_absent.
Qed.

Lemma occurs_bang_name_rename (name : string) (ren : option string) :
  bareName name -> bareRename ren ->
  Js.occurs "!" (name +:+ renamePart ren) = false.
Proof.
  intros [_ Hn] Hr. rewrite occurs_append, Hn.
  destruct ren as [r|]; [| done].
  destruct Hr as [_ Hr]. cbn [renamePart].
  change (">" +:+ r) with (String ">" r). cbn [Js.occurs]. by rewrite Hr.
Qed.

Lemma parseAttribute_bang_last (name : string) (ren : option string)
    (bang : bool) :
  bareName name -> bareRename ren ->
  parseAttribute (renderBangLast name ren bang)
  = {| attribute := name; isNotNull := bang; rename := ren |}.
Proof.
  intros Hn Hr. unfold renderBangLast.
  destruct bang.
  - rewrite <- append_assoc, parseAttribute_marked.
    rewrite (split_name_rename _ _ Hn Hr). by destruct ren.
  - rewrite append_empty_r.
    rewrite (parseAttribute_unmarked _ (occurs_bang_name_rename _ _ Hn Hr)).
    rewrite (split_name_rename _ _ Hn Hr). by destruct ren.
Qed.

Lemma renderBangFirst_one_suffix (name : string) (bang : bool)
    (ren : option string) :
  bang = false \/ ren = None ->
  renderBangFirst name bang ren = renderBangLast name ren bang.
Proof.
  unfold renderBangFirst, renderBangLast.
  intros [-> | ->].
  - by rewrite append_empty_r.
  - cbn [renamePart]. by rewrite !append_empty_r.
Qed.

(** C6 (as the code has it). For an attribute-override entry written
    [name[>rename][!]] - bare name, optional [>rename], optional ['!'] last -
    [parseAttribute] returns the bare name, [isNotNull] true exactly when the
    ['!'] is there, and the rename exactly when the [>rename] part is there.
    In the order [name[!][>rename]] of the grammar the same holds as long as
    at most one of the two suffixes is present. *)
Theorem parseAttribute_entry (name : string) (ren : option string)
    (bang : bool) :
  bareName name -> bareRename ren ->
  parseAttribute (renderBangLast name ren bang)
  = {| attribute := name; isNotNull := bang; rename := ren |}
  /\ (bang = false \/ ren = None ->
      parseAttribute (renderBangFirst name bang ren)
      = {| attribute := name; isNotNull := bang; rename := ren |}).
Proof.
  intros Hn Hr. split.
  - by apply parseAttribute_bang_last.
  - intros H. rewrite (renderBangFirst_one_suffix _ _ _ H).
    by apply parseAttribute_bang_last.
Qed.

Lemma parseAttribute_entry_witness :
  parseAttribute (renderBangLast "salary" (Some "pay") true)
  = {| attribute := "salary"; isNotNull := true; rename := Some "pay" |}
  /\ (true = false \/ Some "pay" = None ->
      parseAttribute (renderBangFirst "salary" true (Some "pay"))
      = {| attribute := "salary"; isNotNull := true; rename := Some "pay" |}).
Proof.
  apply (parseAttribute_entry "salary" (Some "pay") true).
  - split; reflexivity.
  - split; reflexivity.
Defined.

(** What the parser returns on [salary!>pay]: the mark stays in the name. *)
Example parseAttribute_salary_pay :
  parseAttribute "salary!>pay"
  = {| attribute := "salary!"; isNotNull := false; rename := Some "pay" |}.
Proof. reflexivity. Qed.

(** C6 as stated fails: with both suffixes in the order [name!>rename] the
    parser returns neither the bare name nor [isNotNull = true]. *)
Lemma parseAttribute_bang_first_counterexample :
  ~ (forall (name : string) (bang : bool) (ren : option string),
        bareName name -> bareRename ren ->
        parseAttribute (renderBangFirst name bang ren)
        = {| attribute := name; isNotNull := bang; rename := ren |}).
Proof.
  intros H.
  specialize (H "salary" true (Some "pay")).
  assert (Hn : bareName "salary") by (split; reflexivity).
  assert (Hr : bareRename (Some "pay")) by (split; reflexivity).
  specialize (H Hn Hr). vm_compute in H. discriminate H.
Qed.

End ParseAttributeFacts.

(** ** Discovery *)

Section LoopFacts.

Context {E S X : Type} (body : S -> X -> Result E S).

Lemma forEachR_app (xs ys : list X) (s : S) :
  forEachR body (xs ++ ys) s = s' ← forEachR body xs s; forEachR body ys s'.
Proof.
  revert s. induction xs as [|x xs IH]; intros s; [done |].
  cbn [forEachR app]. destruct (body s x) as [s1|e]; [apply IH | done].
Qed.

(** An invariant of the loop body holds after the loop. *)
Lemma forEachR_invariant (P : S -> Prop) (xs : list X) (s s' : S) :
  (forall s1 x s2, In x xs -> P s1 -> body s1 x = Ok s2 -> P s2) ->
  P s -> forEachR body xs s = Ok s' -> P s'.
Proof.
  revert s. induction xs as [|x xs IH]; intros s Hstep Hs; cbn [forEachR].
  - by intros [= <-].
  - destruct (body s x) as [s1|e] eqn:Hb; [| done].
    cbn. apply IH.
    + intros s2 y s3 Hy. apply Hstep. by right.
    + eapply Hstep; [by left | exact Hs | exact Hb].
Qed.

(** A loop that ends normally ran its body normally on every element. *)
Lemma forEachR_ok_each (xs : list X) (s s' : S) :
  forEachR body xs s = Ok s' ->
  forall x, In x xs -> exists s1 s2, body s1 x = Ok s2.
Proof.
  revert s. induction xs as [|x xs IH]; intros s; cbn [forEachR]; [done |].
  destruct (body s x) as [s1|e] eqn:Hb; [| done].
  cbn. intros Hrest y [<- | Hy]; [by eauto | by eapply IH].
Qed.

(** An error of the loop is an error of its body. *)
Lemma forEachR_err_body (xs : list X) (s : S) (e : E) :
  forEachR body xs s = Err e ->
  exists s1 x, In x xs /\ body s1 x = Err e.
Proof.
  revert s. induction xs as [|x xs IH]; intros s; cbn [forEachR]; [done |].
  destruct (body s x) as [s1|e'] eqn:Hb; cbn.
  - intros (s2 & y & Hy & Hey)%IH. exists s2, y. split; [by right | done].
  - intros [= ->]. exists s, x. split; [by left | done].
Qed.

(** An element on which the body fails from every state makes the loop
    fail. *)
Lemma forEachR_fails (xs : list X) (s : S) (x : X) :
  In x xs -> (forall s1, isOk (body s1 x) = false) ->
  isOk (forEachR body xs s) = false.
Proof.
  intros Hx Hfail.
  destruct (forEachR body xs s) as [s'|e] eqn:Hloop; [| done].
  destruct (forEachR_ok_each _ _ _ Hloop x Hx) as (s1 & s2 & Hb).
  specialize (Hfail s1). by rewrite Hb in Hfail.
Qed.

End LoopFacts.

Section DiscoveryFacts.

Context (utils : Utils) (info : Info).

Lemma getAttribute_None (pgClass : PgClass) (type : string) :
  getAttribute pgClass type = None
  <-> forall a, In a (getAttributes pgClass) -> attname a <> type.
Proof.
  unfold getAttribute. split.
  - intros H a Ha Heq.
    apply (find_none _ _ H) in Ha. by apply bool_decide_eq_false in Ha.
  - intros H. destruct (find _ _) as [a|] eqn:Hf; [| done].
    apply find_some in Hf as [Ha Heq]. apply bool_decide_eq_true in Heq.
    by destruct (H a Ha).
Qed.

Lemma getAttribute_Some (pgClass : PgClass) (type : string) (a : PgAttribute) :
  getAttribute pgClass type = Some a ->
  In a (getAttributes pgClass) /\ attname a = type.
Proof.
  unfold getAttribute. intros [Ha Heq]%find_some.
  by apply bool_decide_eq_true in Heq.
Qed.

Lemma discriminatorOf_default (params : gmap string string) :
  params !! "type" = None -> discriminatorOf params = "type".
Proof. unfold discriminatorOf. by intros ->. Qed.

Lemma discriminatorOf_given (params : gmap string string) (type : string) :
  params !! "type" = Some type -> discriminatorOf params = type.
Proof. unfold discriminatorOf. by intros ->. Qed.

(** The type-tag loops never raise the discriminator error. *)
Lemma singleTypeTag_error (acc : SingleAcc) (typeTag : string)
    (e : DiscoveryError) :
  singleTypeTag utils acc typeTag = Err e -> e = TypeWithoutName.
Proof.
  unfold singleTypeTag. destruct acc as [types specific].
  destruct (truthy _); [done | by intros [= <-]].
Qed.

Lemma relationalTypeTag_error (serviceName : string) (pgClass : PgClass)
    (types : JsObject.obj PgCodecPolymorphismRelationalTypeSpec)
    (typeTag : string) (e : DiscoveryError) :
  relationalTypeTag utils info serviceName pgClass types typeTag = Err e ->
  forall type nsp rel, e <> NoTypeAttribute type nsp rel.
Proof.
  unfold relationalTypeTag.
  destruct (truthy _) as [references|]; [| by intros [= <-]].
  destruct (parseDatabaseIdentifier _ _ _ _) as [[ns tbl]|]; [| by intros [= <-]].
  destruct (getClassByName _ _ _ _) as [referencedClass|]; [| by intros [= <-]].
  destruct (primaryKeyOf pgClass) as [pk|]; [| by intros [= <-]].
  destruct (primaryKeyOf referencedClass) as [remotePk|]; [| by intros [= <-]].
  destruct (find _ _); [done | by intros [= <-]].
Qed.

Lemma discoverSingle_discriminator (pgClass : PgClass)
    (params : gmap string string) (rawTypeTags : option TagValue) :
  let type := discriminatorOf params in
  (getAttribute pgClass type = None
   <-> discoverSingle utils pgClass params rawTypeTags
       = Err (NoTypeAttribute type (nspname pgClass) (relname pgClass)))
  /\ (forall poly, discoverSingle utils pgClass params rawTypeTags = Ok poly ->
        typeAttributesOf poly = [type]
        /\ exists a, getAttribute pgClass type = Some a).
Proof.
  intros type. unfold discoverSingle, checkDiscriminator. fold type.
  destruct (getAttribute pgClass type) as [a|] eqn:Ha; cbn.
  - destruct (forEachR _ _ _) as [[types specific]|e] eqn:Hloop; cbn.
    + split; [split; done |]. intros poly [= <-]. split; [done | by eauto].
    + split; [| done]. split; [done |]. intros [= ->].
      apply forEachR_err_body in Hloop as (s1 & x & _ & Hb).
      by apply singleTypeTag_error in Hb.
  - split; [done |]. done.
Qed.

Lemma discoverRelational_discriminator (serviceName : string)
    (pgClass : PgClass) (params : gmap string string)
    (rawTypeTags : option TagValue) :
  let type := discriminatorOf params in
  (getAttribute pgClass type = None
   <-> discoverRelational utils info serviceName pgClass params rawTypeTags
       = Err (NoTypeAttribute type (nspname pgClass) (relname pgClass)))
  /\ (forall poly,
        discoverRelational utils info serviceName pgClass params rawTypeTags
        = Ok poly ->
        typeAttributesOf poly = [type]
        /\ exists a, getAttribute pgClass type = Some a).
Proof.
  intros type. unfold discoverRelational, checkDiscriminator. fold type.
  destruct (getAttribute pgClass type) as [a|] eqn:Ha; cbn.
  - destruct (forEachR _ _ _) as [types|e] eqn:Hloop; cbn.
    + split; [split; done |]. intros poly [= <-]. split; [done | by eauto].
    + split; [| done]. split; [done |]. intros [= ->].
      apply forEachR_err_body in Hloop as (s1 & x & _ & Hb).
      by eapply relationalTypeTag_error in Hb.
  - split; [done |]. done.
Qed.

(** What the hook does once the interface tag is a non-empty string. *)
Lemma hook_on_interface_string (event : RecordTypeEvent)
    (tgs : gmap string TagValue) (interfaceTag : string) :
  tagsOfSpec (spec event) = Some tgs ->
  interfaceTagOf tgs (pgClass event) = Some (TagOne (AtomStr interfaceTag)) ->
  interfaceTag <> EmptyString ->
  let params := params (parseSmartTagsOptsString utils interfaceTag 0) in
  pgCodecs_recordType_spec utils info event
  = if decide (params !! "mode" = Some "single") then
      poly ← discoverSingle utils (pgClass event) params (tgs !! "type");
      Ok (Some poly)
    else if decide (params !! "mode" = Some "relational") then
      poly ← discoverRelational utils info (serviceName event) (pgClass event)
               params (tgs !! "type");
      Ok (Some poly)
    else if decide (params !! "mode" = Some "union") then Ok (Some PolyUnion)
    else Err UnsupportedMode.
Proof.
  intros Htags Hif Hne. unfold pgCodecs_recordType_spec.
  rewrite Htags, Hif. by destruct (decide (interfaceTag = EmptyString)).
Qed.


(** *** Single mode: the common attributes *)

Lemma specificAttributes_add (cols : list PgCodecPolymorphismSingleTypeAttributeSpec)
    (specific : gset string) (n : string) :
  n ∈ foldl (fun acc col => {[ attribute col ]} ∪ acc) specific cols
  <-> n ∈ specific \/ n ∈ map attribute cols.
Proof.
  revert specific. induction cols as [|col cols IH]; intros specific.
  - cbn. split; [by left | intros [H | H]; [done | by inversion H]].
  - cbn [foldl map]. rewrite IH, elem_of_union, elem_of_singleton, elem_of_cons.
    tauto.
Qed.

Lemma singleTypeTag_specific (acc acc' : SingleAcc) (typeTag : string) (n : string) :
  singleTypeTag utils acc typeTag = Ok acc' ->
  n ∈ acc'.2 <-> n ∈ acc.2 \/ n ∈ overridesOfTag utils typeTag.
Proof.
  unfold singleTypeTag, overridesOfTag. destruct acc as [types specific].
  destruct (truthy _) as [nm|]; [| done]. intros [= <-]. cbn [snd st_attributes].
  apply specificAttributes_add.
Qed.

Lemma singleLoop_specific (typeTags : list string) (acc acc' : SingleAcc)
    (n : string) :
  forEachR (singleTypeTag utils) typeTags acc = Ok acc' ->
  n ∈ acc'.2 <-> n ∈ acc.2 \/ n ∈ overrideNames utils typeTags.
Proof.
  revert acc. induction typeTags as [|typeTag typeTags IH]; intros acc.
  - cbn. intros [= <-]. split; [by left | intros [H | H]; [done | by inversion H]].
  - cbn [forEachR overrideNames flat_map].
    destruct (singleTypeTag utils acc typeTag) as [acc1|e] eqn:Hb; [| done].
    cbn. intros Hrest. rewrite (IH _ Hrest), (singleTypeTag_specific _ _ _ _ Hb).
    rewrite elem_of_app. unfold overrideNames. tauto.
Qed.

Lemma discoverSingle_common (pgClass : PgClass) (params : gmap string string)
    (rawTypeTags : option TagValue) (common typeAttributes : list string)
    (types : JsObject.obj PgCodecPolymorphismSingleTypeSpec) :
  discoverSingle utils pgClass params rawTypeTags
  = Ok (PolySingle common typeAttributes types) ->
  common = filter (fun n => n ∉ overrideNames utils (typeTagsOf rawTypeTags))
                  (attributeNamesOf pgClass).
Proof.
  unfold discoverSingle.
  destruct (checkDiscriminator _ _) as [attr|e]; [| done]. cbn.
  destruct (forEachR _ _ _) as [[tys specific]|e] eqn:Hloop; [| done]. cbn.
  intros [= <- _ _]. apply list_filter_iff. intros n.
  rewrite (singleLoop_specific _ _ _ n Hloop). cbn [snd].
  rewrite elem_of_empty. tauto.
Qed.

(** A single-mode result of the hook comes from [discoverSingle]. *)
Lemma hook_single_inv (event : RecordTypeEvent) (tgs : gmap string TagValue)
    (common typeAttributes : list string)
    (types : JsObject.obj PgCodecPolymorphismSingleTypeSpec) :
  tagsOfSpec (spec event) = Some tgs ->
  pgCodecs_recordType_spec utils info event
  = Ok (Some (PolySingle common typeAttributes types)) ->
  exists params,
    discoverSingle utils (pgClass event) params (tgs !! "type")
    = Ok (PolySingle common typeAttributes types).
Proof.
  intros Htags. unfold pgCodecs_recordType_spec. rewrite Htags.
  destruct (interfaceTagOf _ _) as [[[|s]|l]|]; try done.
  destruct (decide (s = EmptyString)) as [|_]; [done |].
  set (params := params (parseSmartTagsOptsString utils s 0)).
  destruct (decide (params !! "mode" = Some "single")) as [_|_].
  { destruct (discoverSingle _ _ _ _) as [poly|err] eqn:Hd; [| done].
    cbn. intros [= ->]. by exists params. }
  destruct (decide (params !! "mode" = Some "relational")) as [_|_].
  { unfold discoverRelational.
    destruct (checkDiscriminator _ _); [| done]. cbn.
    destruct (forEachR _ _ _); done. }
  destruct (decide (params !! "mode" = Some "union")); done.
Qed.

(** C2 (as the code has it). For a single-mode root after Discovery,
    [commonAttributes] is the table's attribute names minus every attribute
    named in the override list of any type tag; so it is disjoint from the
    override-named attributes, and its union with them is the table's
    attribute set together with the override-named attributes. That union
    is the table's attribute set exactly when every override names an
    attribute of the table, which Discovery does not check. *)
Theorem single_commonAttributes (event : RecordTypeEvent)
    (tgs : gmap string TagValue) (common typeAttributes : list string)
    (types : JsObject.obj PgCodecPolymorphismSingleTypeSpec) :
  tagsOfSpec (spec event) = Some tgs ->
  pgCodecs_recordType_spec utils info event
  = Ok (Some (PolySingle common typeAttributes types)) ->
  let overrides := overrideNames utils (typeTagsOf (tgs !! "type")) in
  let names := attributeNamesOf (pgClass event) in
  common = filter (fun n => n ∉ overrides) names
  /\ (forall n, n ∈ common -> (n ∉ overrides))
  /\ (forall n, n ∈ common \/ n ∈ overrides <-> n ∈ names \/ n ∈ overrides)
  /\ ((forall n, n ∈ overrides -> n ∈ names)
      <-> (forall n, n ∈ common \/ n ∈ overrides <-> n ∈ names)).
Proof.
  intros Htags Hhook overrides names.
  destruct (hook_single_inv _ _ _ _ _ Htags Hhook) as [params Hd].
  apply discoverSingle_common in Hd. fold overrides names in Hd.
  assert (Hin : forall n, n ∈ common <-> (n ∉ overrides) /\ n ∈ names).
  { intros n. rewrite Hd at 1. by rewrite list_elem_of_filter. }
  split; [exact Hd |]. split; [| split].
  - intros n Hn. by apply Hin in Hn as [? _].
  - intros n. rewrite Hin. destruct (decide (n ∈ overrides)); tauto.
  - split.
    + intros Hsub n. rewrite Hin. specialize (Hsub n).
      destruct (decide (n ∈ overrides)); tauto.
    + intros Hall n Hn. apply Hall. by right.
Qed.

(** *** Relational mode: the key of the subtype must match the root's *)

Lemma linksToRoot_true (pgClass : PgClass) (pk remotePk c : PgConstraint) :
  linksToRoot pgClass pk remotePk c = true
  <-> contype c = "f"
      /\ confrelid c = _id pgClass
      /\ con_getAttributes c = con_getAttributes remotePk
      /\ con_getForeignAttributes c = con_getAttributes pk.
Proof.
  unfold linksToRoot.
  rewrite !andb_true_iff, !bool_decide_eq_true, !arraysMatch_eq. tauto.
Qed.

Lemma relationalTypeTag_accepts (serviceName : string) (pgClass : PgClass)
    (types types' : JsObject.obj PgCodecPolymorphismRelationalTypeSpec)
    (typeTag : string) :
  relationalTypeTag utils info serviceName pgClass types typeTag = Ok types' ->
  exists referencedClass c,
    referencedClassOf utils info serviceName pgClass typeTag
    = Some referencedClass
    /\ KeysMatch pgClass referencedClass c.
Proof.
  unfold relationalTypeTag, referencedClassOf.
  destruct (truthy _) as [references|]; [| done].
  destruct (parseDatabaseIdentifier _ _ _ _) as [[ns tbl]|]; [| done].
  destruct (getClassByName _ _ _ _) as [referencedClass|]; [| done].
  destruct (primaryKeyOf pgClass) as [pk|] eqn:Hpk; [| done].
  destruct (primaryKeyOf referencedClass) as [remotePk|] eqn:Hrpk; [| done].
  destruct (find _ _) as [c|] eqn:Hfind; [| done].
  intros _. exists referencedClass, c. split; [done |].
  apply find_some in Hfind as [Hin Hlinks].
  apply linksToRoot_true in Hlinks as (Hf & Hid & Hloc & Hfor).
  exists pk, remotePk. by repeat split.
Qed.

Lemma relationalTypeTag_rejects (serviceName : string) (pgClass : PgClass)
    (types : JsObject.obj PgCodecPolymorphismRelationalTypeSpec)
    (typeTag : string) (referencedClass : PgClass) :
  referencedClassOf utils info serviceName pgClass typeTag
  = Some referencedClass ->
  (forall c, ~ KeysMatch pgClass referencedClass c) ->
  relationalTypeTag utils info serviceName pgClass types typeTag
  = if bool_decide (primaryKeyOf pgClass = None
                    \/ primaryKeyOf referencedClass = None)
    then Err MissingPrimaryKey
    else Err MissingForeignKeyConstraint.
Proof.
  unfold relationalTypeTag, referencedClassOf.
  destruct (truthy _) as [references|]; [| done].
  destruct (parseDatabaseIdentifier _ _ _ _) as [[ns tbl]|]; [| done].
  intros -> Hnone.
  destruct (primaryKeyOf pgClass) as [pk|] eqn:Hpk;
    [| by rewrite bool_decide_eq_true_2 by (by left)].
  destruct (primaryKeyOf referencedClass) as [remotePk|] eqn:Hrpk;
    [| by rewrite bool_decide_eq_true_2 by (by right)].
  rewrite bool_decide_eq_false_2 by (by intros [|]).
  destruct (find _ _) as [c|] eqn:Hfind; [| done].
  apply find_some in Hfind as [Hin Hlinks].
  apply linksToRoot_true in Hlinks as (Hf & Hid & Hloc & Hfor).
  destruct (Hnone c). exists pk, remotePk. by repeat split.
Qed.

Lemma hook_relational (event : RecordTypeEvent) (tgs : gmap string TagValue)
    (interfaceTag : string) :
  tagsOfSpec (spec event) = Some tgs ->
  interfaceTagOf tgs (pgClass event) = Some (TagOne (AtomStr interfaceTag)) ->
  interfaceTag <> EmptyString ->
  let params := params (parseSmartTagsOptsString utils interfaceTag 0) in
  params !! "mode" = Some "relational" ->
  pgCodecs_recordType_spec utils info event
  = poly ← discoverRelational utils info (serviceName event) (pgClass event)
             params (tgs !! "type");
    Ok (Some poly).
Proof.
  intros Htags Hif Hne params Hmode.
  rewrite (hook_on_interface_string event tgs interfaceTag Htags Hif Hne).
  fold params. rewrite Hmode.
  destruct (decide (Some "relational" = Some "single")) as [|_]; [done |].
  by destruct (decide (Some "relational" = Some "relational")).
Qed.

(** C1. Discovery of a relational-mode root accepts a [@type] tag only if
    the referenced table has a foreign key to the root whose local
    attributes are positionally the referenced table's primary key and whose
    foreign attributes are positionally the root's primary key (both primary
    keys exist). When a type tag refers to a table with no such constraint -
    one of the two tables has no primary key, or no foreign key lists the
    columns in key order - Discovery of the root ends in an error. *)
Theorem relational_type_requires_matching_key (event : RecordTypeEvent)
    (tgs : gmap string TagValue) (interfaceTag : string) :
  tagsOfSpec (spec event) = Some tgs ->
  interfaceTagOf tgs (pgClass event) = Some (TagOne (AtomStr interfaceTag)) ->
  interfaceTag <> EmptyString ->
  params (parseSmartTagsOptsString utils interfaceTag 0) !! "mode"
  = Some "relational" ->
  let referenced :=
    referencedClassOf utils info (serviceName event) (pgClass event) in
  (forall poly,
      pgCodecs_recordType_spec utils info event = Ok poly ->
      forall typeTag, In typeTag (typeTagsOf (tgs !! "type")) ->
      exists referencedClass c,
        referenced typeTag = Some referencedClass
        /\ KeysMatch (pgClass event) referencedClass c)
  /\ (forall typeTag referencedClass,
        In typeTag (typeTagsOf (tgs !! "type")) ->
        referenced typeTag = Some referencedClass ->
        primaryKeyOf (pgClass event) = None
        \/ primaryKeyOf referencedClass = None
        \/ (forall c, ~ KeysMatch (pgClass event) referencedClass c) ->
        exists e, pgCodecs_recordType_spec utils info event = Err e).
Proof.
  intros Htags Hif Hne Hmode referenced.
  rewrite (hook_relational event tgs interfaceTag Htags Hif Hne Hmode).
  set (params := params (parseSmartTagsOptsString utils interfaceTag 0)).
  assert (Haccept : forall poly,
    discoverRelational utils info (serviceName event) (pgClass event) params
                       (tgs !! "type") = Ok poly ->
    forall typeTag, In typeTag (typeTagsOf (tgs !! "type")) ->
    exists referencedClass c,
      referenced typeTag = Some referencedClass
      /\ KeysMatch (pgClass event) referencedClass c).
  { intros poly. unfold discoverRelational.
    destruct (checkDiscriminator _ _) as [attr|err]; [| done]. cbn.
    destruct (forEachR _ _ _) as [types|err] eqn:Hloop; [| done].
    intros _ typeTag Hin.
    destruct (forEachR_ok_each _ _ _ _ Hloop typeTag Hin) as (t1 & t2 & Hb).
    by apply relationalTypeTag_accepts in Hb. }
  split.
  - intros poly.
    destruct (discoverRelational _ _ _ _ _ _) as [p|err] eqn:Hd; [| done].
    intros _. by apply (Haccept p).
  - intros typeTag referencedClass Hin Href Hbad.
    destruct (discoverRelational _ _ _ _ _ _) as [p|err] eqn:Hd;
      [| by exists err].
    destruct (Haccept p eq_refl typeTag Hin) as (rc & c & Hrc & Hm).
    rewrite Href in Hrc. injection Hrc as <-.
    destruct Hm as (pk & remotePk & Hpk & Hrpk & Hrest).
    destruct Hbad as [Hbad | [Hbad | Hbad]].
    + by rewrite Hbad in Hpk.
    + by rewrite Hbad in Hrpk.
    + destruct (Hbad c). by exists pk, remotePk.
Qed.

End DiscoveryFacts.

(** *** Discovery on the example tables *)

Section DiscoveryExamples.

Import Example.

(** The [person] example of the spec. *)
Example person_discovery :
  pgCodecs_recordType_spec utils info personEvent
  = Ok (Some (PolySingle ["id"; "kind"; "name"] ["kind"]
                [ ("employee",
                   {| st_name := "Employee";
                      st_attributes := [ mkAttributeSpec "salary" true None ] |});
                  ("contractor",
                   {| st_name := "Contractor";
                      st_attributes :=
                        [ mkAttributeSpec "hourly_rate" false None ] |}) ])).
Proof. vm_compute. reflexivity. Qed.


Lemma single_commonAttributes_witness :
  exists common typeAttributes types,
    pgCodecs_recordType_spec utils info personEvent
    = Ok (Some (PolySingle common typeAttributes types))
    /\ common = ["id"; "kind"; "name"]
    /\ forall n, n ∈ common ->
         (n ∉ overrideNames utils
                [ "employee name:Employee attributes:salary!";
                  "contractor name:Contractor attributes:hourly_rate" ]).
Proof.
  eexists _, _, _. split; [exact person_discovery |]. split; [reflexivity |].
  exact (proj1 (proj2 (single_commonAttributes utils info personEvent personTags
                         _ _ _ eq_refl person_discovery))).
Defined.

(** C2 as stated fails: the type tag of [item] names [bogus], which is no
    column of the table; Discovery succeeds, and the union of the common
    attributes with the override-named attributes is not the table's
    attribute set. *)
Lemma single_union_counterexample :
  exists common typeAttributes types,
    pgCodecs_recordType_spec utils info itemEvent
    = Ok (Some (PolySingle common typeAttributes types))
    /\ ~ (forall n,
            n ∈ common
            \/ n ∈ overrideNames utils ["a name:A attributes:bogus"]
            <-> n ∈ attributeNamesOf item).
Proof.
  exists ["id"; "type"], ["type"],
         [("a", {| st_name := "A";
                   st_attributes := [mkAttributeSpec "bogus" false None] |})].
  split; [vm_compute; reflexivity |].
  intros H. specialize (H "bogus"). destruct H as [H _].
  assert (Hin : "bogus" ∈ attributeNamesOf item).
  { apply H. right. vm_compute. apply list_elem_of_here. }
  vm_compute in Hin.
  apply elem_of_cons in Hin as [Hin | Hin]; [discriminate Hin |].
  apply elem_of_cons in Hin as [Hin | Hin]; [discriminate Hin |].
  by apply elem_of_nil in Hin.
Qed.

(** The [car] table, whose foreign key lists the key columns in order, is
    accepted. *)
Example car_accepted :
  pgCodecs_recordType_spec utils info (vehicleEvent ["CAR references:car"])
  = Ok (Some (PolyRelational ["type"]
                [ ("CAR", {| rt_name := "car"; rt_references := "car";
                             rt_relationName := "carByTheirmakeAndserial" |}) ])).
Proof. vm_compute. reflexivity. Qed.

(** The [truck] table, whose foreign key lists the same columns in the
    other order, is rejected, and so is a root that declares it. *)
Example truck_rejected :
  pgCodecs_recordType_spec utils info
    (vehicleEvent ["CAR references:car"; "TRUCK references:truck"])
  = Err MissingForeignKeyConstraint.
Proof. vm_compute. reflexivity. Qed.

(** A referenced table without a primary key is rejected. *)
Example trailer_rejected :
  pgCodecs_recordType_spec utils info (vehicleEvent ["T references:trailer"])
  = Err MissingPrimaryKey.
Proof. vm_compute. reflexivity. Qed.

Lemma relational_type_requires_matching_key_witness :
  exists c, KeysMatch vehicle car c.
Proof.
  assert (Hif : interfaceTagOf (vehicleTags ["CAR references:car"])
                  (pgClass (vehicleEvent ["CAR references:car"]))
                = Some (TagOne (AtomStr "mode:relational")))
    by (vm_compute; reflexivity).
  assert (Hne : "mode:relational" <> EmptyString) by discriminate.
  assert (Hmode : params (parseSmartTagsOptsString utils "mode:relational" 0)
                    !! "mode" = Some "relational")
    by (vm_compute; reflexivity).
  destruct (relational_type_requires_matching_key utils info
              (vehicleEvent ["CAR references:car"])
              (vehicleTags ["CAR references:car"])
              "mode:relational" eq_refl Hif Hne Hmode) as [Haccept _].
  destruct (Haccept _ car_accepted "CAR references:car" (or_introl eq_refl))
    as (referencedClass & c & Href & Hmatch).
  vm_compute in Href. injection Href as <-.
  by exists c.
Defined.

End DiscoveryExamples.

(** ** Attribute inheritance *)

Section InheritanceFacts.

Context (utils : Utils) (info : Info).

Lemma copyAttribute_lookup (shared : string)
    (others : gmap string PgCodecAttribute) (k : string)
    (v : PgCodecAttribute) (n : string) :
  copyAttribute shared others (k, v) !! n
  = if decide (k = n)
    then Some (match others !! k with
               | Some existing => setIdenticalVia shared existing
               | None => inheritedAttribute shared v
               end)
    else others !! n.
Proof.
  unfold copyAttribute.
  destruct (others !! k) as [existing|] eqn:Hk;
    (destruct (decide (k = n)) as [<- | Hne];
     [by rewrite lookup_insert_eq | by rewrite lookup_insert_ne]).
Qed.

Lemma copyAttributes_lookup_notin (shared : string)
    (l : list (string * PgCodecAttribute))
    (others : gmap string PgCodecAttribute) (n : string) :
  n ∉ l.*1 -> copyAttributes shared l others !! n = others !! n.
Proof.
  unfold copyAttributes. revert others.
  induction l as [|[k v] l IH]; intros others Hn; [done |].
  cbn [foldl]. rewrite fmap_cons, not_elem_of_cons in Hn. destruct Hn as [Hk Hl].
  rewrite (IH _ Hl), copyAttribute_lookup.
  cbn in Hk. by destruct (decide (k = n)).
Qed.

Lemma copyAttributes_lookup_in (shared : string)
    (l : list (string * PgCodecAttribute))
    (others : gmap string PgCodecAttribute) (n : string)
    (v : PgCodecAttribute) :
  NoDup l.*1 -> (n, v) ∈ l ->
  copyAttributes shared l others !! n
  = Some (match others !! n with
          | Some existing => setIdenticalVia shared existing
          | None => inheritedAttribute shared v
          end).
Proof.
  unfold copyAttributes. revert others.
  induction l as [|[k w] l IH]; intros others Hnd Hin; [by inversion Hin |].
  rewrite fmap_cons in Hnd. apply NoDup_cons in Hnd as [Hk Hnd].
  cbn [fst] in Hk.
  cbn [foldl]. apply elem_of_cons in Hin as [[= -> ->] | Hin].
  - fold (copyAttributes shared l (copyAttribute shared others (k, w))).
    rewrite (copyAttributes_lookup_notin _ _ _ _ Hk), copyAttribute_lookup.
    by destruct (decide (k = k)).
  - assert (Hne : k <> n).
    { intros ->. apply Hk. apply list_elem_of_fmap. by exists (n, v). }
    rewrite (IH _ Hnd Hin), copyAttribute_lookup.
    by destruct (decide (k = n)).
Qed.

(** The inner loop, attribute by attribute. *)
Lemma copyAttributes_from_root (shared : string)
    (rootAttributes others : gmap string PgCodecAttribute) (n : string) :
  copyAttributes shared (map_to_list rootAttributes) others !! n
  = match rootAttributes !! n with
    | Some colSpec =>
        Some (match others !! n with
              | Some existing => setIdenticalVia shared existing
              | None => inheritedAttribute shared colSpec
              end)
    | None => others !! n
    end.
Proof.
  destruct (rootAttributes !! n) as [colSpec|] eqn:Hn.
  - apply copyAttributes_lookup_in; [apply NoDup_fst_map_to_list |].
    by apply elem_of_map_to_list.
  - apply copyAttributes_lookup_notin.
    intros ((k & v) & -> & Hin)%list_elem_of_fmap.
    apply elem_of_map_to_list in Hin. cbn in Hn. congruence.
Qed.

Lemma attributesOf_insert (codecs : Codecs) (o : CodecRef) (other : PgCodec)
    (a : gmap string PgCodecAttribute) (x : CodecRef) :
  attributesOf (<[o := setAttributes other a]> codecs) x
  = if decide (o = x) then Some a else attributesOf codecs x.
Proof.
  unfold attributesOf. destruct (decide (o = x)) as [<- | Hne].
  - by rewrite lookup_insert_eq.
  - by rewrite lookup_insert_ne.
Qed.

(** One iteration of the loop over the declared subtypes: it fails, skips
    the subtype, or rewrites the attributes of the subtype's codec. *)
Lemma inheritSubtype_inv (serviceName resourceSchemaName : string)
    (pgClass : PgClass) (rootCodec : CodecRef) (codecs codecs' : Codecs)
    (spec : PgCodecPolymorphismRelationalTypeSpec) :
  inheritSubtype utils info serviceName resourceSchemaName pgClass rootCodec
                 codecs spec = Ok codecs' ->
  exists pgRelatedClass,
    relatedClassOf utils info serviceName resourceSchemaName spec
    = Some pgRelatedClass
    /\ match getCodecFromClass (helpers info) serviceName
                               (_id pgRelatedClass) with
       | None => codecs' = codecs
       | Some otherCodec =>
           match attributesOf codecs otherCodec with
           | None => codecs' = codecs
           | Some otherAttributes =>
               exists other sharedRelationName rootAttributes,
                 sharedRelationNameOf info serviceName pgClass pgRelatedClass
                 = Ok sharedRelationName
                 /\ attributesOf codecs rootCodec = Some rootAttributes
                 /\ codecs'
                    = <[otherCodec :=
                          setAttributes other
                            (copyAttributes sharedRelationName
                               (map_to_list rootAttributes) otherAttributes)]>
                        codecs
           end
       end.
Proof.
  unfold inheritSubtype, relatedClassOf.
  destruct (parseDatabaseIdentifier _ _ _ _) as [[schemaName tableName]|];
    [| done].
  destruct (getClassByName _ _ _ _) as [pgRelatedClass|]; [| done].
  intros H. exists pgRelatedClass. split; [done |].
  destruct (getCodecFromClass _ _ _) as [otherCodec|]; [| by injection H].
  unfold attributesOf at 1.
  destruct (codecs !! otherCodec) as [other|]; [| by injection H].
  cbn. destruct (attributes other) as [otherAttributes|]; [| by injection H].
  destruct (sharedRelationNameOf _ _ _ _) as [shared|]; [| done].
  cbn in H. destruct (attributesOf codecs rootCodec) as [rootAttributes|];
    [| done].
  injection H as <-. by exists other, shared, rootAttributes.
Qed.

Lemma setIdenticalVia_idempotent (shared : string) (a : PgCodecAttribute) :
  setIdenticalVia shared (setIdenticalVia shared a) = setIdenticalVia shared a.
Proof. reflexivity. Qed.

Section RootRun.

Context (serviceName resourceSchemaName : string) (pgClass : PgClass)
        (rootCodec : CodecRef) (codecs0 : Codecs)
        (rootAttributes : gmap string PgCodecAttribute)
        (classes : list PgClass).

Hypothesis root_has_attributes :
  attributesOf codecs0 rootCodec = Some rootAttributes.
Hypothesis codec_identifies_class :
  CodecIdentifiesClass info serviceName classes.

Local Abbreviation Reached :=
  (InheritanceReached info serviceName pgClass classes rootAttributes codecs0).

Lemma reached_root (codecs : Codecs) :
  Reached codecs ->
  exists current,
    attributesOf codecs rootCodec = Some current
    /\ SameColumns rootAttributes current.
Proof using root_has_attributes.
  intros Hreached. destruct (Hreached rootCodec) as [Hsame | Hinh].
  - exists rootAttributes. rewrite Hsame. split; [done |].
    intros n. destruct (rootAttributes !! n) as [a|]; [| done]. by exists a.
  - destruct Hinh as (C & s & A0 & A & _ & _ & _ & HA0 & HA & Hfrom).
    rewrite root_has_attributes in HA0. injection HA0 as <-.
    exists A. split; [done |]. intros n. specialize (Hfrom n).
    destruct (rootAttributes !! n) as [a|]; [| done].
    destruct Hfrom as (attr & Hattr & ->). by exists (setIdenticalVia s a).
Qed.

Lemma inheritSubtype_step (codecs codecs' : Codecs)
    (spec : PgCodecPolymorphismRelationalTypeSpec) :
  (forall C, relatedClassOf utils info serviceName resourceSchemaName spec
             = Some C -> In C classes) ->
  Reached codecs ->
  inheritSubtype utils info serviceName resourceSchemaName pgClass rootCodec
                 codecs spec = Ok codecs' ->
  Reached codecs'
  /\ (forall x,
        HasInherited info serviceName pgClass classes rootAttributes
                     codecs0 codecs x ->
        HasInherited info serviceName pgClass classes rootAttributes
                     codecs0 codecs' x)
  /\ (forall C o,
        relatedClassOf utils info serviceName resourceSchemaName spec = Some C ->
        getCodecFromClass (helpers info) serviceName (_id C) = Some o ->
        is_Some (attributesOf codecs0 o) ->
        HasInherited info serviceName pgClass classes rootAttributes
                     codecs0 codecs' o).
Proof using root_has_attributes codec_identifies_class.
  intros Hclass Hreached Hstep.
  destruct (inheritSubtype_inv _ _ _ _ _ _ _ Hstep) as (C & HC & Hcase).
  specialize (Hclass C HC).
  assert (Hskip : codecs' = codecs ->
    (forall o, getCodecFromClass (helpers info) serviceName (_id C) = Some o ->
               attributesOf codecs o = None) ->
    Reached codecs'
    /\ (forall x,
          HasInherited info serviceName pgClass classes rootAttributes
                       codecs0 codecs x ->
          HasInherited info serviceName pgClass classes rootAttributes
                       codecs0 codecs' x)
    /\ (forall C' o,
          relatedClassOf utils info serviceName resourceSchemaName spec
          = Some C' ->
          getCodecFromClass (helpers info) serviceName (_id C') = Some o ->
          is_Some (attributesOf codecs0 o) ->
          HasInherited info serviceName pgClass classes rootAttributes
                       codecs0 codecs' o)).
  { intros -> Hnone. split; [done |]. split; [done |].
    intros C' o HC' Ho [A0 HA0]. rewrite HC in HC'. injection HC' as <-.
    specialize (Hnone o Ho). destruct (Hreached o) as [Hsame | Hinh].
    - congruence.
    - destruct Hinh as (? & ? & ? & ? & _ & _ & _ & _ & HA & _). congruence. }
  destruct (getCodecFromClass _ _ _) as [o|] eqn:Ho;
    [| by apply Hskip].
  destruct (attributesOf codecs o) as [O|] eqn:HO;
    [| apply Hskip; [done | by intros ? [= <-]]].
  clear Hskip.
  destruct Hcase as (other & s & R & Hs & HR & ->).
  destruct (reached_root codecs Hreached) as (R' & HR' & Hcols).
  rewrite HR in HR'. injection HR' as <-.
  (* the attributes [o] had at the start, and how [O] relates to them *)
  assert (Hfrom : exists A0,
    attributesOf codecs0 o = Some A0
    /\ (O = A0 \/ InheritsFrom s rootAttributes A0 O)).
  { destruct (Hreached o) as [Hsame | Hinh].
    - exists O. split; [congruence | by left].
    - destruct Hinh as (C' & s' & A0 & A & HC' & Ho' & Hs' & HA0 & HA & Hfrom).
      assert (C' = C) as -> by (by eapply codec_identifies_class).
      rewrite Hs in Hs'. injection Hs' as <-.
      rewrite HO in HA. injection HA as <-.
      exists A0. split; [done |]. by right. }
  destruct Hfrom as (A0 & HA0 & Hfrom).
  assert (Hnew : HasInherited info serviceName pgClass classes rootAttributes
                   codecs0
                   (<[o := setAttributes other
                             (copyAttributes s (map_to_list R) O)]> codecs) o).
  { exists C, s, A0, (copyAttributes s (map_to_list R) O).
    repeat split; try done.
    - rewrite attributesOf_insert. by destruct (decide (o = o)).
    - intros n. rewrite copyAttributes_from_root. specialize (Hcols n).
      destruct (rootAttributes !! n) as [a|] eqn:Ha.
      + destruct Hcols as (cur & -> & Hc & Hnn & Hd & Hra).
        eexists. split; [reflexivity |].
        destruct Hfrom as [-> | Hfrom].
        * destruct (A0 !! n) as [e|]; [done |]. cbn. by repeat split.
        * specialize (Hfrom n). rewrite Ha in Hfrom.
          destruct Hfrom as (attr & -> & Hinh).
          destruct (A0 !! n) as [e|]; cbn in Hinh |- *.
          -- by rewrite Hinh.
          -- destruct Hinh as (? & ? & ? & ? & ?). by repeat split.
      + rewrite Hcols. destruct Hfrom as [-> | Hfrom]; [done |].
        specialize (Hfrom n). by rewrite Ha in Hfrom. }
  split; [| split].
  - intros x. destruct (decide (o = x)) as [<- | Hne]; [by right |].
    destruct (Hreached x) as [Hsame | Hinh].
    + left. rewrite attributesOf_insert. by destruct (decide (o = x)).
    + right. destruct Hinh as (C' & s' & A0' & A' & ? & ? & ? & ? & HA' & ?).
      exists C', s', A0', A'. repeat split; try done.
      rewrite attributesOf_insert. by destruct (decide (o = x)).
  - intros x Hinh. destruct (decide (o = x)) as [<- | Hne]; [done |].
    destruct Hinh as (C' & s' & A0' & A' & ? & ? & ? & ? & HA' & ?).
    exists C', s', A0', A'. repeat split; try done.
    rewrite attributesOf_insert. by destruct (decide (o = x)).
  - intros C' o' HC' Ho' _. rewrite HC in HC'. injection HC' as <-.
    rewrite Ho in Ho'. by injection Ho' as <-.
Qed.

Lemma inheritLoop (specs : list PgCodecPolymorphismRelationalTypeSpec)
    (codecs codecs' : Codecs) :
  (forall spec C, In spec specs ->
     relatedClassOf utils info serviceName resourceSchemaName spec = Some C ->
     In C classes) ->
  Reached codecs ->
  forEachR (inheritSubtype utils info serviceName resourceSchemaName pgClass
                           rootCodec) specs codecs = Ok codecs' ->
  Reached codecs'
  /\ (forall x,
        HasInherited info serviceName pgClass classes rootAttributes
                     codecs0 codecs x ->
        HasInherited info serviceName pgClass classes rootAttributes
                     codecs0 codecs' x)
  /\ (forall spec C o,
        In spec specs ->
        relatedClassOf utils info serviceName resourceSchemaName spec = Some C ->
        getCodecFromClass (helpers info) serviceName (_id C) = Some o ->
        is_Some (attributesOf codecs0 o) ->
        HasInherited info serviceName pgClass classes rootAttributes
                     codecs0 codecs' o).
Proof using root_has_attributes codec_identifies_class.
  revert codecs. induction specs as [|spec specs IH]; intros codecs Hcls Hreached.
  - cbn. intros [= <-]. split; [done |]. split; [done |]. by intros ? ? ? [].
  - cbn [forEachR].
    destruct (inheritSubtype _ _ _ _ _ _ codecs spec) as [codecs1|e] eqn:Hstep;
      [| done].
    cbn. intros Hrest.
    destruct (inheritSubtype_step codecs codecs1 spec) as (Hr1 & Hmono1 & Hnew1);
      [by intros C; apply Hcls; left | done | done |].
    destruct (IH codecs1) as (Hr & Hmono & Hnew);
      [by intros s C ?; apply Hcls; right | done | done |].
    split; [done |]. split; [by intros x ?; apply Hmono, Hmono1 |].
    intros s C o [<- | Hin] HC Ho HA0.
    + by apply Hmono, (Hnew1 C o).
    + by apply (Hnew s C o).
Qed.

End RootRun.

Lemma sameColumns_dom (initial current : gmap string PgCodecAttribute) :
  SameColumns initial current -> dom current = dom initial.
Proof.
  intros H. apply set_eq. intros n. rewrite !elem_of_dom. specialize (H n).
  destruct (initial !! n) as [a|].
  - destruct H as (attr & -> & _). split; by eauto.
  - rewrite H. done.
Qed.

Lemma inheritsFrom_marks (shared : string)
    (rootAttributes others new : gmap string PgCodecAttribute)
    (colName : string) (attr : PgCodecAttribute) :
  InheritsFrom shared rootAttributes others new ->
  colName ∈ dom rootAttributes ->
  new !! colName = Some attr ->
  identicalVia attr = Some shared \/ via attr = Some shared.
Proof.
  intros Hfrom [a Ha]%elem_of_dom Hattr. specialize (Hfrom colName).
  rewrite Ha in Hfrom. destruct Hfrom as (attr' & Hattr' & Hinh).
  rewrite Hattr in Hattr'. injection Hattr' as <-.
  destruct (others !! colName) as [e|]; cbn in Hinh.
  - left. by rewrite Hinh.
  - right. by destruct Hinh.
Qed.

Lemma inheritsFrom_dom (shared : string)
    (rootAttributes others new : gmap string PgCodecAttribute) :
  InheritsFrom shared rootAttributes others new ->
  dom rootAttributes ⊆ dom new.
Proof.
  intros Hfrom n [a Ha]%elem_of_dom. specialize (Hfrom n).
  rewrite Ha in Hfrom. destruct Hfrom as (attr & Hattr & _).
  apply elem_of_dom. by eauto.
Qed.

Lemma relatedClasses_In (serviceName resourceSchemaName : string)
    (specs : list PgCodecPolymorphismRelationalTypeSpec)
    (spec : PgCodecPolymorphismRelationalTypeSpec) (C : PgClass) :
  In spec specs ->
  relatedClassOf utils info serviceName resourceSchemaName spec = Some C ->
  In C (relatedClasses utils info serviceName resourceSchemaName specs).
Proof.
  intros Hin HC. apply list_elem_of_In. unfold relatedClasses.
  apply list_elem_of_omap. exists spec. split; [by apply list_elem_of_In | done].
Qed.

(** The run of the finalize hook for one relational root is the loop over
    its declared subtypes. *)
Lemma inheritRoot_relational (codecs : Codecs) (resource : PgResourceOptions)
    (ext : PgExtension) (pgClass : PgClass) (typeAttributes : list string)
    (types : JsObject.obj PgCodecPolymorphismRelationalTypeSpec) :
  ro_parameters resource = false ->
  is_Some (attributesOf codecs (ro_codec resource)) ->
  pgOf (ro_extensions resource) = Some ext ->
  getClassByName (helpers info) (pg_serviceName ext) (schemaName ext)
                 (pg_name ext) = Some pgClass ->
  polymorphismOf codecs (ro_codec resource)
  = Some (PolyRelational typeAttributes types) ->
  inheritRoot utils info codecs resource
  = forEachR (inheritSubtype utils info (pg_serviceName ext) (schemaName ext)
                             pgClass (ro_codec resource))
             (JsObject.values types) codecs.
Proof.
  intros Hpar [a Ha] Hext Hcls Hpoly. unfold inheritRoot.
  rewrite Hpar, Ha, Hext, Hcls, Hpoly. cbn [orb].
  by rewrite bool_decide_eq_false_2.
Qed.


End InheritanceFacts.

(** ** Reference synthesis *)

Section SynthesisFacts.

Context (utils : Utils) (info : Info).

Lemma refAt_write (codecs : Codecs) (o : CodecRef) (c : PgCodec)
    (relationName : string) (ref : PgCodecRef) (x : CodecRef) (k : string) :
  codecs !! o = Some c ->
  refAt (<[o := writeRef relationName ref c]> codecs) x k
  = if decide (o = x /\ relationName = k) then Some ref else refAt codecs x k.
Proof.
  intros Hc. unfold refAt. destruct (decide (o = x)) as [<- | Hne].
  - rewrite lookup_insert_eq, Hc. cbn [writeRef setRefs refs].
    destruct (decide (relationName = k)) as [<- | Hk].
    + rewrite lookup_insert_eq. by destruct (decide (o = o /\ relationName = relationName)) as [|[]].
    + rewrite lookup_insert_ne by done.
      destruct (decide (o = o /\ relationName = k)) as [[_ ?]|_]; [done |].
      by destruct (refs c).
  - rewrite lookup_insert_ne by done.
    by destruct (decide (o = x /\ relationName = k)) as [[? _]|_].
Qed.

(** The loop over the root's relations writes exactly their refs on the
    codec of the subtype's resource options. *)
Lemma installRefs_effect (resource : PgResource) (shared : string)
    (options : PgResourceOptions) (l : list (string * PgCodecRelation))
    (codecs codecs' : Codecs) :
  NoDup l.*1 ->
  forEachR (installRef info resource shared (Some options)) l codecs
  = Ok codecs' ->
  forall x k,
    refAt codecs' x k
    = match (if decide (ro_codec options = x)
             then (list_to_map l : gmap string PgCodecRelation) !! k
             else None) with
      | Some relationSpec =>
          Some (synthesizedRef info resource shared k relationSpec)
      | None => refAt codecs x k
      end.
Proof.
  revert codecs. induction l as [|[name1 rel1] l IH]; intros codecs Hnd.
  - cbn. intros [= <-] x k. by destruct (decide _).
  - rewrite fmap_cons in Hnd. apply NoDup_cons in Hnd as [Hfresh Hnd].
    cbn [fst] in Hfresh. cbn [forEachR].
    destruct (installRef info resource shared (Some options) codecs
                         (name1, rel1)) as [codecs1|e] eqn:Hstep; [| done].
    unfold installRef in Hstep.
    destruct (codecs !! ro_codec options) as [c|] eqn:Hc; [| done].
    injection Hstep as <-.
    cbn. intros Hrest x k. rewrite (IH _ Hnd Hrest x k).
    rewrite (refAt_write _ _ _ _ _ _ _ Hc). cbn [list_to_map].
    destruct (decide (ro_codec options = x)) as [<- | Hne].
    + destruct (decide (name1 = k)) as [<- | Hk].
      * rewrite lookup_insert_eq.
        rewrite (not_elem_of_list_to_map_1 _ _ Hfresh).
        by destruct (decide (ro_codec options = ro_codec options /\ name1 = name1))
          as [|[]].
      * rewrite lookup_insert_ne by done.
        destruct (decide (ro_codec options = ro_codec options /\ name1 = k))
          as [[_ ?]|_]; done.
    + destruct (decide (ro_codec options = x /\ name1 = k)) as [[? _]|_]; done.
Qed.

Lemma installRefs_none (resource : PgResource) (shared : string)
    (l : list (string * PgCodecRelation)) (codecs codecs' : Codecs) :
  forEachR (installRef info resource shared None) l codecs = Ok codecs' ->
  l = [] /\ codecs' = codecs.
Proof.
  destruct l as [|[name1 rel1] l]; cbn; [by intros [= <-] | done].
Qed.

(** One iteration of the loop over the declared subtypes of the registry
    hook: the refs it leaves, in terms of the refs it found. *)
Lemma synthesizeSubtype_effect (serviceName resourceSchemaName : string)
    (pgClass : PgClass) (resource : PgResource)
    (relations : gmap string PgCodecRelation) (codecs codecs' : Codecs)
    (spec : PgCodecPolymorphismRelationalTypeSpec) :
  synthesizeSubtype utils info serviceName resourceSchemaName pgClass resource
                    (Some relations) codecs spec = Ok codecs' ->
  exists pgRelatedClass,
    relatedClassOf utils info serviceName resourceSchemaName spec
    = Some pgRelatedClass
    /\ match getCodecFromClass (helpers info) serviceName
                               (_id pgRelatedClass) with
       | None => codecs' = codecs
       | Some _ =>
           exists shared,
             sharedRelationNameOf info serviceName pgClass pgRelatedClass
             = Ok shared
             /\ forall x k,
                  refAt codecs' x k
                  = match (if decide (resourceCodecOf info serviceName
                                        pgRelatedClass = Some x)
                           then relations !! k else None) with
                    | Some relationSpec =>
                        Some (synthesizedRef info resource shared k
                                             relationSpec)
                    | None => refAt codecs x k
                    end
       end.
Proof.
  unfold synthesizeSubtype, relatedClassOf.
  destruct (parseDatabaseIdentifier _ _ _ _) as [[schemaName tableName]|];
    [| done].
  destruct (getClassByName _ _ _ _) as [pgRelatedClass|]; [| done].
  intros H. exists pgRelatedClass. split; [done |].
  destruct (getCodecFromClass _ _ _) as [otherCodec|]; [| by injection H].
  destruct (sharedRelationNameOf _ _ _ _) as [shared|]; [| done].
  cbn in H. exists shared. split; [done |]. intros x k.
  unfold resourceCodecOf.
  destruct (getResourceOptions _ _ _) as [options|].
  - rewrite (installRefs_effect _ _ _ _ _ _ (NoDup_fst_map_to_list _) H x k).
    rewrite list_to_map_to_list. cbn [fmap option_fmap option_map].
    destruct (decide (ro_codec options = x)) as [<- | Hne].
    + by destruct (decide (Some (ro_codec options) = Some (ro_codec options))).
    + by destruct (decide (Some (ro_codec options) = Some x)) as [[= ?]|].
  - apply installRefs_none in H as [_ ->]. cbn.
    by destruct (decide (None = Some x)).
Qed.

Section RootSynthesis.

Context (serviceName resourceSchemaName : string) (pgClass : PgClass)
        (resource : PgResource) (relations : gmap string PgCodecRelation)
        (classes : list PgClass).

Hypothesis codec_identifies_class :
  ResourceCodecIdentifiesClass info serviceName classes.

Lemma synthesizeLoop (specs : list PgCodecPolymorphismRelationalTypeSpec)
    (codecs codecs' : Codecs) :
  (forall spec C, In spec specs ->
     relatedClassOf utils info serviceName resourceSchemaName spec = Some C ->
     In C classes) ->
  forEachR (synthesizeSubtype utils info serviceName resourceSchemaName pgClass
                              resource (Some relations)) specs codecs
  = Ok codecs' ->
  (forall x C0 shared0,
      In C0 classes ->
      resourceCodecOf info serviceName C0 = Some x ->
      sharedRelationNameOf info serviceName pgClass C0 = Ok shared0 ->
      CarriesRefs info resource relations shared0 codecs x ->
      CarriesRefs info resource relations shared0 codecs' x)
  /\ (forall spec C x,
        In spec specs ->
        relatedClassOf utils info serviceName resourceSchemaName spec = Some C ->
        is_Some (getCodecFromClass (helpers info) serviceName (_id C)) ->
        resourceCodecOf info serviceName C = Some x ->
        exists shared,
          sharedRelationNameOf info serviceName pgClass C = Ok shared
          /\ CarriesRefs info resource relations shared codecs' x)
  /\ (forall x k, relations !! k = None -> refAt codecs' x k = refAt codecs x k).
Proof using codec_identifies_class.
  revert codecs. induction specs as [|spec specs IH]; intros codecs Hcls.
  - cbn. intros [= <-]. split; [done |]. split; [| done]. by intros ? ? ? [].
  - cbn [forEachR].
    destruct (synthesizeSubtype _ _ _ _ _ _ _ codecs spec) as [codecs1|e]
      eqn:Hstep; [| done].
    cbn. intros Hrest.
    destruct (IH codecs1) as (Hkeep & Hnew & Hother);
      [by intros s C ?; apply Hcls; right | done |].
    destruct (synthesizeSubtype_effect _ _ _ _ _ _ _ _ Hstep)
      as (C & HC & Hcase).
    assert (HCin : In C classes) by (by eapply Hcls; [left |]).
    split; [| split].
    + intros x C0 shared0 HC0 Hx Hs0 Hcarries.
      apply (Hkeep x C0 shared0 HC0 Hx Hs0).
      destruct (getCodecFromClass _ _ _) as [o|]; [| by subst].
      destruct Hcase as (shared & Hs & Heff).
      intros k rel Hk. rewrite Heff.
      destruct (decide (resourceCodecOf info serviceName C = Some x))
        as [HCx | _]; [| by apply Hcarries].
      rewrite Hk.
      assert (C0 = C) as -> by (by eapply codec_identifies_class).
      congruence.
    + intros s C' x [<- | Hin] HC' Hsome Hx; [| by eapply Hnew].
      rewrite HC in HC'. injection HC' as <-.
      destruct (getCodecFromClass _ _ _) as [o|]; [| by destruct Hsome].
      destruct Hcase as (shared & Hs & Heff).
      exists shared. split; [done |].
      apply (Hkeep x C shared HCin Hx Hs).
      intros k rel Hk. rewrite Heff.
      destruct (decide (resourceCodecOf info serviceName C = Some x));
        [by rewrite Hk | done].
    + intros x k Hk. rewrite (Hother x k Hk).
      destruct (getCodecFromClass _ _ _) as [o|]; [| by subst].
      destruct Hcase as (shared & Hs & Heff). rewrite Heff.
      destruct (decide (resourceCodecOf info serviceName C = Some x));
        [by rewrite Hk | done].
Qed.

End RootSynthesis.

Lemma synthesizeRoot_relational (registry : PgRegistry) (codecs : Codecs)
    (resource : PgResource) (ext : PgExtension) (pgClass : PgClass)
    (typeAttributes : list string)
    (types : JsObject.obj PgCodecPolymorphismRelationalTypeSpec) :
  res_parameters resource = false ->
  is_Some (attributes (res_codec resource)) ->
  pgOf (res_extensions resource) = Some ext ->
  getClassByName (helpers info) (pg_serviceName ext) (schemaName ext)
                 (pg_name ext) = Some pgClass ->
  polymorphism (res_codec resource)
  = Some (PolyRelational typeAttributes types) ->
  synthesizeRoot utils info registry codecs resource
  = forEachR (synthesizeSubtype utils info (pg_serviceName ext)
                (schemaName ext) pgClass resource
                (pgRelations registry !! name (res_codec resource)))
             (JsObject.values types) codecs.
Proof.
  intros Hpar [a Ha] Hext Hcls Hpoly. unfold synthesizeRoot.
  rewrite Hpar, Ha, Hext, Hcls, Hpoly. cbn [orb].
  by rewrite bool_decide_eq_false_2.
Qed.

Lemma getBehavior_union (e1 e2 e3 : option Extensions) (flag : string) :
  flag ∈ getBehavior [e1; e2; e3]
  <-> flag ∈ behaviorFlags e1 \/ flag ∈ behaviorFlags e2
      \/ flag ∈ behaviorFlags e3.
Proof.
  unfold getBehavior. cbn [map concat].
  rewrite app_nil_r, !elem_of_app. tauto.
Qed.

(** C4. For a relational-mode root, reference synthesis leaves on the codec
    of each declared subtype's resource, for every relation of the root, a
    ref under that relation's name whose single path has exactly two hops -
    the shared relation (subtype to root), then the relation itself - and
    whose behavior flags are those of the target resource's codec, of the
    target resource and of the relation together. The ref is written
    whatever ref of that name was there before; refs under other names are
    kept. *)
Theorem subtypes_receive_two_hop_refs
    (registry : PgRegistry) (codecs codecs' : Codecs) (resource : PgResource)
    (ext : PgExtension) (pgClass : PgClass) (typeAttributes : list string)
    (types : JsObject.obj PgCodecPolymorphismRelationalTypeSpec)
    (relations : gmap string PgCodecRelation) :
  let serviceName := pg_serviceName ext in
  let resourceSchemaName := schemaName ext in
  res_parameters resource = false ->
  is_Some (attributes (res_codec resource)) ->
  pgOf (res_extensions resource) = Some ext ->
  getClassByName (helpers info) serviceName resourceSchemaName (pg_name ext)
  = Some pgClass ->
  polymorphism (res_codec resource)
  = Some (PolyRelational typeAttributes types) ->
  pgRelations registry !! name (res_codec resource) = Some relations ->
  ResourceCodecIdentifiesClass info serviceName
    (relatedClasses utils info serviceName resourceSchemaName
                    (JsObject.values types)) ->
  synthesizeRoot utils info registry codecs resource = Ok codecs' ->
  forall spec pgRelatedClass subtypeCodec,
    In spec (JsObject.values types) ->
    relatedClassOf utils info serviceName resourceSchemaName spec
    = Some pgRelatedClass ->
    is_Some (getCodecFromClass (helpers info) serviceName (_id pgRelatedClass)) ->
    resourceCodecOf info serviceName pgRelatedClass = Some subtypeCodec ->
    exists sharedRelationName,
      sharedRelationNameOf info serviceName pgClass pgRelatedClass
      = Ok sharedRelationName
      /\ (forall relationName relationSpec,
            relations !! relationName = Some relationSpec ->
            exists ref,
              refAt codecs' subtypeCodec relationName = Some ref
              /\ paths ref
                 = [ [ {| pe_relationName := sharedRelationName |};
                       {| pe_relationName := relationName |} ] ]
              /\ (forall flag,
                    flag ∈ ref_behavior (definition ref)
                    <-> flag ∈ behaviorFlags
                                 (extensions
                                    (res_codec (remoteResource relationSpec)))
                        \/ flag ∈ behaviorFlags
                                    (res_extensions (remoteResource relationSpec))
                        \/ flag ∈ behaviorFlags (rel_extensions relationSpec))
              /\ singular (definition ref) = isUnique relationSpec)
      /\ (forall refName,
            relations !! refName = None ->
            refAt codecs' subtypeCodec refName
            = refAt codecs subtypeCodec refName).
Proof.
  intros serviceName resourceSchemaName Hpar Hattrs Hext Hcls Hpoly Hrels
         Hident Hrun spec C x Hin HC Hsome Hx.
  rewrite (synthesizeRoot_relational registry codecs resource ext pgClass
             typeAttributes types Hpar Hattrs Hext Hcls Hpoly), Hrels in Hrun.
  destruct (synthesizeLoop serviceName resourceSchemaName pgClass resource
              relations _ Hident (JsObject.values types) codecs codecs')
    as (_ & Hnew & Hother).
  - intros s C' Hs HC'. by eapply relatedClasses_In.
  - exact Hrun.
  - destruct (Hnew spec C x Hin HC Hsome Hx) as (shared & Hs & Hcarries).
    exists shared. split; [done |]. split; [| by intros k Hk; apply Hother].
    intros k rel Hk. eexists. split; [by apply Hcarries |].
    split; [done |]. split; [| done].
    intros flag. apply getBehavior_union.
Qed.

End SynthesisFacts.

(** *** The registry hooks on the [vehicle] hierarchy *)

Section RegistryExamples.

Import Example.

Lemma vehicle_related_classes :
  relatedClasses utils info "main" "app" (JsObject.values vehicleTypes) = [car].
Proof. reflexivity. Qed.

Lemma single_class_identified (P : PgClass -> option CodecRef) (c : PgClass) :
  forall c1 c2 codec,
    In c1 [c] -> In c2 [c] -> P c1 = Some codec -> P c2 = Some codec -> c1 = c2.
Proof. intros c1 c2 codec [<- | []] [<- | []] _ _. reflexivity. Qed.

(** After the finalize hook, [car] has the root's [type] through the shared
    relation and its own [make] marked identical through it. *)
Example car_inherits :
  (codecs' ← pgRegistry_PgRegistryBuilder_finalize utils info
               [("vehicle", vehicleOptions)] registryCodecs;
   Ok (attributeAt codecs' "car" "type", attributeAt codecs' "car" "make",
       attributeAt codecs' "car" "doors"))
  = Ok (Some {| codec := "text"; notNull := Some true; hasDefault := None;
                via := Some "vehicleByMymakeAndserial"; identicalVia := None;
                restrictedAccess := None; description := None;
                attr_extensions := Some ∅ |},
        Some {| codec := "text"; notNull := Some true; hasDefault := None;
                via := None;
                identicalVia := Some "vehicleByMymakeAndserial";
                restrictedAccess := None; description := None;
                attr_extensions := None |},
        Some (plainAttribute "int4")).
Proof. vm_compute. reflexivity. Qed.


(** After the registry hook, [car] has a two-hop ref for the root's
    relation to [person], in place of the stale one, with the flags of the
    [person] codec, the [person] resource and the relation; the ref under a
    name that is no relation of the root is still there. *)
Example car_refs :
  (codecs' ← pgRegistry_PgRegistry utils info registry registryCodecs;
   Ok (refAt codecs' "car" "personByMyownerId", refAt codecs' "car" "wheels"))
  = Ok (Some {| definition :=
                  {| singular := true;
                     singleRecordFieldName := "personByMyownerId";
                     listFieldName := "personByMyownerIdList";
                     connectionFieldName := "personByMyownerIdConnection";
                     ref_behavior := ["select"; "-insert"; "-list"] |};
                paths := [ [ {| pe_relationName := "vehicleByMymakeAndserial" |};
                             {| pe_relationName := "personByMyownerId" |} ] ] |},
        Some staleRef).
Proof. vm_compute. reflexivity. Qed.

Lemma subtypes_receive_two_hop_refs_witness :
  exists codecs' ref,
    synthesizeRoot utils info registry registryCodecs vehicleResource
    = Ok codecs'
    /\ refAt codecs' "car" "personByMyownerId" = Some ref
    /\ paths ref = [ [ {| pe_relationName := "vehicleByMymakeAndserial" |};
                       {| pe_relationName := "personByMyownerId" |} ] ].
Proof.
  destruct (synthesizeRoot utils info registry registryCodecs vehicleResource)
    as [codecs'|e] eqn:Hrun; [| by vm_compute in Hrun].
  assert (Hrels : pgRelations registry !! name (res_codec vehicleResource)
                  = Some vehicleRelations) by reflexivity.
  destruct (subtypes_receive_two_hop_refs utils info
              registry registryCodecs codecs' vehicleResource vehicleExt
              vehicle ["type"] vehicleTypes vehicleRelations
              eq_refl (mk_is_Some _ _ eq_refl) eq_refl eq_refl eq_refl Hrels
              (single_class_identified _ car) Hrun
              carSpec car "car"
              (or_introl eq_refl) eq_refl (mk_is_Some _ _ eq_refl) eq_refl)
    as (shared & Hshared & Hrefs & _).
  destruct (Hrefs "personByMyownerId" ownerRelation eq_refl)
    as (ref & Href & Hpaths & _).
  exists codecs', ref. split; [done |]. split; [done |].
  rewrite Hpaths. vm_compute in Hshared. by injection Hshared as <-.
Defined.

End RegistryExamples.

(** ** JavaScript objects *)

Section JsObjectFacts.

Context {V : Type}.

Lemma get_set (k k' : string) (v : V) (o : JsObject.obj V) :
  JsObject.get k' (JsObject.set k v o)
  = if decide (k = k') then Some v else JsObject.get k' o.
Proof.
  induction o as [|[k0 v0] o IH]; cbn.
  - by destruct (decide (k = k')).
  - destruct (decide (k0 = k)) as [-> | Hne]; cbn.
    + by destruct (decide (k = k')).
    + rewrite IH. destruct (decide (k0 = k')) as [-> | ?]; [| done].
      by destruct (decide (k = k')).
Qed.

Lemma keys_set (k : string) (v : V) (o : JsObject.obj V) :
  JsObject.keys (JsObject.set k v o)
  = if decide (k ∈ JsObject.keys o) then JsObject.keys o
    else JsObject.keys o ++ [k].
Proof.
  unfold JsObject.keys. induction o as [|[k0 v0] o IH]; cbn.
  - destruct (decide (k ∈ [])) as [H|]; [by inversion H | done].
  - destruct (decide (k0 = k)) as [-> | Hne]; cbn.
    + destruct (decide (k ∈ k :: map fst o)) as [|Hn]; [done |].
      destruct Hn. apply list_elem_of_here.
    + rewrite IH. destruct (decide (k ∈ map fst o)) as [Hin | Hnin].
      * destruct (decide (k ∈ k0 :: map fst o)) as [|Hn]; [done |].
        destruct Hn. by apply list_elem_of_further.
      * destruct (decide (k ∈ k0 :: map fst o)) as [Hin |]; [| done].
        apply elem_of_cons in Hin as [-> | Hin]; done.
Qed.

Lemma get_Some_keys (k : string) (v : V) (o : JsObject.obj V) :
  JsObject.get k o = Some v -> k ∈ JsObject.keys o.
Proof.
  unfold JsObject.keys. induction o as [|[k0 v0] o IH]; cbn; [done |].
  destruct (decide (k0 = k)) as [-> | Hne].
  - intros _. apply list_elem_of_here.
  - intros H. apply list_elem_of_further. by apply IH.
Qed.

Lemma get_None_keys (k : string) (o : JsObject.obj V) :
  JsObject.get k o = None <-> k ∉ JsObject.keys o.
Proof.
  unfold JsObject.keys. induction o as [|[k0 v0] o IH]; cbn.
  - split; [intros _ H; by inversion H | done].
  - rewrite not_elem_of_cons. destruct (decide (k0 = k)) as [-> | Hne].
    + split; [done | by intros [? _]].
    + rewrite IH. split; [by intros; split | by intros [_ ?]].
Qed.

Lemma NoDup_keys_set (k : string) (v : V) (o : JsObject.obj V) :
  NoDup (JsObject.keys o) -> NoDup (JsObject.keys (JsObject.set k v o)).
Proof.
  intros Hnd. rewrite keys_set.
  destruct (decide (k ∈ JsObject.keys o)); [done |].
  apply NoDup_app. split; [done |]. split; [| apply NoDup_singleton].
  intros x Hx ->%list_elem_of_singleton. done.
Qed.

(** With distinct keys, the entries are the lookups. *)
Lemma entries_get (k : string) (v : V) (o : JsObject.obj V) :
  NoDup (JsObject.keys o) ->
  (k, v) ∈ JsObject.entries o <-> JsObject.get k o = Some v.
Proof.
  unfold JsObject.keys, JsObject.entries.
  induction o as [|[k0 v0] o IH]; cbn.
  - intros _. split; [by intros H; inversion H | done].
  - intros [Hfresh Hnd]%NoDup_cons. rewrite elem_of_cons.
    destruct (decide (k0 = k)) as [-> | Hne].
    + split.
      * intros [[= ->] | Hin]; [done |].
        destruct Hfresh. apply list_elem_of_fmap. by exists (k, v).
      * intros [= ->]. by left.
    + rewrite <- (IH Hnd). split; [| by right]. by intros [[= ? ?] | ?].
Qed.

End JsObjectFacts.

(** ** Unions *)

Section UnionFacts.

Lemma registerMembership_members (unionName : string) (codec : PgCodec)
    (membership : string) (unions : UnionsToRegister) :
  membersOf unionName (registerMembership codec membership unions)
  = if decide (Js.trim membership = unionName)
    then membersOf unionName unions ++ [codec]
    else membersOf unionName unions.
Proof.
  unfold membersOf, registerMembership.
  destruct (JsObject.get (Js.trim membership) unions) as [list|] eqn:Hget;
    rewrite get_set;
    (destruct (decide (Js.trim membership = unionName)) as [<- | _];
     [by rewrite Hget | done]).
Qed.

Lemma registerMembership_keys (codec : PgCodec) (membership : string)
    (unions : UnionsToRegister) :
  JsObject.keys (registerMembership codec membership unions)
  = if decide (Js.trim membership ∈ JsObject.keys unions)
    then JsObject.keys unions
    else JsObject.keys unions ++ [Js.trim membership].
Proof.
  unfold registerMembership.
  by destruct (JsObject.get _ _); rewrite keys_set.
Qed.

Lemma wellKept_empty : WellKept JsObject.empty.
Proof.
  split; [apply NoDup_nil_2 |]. intros u. split; [by intros H; inversion H | done].
Qed.

Lemma registerMembership_wellKept (codec : PgCodec) (membership : string)
    (unions : UnionsToRegister) :
  WellKept unions -> WellKept (registerMembership codec membership unions).
Proof.
  intros [Hnd Hkeys]. split.
  - rewrite registerMembership_keys.
    destruct (decide (Js.trim membership ∈ JsObject.keys unions)); [done |].
    apply NoDup_app. split; [done |]. split; [| apply NoDup_singleton].
    by intros x Hx ->%list_elem_of_singleton.
  - intros u. rewrite registerMembership_members, registerMembership_keys.
    destruct (decide (Js.trim membership = u)) as [<- | Hne].
    + split; [by intros _; destruct (membersOf _ _) |].
      intros _. destruct (decide (_ ∈ _)); [done |].
      apply elem_of_app. right. apply list_elem_of_here.
    + rewrite <- Hkeys. destruct (decide (_ ∈ _)); [done |].
      rewrite elem_of_app, list_elem_of_singleton. split; [| by left].
      by intros [? | ?].
Qed.

Lemma registerMemberships_members (unionName : string) (codec : PgCodec)
    (memberships : list TagAtom) (unions : UnionsToRegister) :
  membersOf unionName (registerMemberships codec memberships unions)
  = membersOf unionName unions
    ++ map (fun _ => codec)
           (filter (fun n => n = unionName) (registeredNames memberships)).
Proof.
  revert unions. induction memberships as [|[|m] rest IH]; intros unions.
  - cbn. by rewrite app_nil_r.
  - cbn. by rewrite app_nil_r.
  - cbn [registerMemberships registeredNames]. rewrite IH.
    rewrite registerMembership_members, filter_cons.
    destruct (decide (Js.trim m = unionName)); [| done].
    cbn [map]. by rewrite <- app_assoc.
Qed.

Lemma registerMemberships_wellKept (codec : PgCodec)
    (memberships : list TagAtom) (unions : UnionsToRegister) :
  WellKept unions -> WellKept (registerMemberships codec memberships unions).
Proof.
  revert unions. induction memberships as [|[|m] rest IH]; intros unions H;
    cbn [registerMemberships]; [done | done |].
  by apply IH, registerMembership_wellKept.
Qed.

Lemma unionCalls_app (calls1 calls2 : list BuildCall) :
  unionCalls (calls1 ++ calls2) = unionCalls calls1 ++ unionCalls calls2.
Proof. unfold unionCalls. apply omap_app. Qed.

Lemma objectTypes_no_union (f : string * PgCodecPolymorphismSingleTypeSpec
                                 -> list BuildCall)
    (types : list (string * PgCodecPolymorphismSingleTypeSpec)) :
  (forall entry, unionCalls (f entry) = []) ->
  unionCalls (flat_map f types) = [].
Proof.
  intros Hf. induction types as [|entry types IH]; [done |].
  cbn [flat_map]. by rewrite unionCalls_app, Hf, IH.
Qed.

Lemma detectInterface_no_union (build : Build) (codec : PgCodec) :
  unionCalls (detectInterface build codec) = [].
Proof.
  unfold detectInterface.
  destruct (polymorphism codec) as [poly|]; [| done].
  destruct (negb _ || _); [done |].
  destruct (pgCodecMatches build codec "select"); [| done].
  destruct poly as [common ta types | ta types |]; [| done | done].
  rewrite unionCalls_app, objectTypes_no_union; [done |].
  by intros [typeIdentifier spec].
Qed.

(** The scan, from any state of its two accumulators. *)
Lemma scan_from (build : Build) (codecs : list PgCodec)
    (calls : list BuildCall) (unions : UnionsToRegister) :
  let result := foldl (scanCodec build) (calls, unions) codecs in
  unionCalls result.1 = unionCalls calls
  /\ (WellKept unions -> WellKept result.2)
  /\ forall unionName,
       membersOf unionName result.2
       = membersOf unionName unions ++ occurrencesOf unionName codecs.
Proof.
  revert calls unions.
  induction codecs as [|codec codecs IH]; intros calls unions.
  - cbn. split; [done |]. split; [done |]. intros u. by rewrite app_nil_r.
  - cbn [foldl]. unfold occurrencesOf. cbn [flat_map]. fold (occurrencesOf).
    unfold scanCodec at 2 4 6. destruct (attributes codec) as [a|].
    + destruct (IH (calls ++ detectInterface build codec)
                   (detectUnionMembership codec unions))
        as (Hcalls & Hkept & Hmembers).
      split; [| split].
      * rewrite Hcalls, unionCalls_app, detectInterface_no_union.
        by rewrite app_nil_r.
      * intros H. by apply Hkept, registerMemberships_wellKept.
      * intros u. rewrite Hmembers. unfold detectUnionMembership.
        rewrite registerMemberships_members. by rewrite <- app_assoc.
    + apply IH.
Qed.

Lemma scan_wellKept (build : Build) : WellKept (unionsToRegisterOf build).
Proof.
  unfold unionsToRegisterOf, scanCodecs.
  by apply (scan_from build (pgCodecMetaLookup_keys build) [] JsObject.empty),
           wellKept_empty.
Qed.

(** C5 (as the code has it). The accumulator has one entry per union name,
    and the member list of a union name holds the tagged codecs in the
    order of the scan, once per occurrence of the name among their tags: a
    codec tagged with the same value twice is in the list twice. *)
Theorem union_members_accumulate (build : Build) :
  let unions := unionsToRegisterOf build in
  NoDup (JsObject.keys unions)
  /\ forall unionName,
       membersOf unionName unions
       = occurrencesOf unionName (pgCodecMetaLookup_keys build)
       /\ (unionName ∈ JsObject.keys unions
           <-> occurrencesOf unionName (pgCodecMetaLookup_keys build) <> []).
Proof.
  intros unions. destruct (scan_wellKept build) as [Hnd Hkeys].
  split; [done |]. intros u.
  assert (Hmembers : membersOf u unions
                     = occurrencesOf u (pgCodecMetaLookup_keys build)).
  { unfold unions, unionsToRegisterOf, scanCodecs.
    by destruct (scan_from build (pgCodecMetaLookup_keys build) []
                   JsObject.empty) as (_ & _ & ->). }
  split; [done |]. rewrite <- Hmembers. apply Hkeys.
Qed.

(** C5 as stated fails: [circle] carries [unionMember: Shape] twice and is
    twice in the member list of [Shape]. *)
Lemma union_members_counterexample :
  membersOf "Shape" (unionsToRegisterOf Example.schemaBuild)
  = [Example.circleCodec; Example.circleCodec; Example.squareCodec]
  /\ ~ (forall (build : Build) (unionName : string),
          NoDup (membersOf unionName (unionsToRegisterOf build))).
Proof.
  assert (H : membersOf "Shape" (unionsToRegisterOf Example.schemaBuild)
              = [Example.circleCodec; Example.circleCodec;
                 Example.squareCodec]) by reflexivity.
  split; [exact H |]. intros Hdedup.
  specialize (Hdedup Example.schemaBuild "Shape"). rewrite H in Hdedup.
  apply NoDup_cons in Hdedup as [Hnotin _]. apply Hnotin, list_elem_of_here.
Qed.

Lemma init_union_calls (build : Build) :
  unionCalls (init build) = JsObject.entries (unionsToRegisterOf build).
Proof.
  unfold init, unionsToRegisterOf, scanCodecs.
  destruct (scan_from build (pgCodecMetaLookup_keys build) [] JsObject.empty)
    as (Hcalls & _ & _).
  destruct (foldl _ _ _) as [calls unions]. cbn [fst snd] in *.
  rewrite unionCalls_app, Hcalls. cbn [unionCalls omap app].
  unfold JsObject.entries. induction unions as [|[u cs] unions IH]; [done |].
  cbn. f_equal. exact IH.
Qed.


(** The union registered for [Shape] in the example: [square] has no type
    and is left out. *)
Example shape_union :
  unionCalls (init Example.schemaBuild)
  = [("Shape", [Example.circleCodec; Example.circleCodec; Example.squareCodec])]
  /\ unionTypes Example.schemaBuild
       [Example.circleCodec; Example.circleCodec; Example.squareCodec]
     = [Example.circleType; Example.circleType].
Proof. split; reflexivity. Qed.

End UnionFacts.

(** ** Interface completeness *)

Section CompletenessFacts.

Context (build : Build).

Lemma push_all (names : list string) (types : list (option GraphQLNamedType)) :
  foldl (fun types typeName => types ++ [getTypeByName build typeName])
        types names
  = types ++ map (getTypeByName build) names.
Proof.
  revert types. induction names as [|n names IH]; intros types; cbn.
  - by rewrite app_nil_r.
  - rewrite IH. by rewrite <- app_assoc.
Qed.

Lemma forceDeclaredTypes_app (types : list (option GraphQLNamedType))
    (type : GraphQLNamedType) :
  forceDeclaredTypes build types type
  = types ++ forceDeclaredTypes build [] type.
Proof.
  unfold forceDeclaredTypes.
  destruct (isInterfaceType type); [| by rewrite app_nil_r].
  destruct (scopeByType build type) as [scope|]; [| by rewrite app_nil_r].
  destruct (pgPolymorphism scope) as [poly|]; [| by rewrite app_nil_r].
  by rewrite !push_all.
Qed.

Lemma schema_types_from (all : list GraphQLNamedType)
    (types : list (option GraphQLNamedType)) :
  foldl (forceDeclaredTypes build) types all
  = types ++ flat_map (forceDeclaredTypes build []) all.
Proof.
  revert types. induction all as [|type all IH]; intros types; cbn.
  - by rewrite app_nil_r.
  - rewrite IH, forceDeclaredTypes_app. by rewrite <- app_assoc.
Qed.

Lemma forced_names (types : list (option GraphQLNamedType))
    (type : GraphQLNamedType) (scope : ScopeInterface)
    (poly : PgCodecPolymorphism) (typeName : string) :
  In type (JsObject.values (getAllTypes build)) ->
  isInterfaceType type = true ->
  scopeByType build type = Some scope ->
  pgPolymorphism scope = Some poly ->
  In typeName (declaredTypeNames poly) ->
  In (getTypeByName build typeName) (GraphQLSchema_types types build).
Proof.
  intros Hin Hif Hscope Hpoly Hname. unfold GraphQLSchema_types.
  rewrite schema_types_from. apply in_or_app. right.
  apply in_flat_map. exists type. split; [done |].
  unfold forceDeclaredTypes. rewrite Hif, Hscope, Hpoly, push_all.
  by apply in_map.
Qed.


End CompletenessFacts.

(** In the example nothing but the interface refers to [car]; it is in the
    final list. *)
Example car_forced :
  GraphQLSchema_types [Some Example.queryType] Example.schemaBuild
  = [Some Example.queryType; Some Example.carType].
Proof. reflexivity. Qed.


(** ** Relation suppression *)

Section CallbackFacts.

Context (build : Build).

Lemma hidesLinkToRoot_cases (entity : PgCodecRelation) :
  (hidesLinkToRoot entity build = Ok true <-> LinkToRoot entity build)
  /\ ((exists e, hidesLinkToRoot entity build = Err e)
      <-> SharedRelationMissing entity build).
Proof.
  unfold hidesLinkToRoot, LinkToRoot, SharedRelationMissing. cbv zeta.
  destruct (isUnique entity); cbn [andb];
    [| split; split; [done | by intros [? _] | by intros [? ?] | by intros [? _]]].
  destruct (isReferencee entity); cbn [negb];
    [split; split; [done | by intros (_ & ? & _) | by intros [? ?]
                    | by intros (_ & ? & _)] |].
  destruct (polymorphism (res_codec (remoteResource entity)))
    as [[common ta types | ta types |]|];
    try (split; split;
         [done | by intros (_ & _ & ? & ? & ? & ? & ? & ? & _)
          | by intros [? ?] | by intros (_ & _ & ? & ? & ? & ? & ? & _)]).
  destruct (find _ (JsObject.entries types)) as [[key val]|] eqn:Hfind.
  - destruct (relationAt _ _ _) as [relation|] eqn:Hrel.
    + split; split.
      * intros [= Hmatch]. apply arraysMatch_eq in Hmatch.
        split; [done |]. split; [done |].
        by exists ta, types, key, val, relation.
      * intros (_ & _ & ta' & types' & key' & val' & relation'
                & [= <- <-] & Hfind' & Hrel' & Hattrs).
        rewrite Hfind in Hfind'. injection Hfind' as <- <-.
        rewrite Hrel in Hrel'. injection Hrel' as <-.
        f_equal. by apply arraysMatch_eq.
      * by intros [? ?].
      * intros (_ & _ & ta' & types' & key' & val' & [= <- <-] & Hfind' & Hrel').
        rewrite Hfind in Hfind'. injection Hfind' as <- <-. congruence.
    + split; split.
      * done.
      * intros (_ & _ & ta' & types' & key' & val' & relation'
                & [= <- <-] & Hfind' & Hrel' & _).
        rewrite Hfind in Hfind'. injection Hfind' as <- <-. congruence.
      * intros _. split; [done |]. split; [done |].
        by exists ta, types, key, val.
      * intros _. by eexists.
  - split; split.
    + done.
    + intros (_ & _ & ta' & types' & key' & val' & relation'
              & [= <- <-] & Hfind' & _). congruence.
    + by intros [? ?].
    + intros (_ & _ & ta' & types' & key' & val' & [= <- <-] & Hfind' & _).
      congruence.
Qed.

Lemma hidesLinkFromRoot_true (entity : PgCodecRelation) :
  hidesLinkFromRoot entity build = true <-> LinkFromRoot entity build.
Proof.
  unfold hidesLinkFromRoot, LinkFromRoot. cbv zeta.
  destruct (isReferencee entity); [| split; [done | by intros [? _]]].
  destruct (polymorphism (localCodec entity))
    as [[common ta types | ta types |]|];
    try (split; [done | by intros (_ & ? & ? & ? & ? & ? & _)]).
  rewrite existsb_exists. split.
  - intros (r & Hin & Hsame). apply in_map_iff in Hin as (t & Hr & Ht).
    destruct r as [relation|]; [| done].
    apply bool_decide_eq_true in Hsame.
    split; [done |]. by exists ta, types, t, relation.
  - intros (_ & ta' & types' & t & relation & [= <- <-] & Ht & Hrel & Hid).
    exists (Some relation). split.
    + apply in_map_iff. by exists t.
    + by apply bool_decide_eq_true.
Qed.

(** C10. For a unique, non-referencee relation from a concrete relational
    subtype back to its root whose local attributes are the remote
    attributes of the registered shared relation, and for a referencee
    relation of a relational root that is one of the links to its declared
    subtypes, the callback returns the behavior with
    ["-connection -list -single"] appended. For every other relation it
    returns the behavior unchanged, as long as the registry holds the
    relation registered for the local type; where it does not, reading the
    missing relation makes the callback throw. *)
Theorem link_relations_hidden (behavior : Behavior) (entity : PgCodecRelation) :
  (LinkToRoot entity build \/ LinkFromRoot entity build ->
   pgCodecRelation_callback behavior entity build
   = Ok (BehaviorList [behavior; BehaviorString "-connection -list -single"]))
  /\ (~ LinkToRoot entity build -> ~ LinkFromRoot entity build ->
      ~ SharedRelationMissing entity build ->
      pgCodecRelation_callback behavior entity build = Ok behavior)
  /\ (SharedRelationMissing entity build ->
      exists e, pgCodecRelation_callback behavior entity build = Err e).
Proof.
  destruct (hidesLinkToRoot_cases entity) as [Htrue Herr].
  pose proof (hidesLinkFromRoot_true entity) as Hfrom.
  unfold pgCodecRelation_callback.
  destruct (hidesLinkToRoot entity build) as [[|]|e] eqn:Hto.
  - split; [done |]. split.
    + intros Hn. destruct Hn. by apply Htrue.
    + intros Hmissing. apply Herr in Hmissing as [e He]. done.
  - destruct (hidesLinkFromRoot entity build) eqn:Hfr.
    + split; [done |]. split.
      * intros _ Hn. destruct Hn. by apply Hfrom.
      * intros Hmissing. apply Herr in Hmissing as [e He]. done.
    + split; [| split].
      * intros [Hl | Hl]; [by apply Htrue in Hl | by apply Hfrom in Hl].
      * done.
      * intros Hmissing. apply Herr in Hmissing as [e He]. done.
  - split; [| split].
    + intros [Hl | Hl].
      * by apply Htrue in Hl.
      * assert (Hm : SharedRelationMissing entity build)
          by (apply Herr; by eexists).
        destruct Hl as [Hl _]. destruct Hm as (_ & Hm & _). congruence.
    + intros _ _ Hn. destruct Hn. apply Herr. by eexists.
    + intros _. by eexists.
Qed.

End CallbackFacts.

(** *** Relation suppression on the [vehicle] hierarchy *)

Section CallbackExamples.

Import Example.

(** The link between [car] and [vehicle] is hidden in both directions; the
    root's relation to [person] is left alone. *)
Example car_link_hidden :
  pgCodecRelation_callback (BehaviorString "single") carToVehicle schemaBuild
  = Ok (BehaviorList [BehaviorString "single";
                      BehaviorString "-connection -list -single"])
  /\ pgCodecRelation_callback (BehaviorString "list") carLink schemaBuild
     = Ok (BehaviorList [BehaviorString "list";
                         BehaviorString "-connection -list -single"])
  /\ pgCodecRelation_callback (BehaviorString "single") ownerRelation
                              schemaBuild
     = Ok (BehaviorString "single").
Proof. repeat split; reflexivity. Qed.

(** Without the relation registered for [car] on the root, the callback
    throws on the link from [car]. *)
Example car_link_without_registry :
  pgCodecRelation_callback (BehaviorString "single") carToVehicle
                           buildWithoutRelations
  = Err (RelationUndefined "vehicle" "carByTheirmakeAndserial").
Proof. reflexivity. Qed.

Lemma carToVehicle_links_to_root : LinkToRoot carToVehicle schemaBuild.
Proof.
  split; [reflexivity |]. split; [reflexivity |].
  exists ["type"], vehicleTypes, "CAR", carSpec, carLink.
  repeat split; reflexivity.
Qed.

Lemma link_relations_hidden_witness :
  LinkToRoot carToVehicle schemaBuild
  /\ pgCodecRelation_callback (BehaviorString "single") carToVehicle
                              schemaBuild
     = Ok (BehaviorList [BehaviorString "single";
                         BehaviorString "-connection -list -single"]).
Proof.
  split; [exact carToVehicle_links_to_root |].
  exact (proj1 (link_relations_hidden schemaBuild (BehaviorString "single")
                  carToVehicle)
               (or_introl carToVehicle_links_to_root)).
Defined.

End CallbackExamples.

(** * Further properties *)

(** ** [parseAttribute], beyond the grammar *)

Section ParseAttributeMore.

Lemma countChar_append (c : ascii) (a b : string) :
  countChar c (a +:+ b) = countChar c a + countChar c b.
Proof.
  induction a as [|x a IH]; [done |].
  rewrite append_cons. cbn [countChar]. rewrite IH. lia.
Qed.

Lemma countChar_zero (c : ascii) (s : string) :
  countChar c s = 0 <-> Js.occurs c s = false.
Proof.
  induction s as [|x s IH]; [done |].
  cbn [countChar Js.occurs]. destruct (Ascii.eqb x c); cbn; [split; [lia | done] |].
  exact IH.
Qed.

Lemma split_length (sep : ascii) (s : string) :
  length (Js.split sep s) = S (countChar sep s).
Proof.
  induction s as [|x s IH]; [done |].
  cbn [Js.split countChar]. destruct (Ascii.eqb x sep); cbn [length].
  - by rewrite IH.
  - destruct (Js.split sep s) as [|piece pieces]; cbn in *; lia.
Qed.

Lemma split_pieces (sep : ascii) (s : string) :
  Forall (fun piece => Js.occurs sep piece = false) (Js.split sep s).
Proof.
  induction s as [|x s IH]; [by repeat constructor |].
  cbn [Js.split]. destruct (Ascii.eqb x sep) eqn:Hx.
  - by constructor.
  - destruct (Js.split sep s) as [|piece pieces]; [by repeat constructor; cbn; rewrite Hx |].
    apply Forall_cons in IH as [Hp Hps]. constructor; [| done].
    cbn [Js.occurs]. by rewrite Hx, Hp.
Qed.

Lemma concat_cons_cons (sep x y : string) (l : list string) :
  String.concat sep (x :: y :: l) = x +:+ sep +:+ String.concat sep (y :: l).
Proof. reflexivity. Qed.

(** Joining the pieces with the separator gives the string back. *)
Lemma split_join (sep : ascii) (s : string) :
  String.concat (String sep EmptyString) (Js.split sep s) = s.
Proof.
  induction s as [|x s IH]; [done |].
  cbn [Js.split]. pose proof (split_nonempty sep s) as Hne.
  destruct (Ascii.eqb x sep) eqn:Hx.
  - apply Ascii.eqb_eq in Hx as ->.
    destruct (Js.split sep s) as [|piece pieces]; [done |].
    by rewrite concat_cons_cons, IH.
  - destruct (Js.split sep s) as [|piece [|piece' pieces]]; [done | |].
    + cbn in IH |- *. by rewrite IH.
    + rewrite concat_cons_cons in IH |- *. by rewrite append_cons, IH.
Qed.

Lemma substring_cons (c : ascii) (s : string) (n : nat) :
  String.substring 0 (S n) (String c s) = String c (String.substring 0 n s).
Proof. reflexivity. Qed.

Lemma endsWith_bang_inv (s : string) :
  Js.endsWith s "!" = true -> s = Js.dropLast s +:+ "!".
Proof.
  induction s as [|c s IH]; [done |].
  cbn [Js.endsWith]. destruct (String.eqb (String c s) "!") eqn:E.
  - apply String.eqb_eq in E as ->. done.
  - intros H. specialize (IH H).
    destruct s as [|d s]; [done |].
    unfold Js.dropLast in *. cbn [String.length] in *.
    replace (S (S (String.length s)) - 1) with (S (S (String.length s) - 1))
      by lia.
    rewrite substring_cons, append_cons. by rewrite <- IH.
Qed.

(** The stripped entry, in terms of what the parser returns for it. *)
Lemma render_pieces (spec : string) :
  countChar ">" spec <= 1 ->
  hd EmptyString (Js.split ">" spec)
  +:+ renamePart (nth_error (Js.split ">" spec) 1)
  = spec.
Proof.
  intros Hcount. pose proof (split_length ">" spec) as Hlen.
  pose proof (split_join ">" spec) as Hjoin.
  destruct (Js.split ">" spec) as [|a [|b [|c pieces]]]; cbn in Hlen;
    [lia | | | lia].
  - cbn in Hjoin |- *. by rewrite append_empty_r.
  - cbn [String.concat] in Hjoin. cbn [hd nth_error renamePart]. exact Hjoin.
Qed.

(** X1. Writing the parsed entry back as [attribute[>rename][!]] gives the
    entry, for every entry with at most one ['>']. *)
Theorem parseAttribute_render (colSpec : string) :
  countChar ">" colSpec <= 1 ->
  let parsed := parseAttribute colSpec in
  renderBangLast (attribute parsed) (rename parsed) (isNotNull parsed)
  = colSpec.
Proof.
  intros Hcount parsed. unfold parsed, parseAttribute, renderBangLast.
  destruct (Js.endsWith colSpec "!") eqn:Hends; cbn [attribute rename isNotNull].
  - apply endsWith_bang_inv in Hends.
    assert (Hc : countChar ">" (Js.dropLast colSpec) <= 1).
    { rewrite Hends, countChar_append in Hcount. lia. }
    rewrite <- append_assoc, (render_pieces _ Hc). by rewrite <- Hends.
  - rewrite append_empty_r. by apply render_pieces.
Qed.

Lemma parseAttribute_render_witness :
  renderBangLast (attribute (parseAttribute "title>subject!"))
                 (rename (parseAttribute "title>subject!"))
                 (isNotNull (parseAttribute "title>subject!"))
  = "title>subject!".
Proof.
  apply (parseAttribute_render "title>subject!"). vm_compute. lia.
Defined.

(** X2. Whatever the entry, neither the attribute name nor the rename
    returned by the parser contains ['>']; what follows a second ['>'] is
    dropped, and of several trailing ['!'] only the last is taken off. *)
Theorem parseAttribute_drops (colSpec : string) :
  let parsed := parseAttribute colSpec in
  Js.occurs ">" (attribute parsed) = false
  /\ (forall r, rename parsed = Some r -> Js.occurs ">" r = false)
  /\ (forall a b rest,
        bareName a -> bareName b -> Js.occurs "!" rest = false ->
        colSpec = a +:+ ">" +:+ b +:+ ">" +:+ rest ->
        parsed = {| attribute := a; isNotNull := false; rename := Some b |})
  /\ (forall a,
        Js.occurs ">" a = false ->
        colSpec = a +:+ "!!" ->
        parsed = {| attribute := a +:+ "!"; isNotNull := true;
                    rename := None |}).
Proof.
  intros parsed.
  assert (Hpieces : forall spec,
    Js.occurs ">" (hd EmptyString (Js.split ">" spec)) = false
    /\ forall r, nth_error (Js.split ">" spec) 1 = Some r ->
                 Js.occurs ">" r = false).
  { intros spec. pose proof (split_pieces ">" spec) as Hall.
    destruct (Js.split ">" spec) as [|a [|b pieces]]; cbn.
    - done.
    - apply Forall_cons in Hall as [Ha _]. done.
    - apply Forall_cons in Hall as [Ha Hall].
      apply Forall_cons in Hall as [Hb _]. split; [done |]. by intros r [= <-]. }
  split; [| split; [| split]].
  - unfold parsed, parseAttribute.
    destruct (Js.endsWith colSpec "!"); apply Hpieces.
  - unfold parsed, parseAttribute.
    destruct (Js.endsWith colSpec "!"); apply Hpieces.
  - intros a b rest [Ha Ha'] [Hb Hb'] Hrest ->. unfold parsed.
    rewrite parseAttribute_unmarked.
    + change (">" +:+ b +:+ ">" +:+ rest) with (String ">" (b +:+ String ">" rest)).
      rewrite (split_append _ _ _ Ha), (split_append _ _ _ Hb). done.
    + rewrite !occurs_append, Ha', Hb', Hrest. done.
  - intros a Ha ->. unfold parsed.
    replace (a +:+ "!!") with ((a +:+ "!") +:+ "!")
      by (by rewrite append_assoc).
    rewrite parseAttribute_marked, split_absent; [done |].
    rewrite occurs_append, Ha. done.
Qed.

Lemma parseAttribute_drops_witness :
  parseAttribute "a>b>c"
  = {| attribute := "a"; isNotNull := false; rename := Some "b" |}.
Proof.
  refine (proj1 (proj2 (proj2 (parseAttribute_drops "a>b>c"))) "a" "b" "c"
                _ _ _ _); try (split; reflexivity); reflexivity.
Defined.

End ParseAttributeMore.

(** ** Discovery, beyond the claims *)

Section DiscoveryMore.

Context (utils : Utils) (info : Info).

Lemma relationalTypeTag_errors (serviceName : string) (pgClass : PgClass)
    (types : JsObject.obj PgCodecPolymorphismRelationalTypeSpec)
    (typeTag : string) (e : DiscoveryError) :
  relationalTypeTag utils info serviceName pgClass types typeTag = Err e ->
  e = TypeWithoutReferences
  \/ (exists r, e = InvalidDatabaseIdentifier r)
  \/ (exists n t, e = ReferencedClassNotFound n t)
  \/ e = MissingPrimaryKey
  \/ e = MissingForeignKeyConstraint.
Proof.
  unfold relationalTypeTag.
  destruct (truthy _) as [references|]; [| intros [= <-]; by left].
  destruct (parseDatabaseIdentifier _ _ _ _) as [[ns tbl]|];
    [| intros [= <-]; right; left; by eexists].
  destruct (getClassByName _ _ _ _) as [referencedClass|];
    [| intros [= <-]; right; right; left; by eexists _, _].
  destruct (primaryKeyOf pgClass) as [pk|];
    [| intros [= <-]; by right; right; right; left].
  destruct (primaryKeyOf referencedClass) as [remotePk|];
    [| intros [= <-]; by right; right; right; left].
  destruct (find _ _); [done | intros [= <-]; by right; right; right; right].
Qed.

(** The errors of the two polymorphic modes. *)
Lemma discoverSingle_errors (pgClass : PgClass) (params : gmap string string)
    (rawTypeTags : option TagValue) (e : DiscoveryError) :
  discoverSingle utils pgClass params rawTypeTags = Err e ->
  (exists t n r, e = NoTypeAttribute t n r) \/ e = TypeWithoutName.
Proof.
  unfold discoverSingle, checkDiscriminator.
  destruct (getAttribute _ _); cbn; [| intros [= <-]; left; by eexists _, _, _].
  destruct (forEachR _ _ _) as [[types specific]|err] eqn:Hloop; [done |].
  cbn. intros [= <-]. right.
  apply forEachR_err_body in Hloop as (s1 & x & _ & Hb).
  by apply singleTypeTag_error in Hb.
Qed.

Lemma discoverRelational_errors (serviceName : string) (pgClass : PgClass)
    (params : gmap string string) (rawTypeTags : option TagValue)
    (e : DiscoveryError) :
  discoverRelational utils info serviceName pgClass params rawTypeTags = Err e ->
  e <> InvalidInterfaceTag /\ e <> UnsupportedMode /\ e <> TagsUndefined
  /\ e <> TypeWithoutName.
Proof.
  unfold discoverRelational, checkDiscriminator.
  destruct (getAttribute _ _); cbn; [| by intros [= <-]].
  destruct (forEachR _ _ _) as [types|err] eqn:Hloop; [done |].
  cbn. intros [= <-].
  apply forEachR_err_body in Hloop as (s1 & x & _ & Hb).
  apply relationalTypeTag_errors in Hb
    as [-> | [[r ->] | [(n & t & ->) | [-> | ->]]]]; done.
Qed.

(** Closes a goal whose hypotheses, once taken apart, contradict each
    other. *)
Local Ltac clash :=
  repeat match goal with
         | H : ex _ |- _ => destruct H
         | H : _ /\ _ |- _ => destruct H
         | H : _ \/ _ |- _ => destruct H
         | H : Some _ = Some _ |- _ => injection H as H; try subst
         | H : Ok _ = Ok _ |- _ => injection H as H; try subst
         | H : Err _ = Err _ |- _ => injection H as H; try subst
         end;
  repeat match goal with x := _ |- _ => subst x end;
  cbv zeta in *; congruence.

(** X3. How the hook dispatches. It leaves the spec alone exactly when the
    spec's tags and the table's tags carry no interface tag, or an empty
    one; it rejects the interface tag exactly when the tag is [true] or an
    array; it reports an unsupported mode exactly when the tag is a
    non-empty string whose [mode] is none of [single], [relational] and
    [union]; and it reads [extensions.tags] of the spec first, failing when
    there are none. *)
Theorem discovery_dispatch (event : RecordTypeEvent) :
  let result := pgCodecs_recordType_spec utils info event in
  (result = Err TagsUndefined <-> tagsOfSpec (spec event) = None)
  /\ (result = Ok None
      <-> exists tgs,
            tagsOfSpec (spec event) = Some tgs
            /\ (interfaceTagOf tgs (pgClass event) = None
                \/ interfaceTagOf tgs (pgClass event)
                   = Some (TagOne (AtomStr EmptyString))))
  /\ (result = Err InvalidInterfaceTag
      <-> exists tgs,
            tagsOfSpec (spec event) = Some tgs
            /\ (interfaceTagOf tgs (pgClass event) = Some (TagOne AtomTrue)
                \/ exists l, interfaceTagOf tgs (pgClass event)
                             = Some (TagMany l)))
  /\ (result = Err UnsupportedMode
      <-> exists tgs interfaceTag,
            tagsOfSpec (spec event) = Some tgs
            /\ interfaceTagOf tgs (pgClass event)
               = Some (TagOne (AtomStr interfaceTag))
            /\ interfaceTag <> EmptyString
            /\ let mode := params (parseSmartTagsOptsString utils interfaceTag 0)
                             !! "mode" in
               mode <> Some "single" /\ mode <> Some "relational"
               /\ mode <> Some "union").
Proof.
  intros result. unfold result, pgCodecs_recordType_spec.
  destruct (tagsOfSpec (spec event)) as [tgs|].
  2:{ repeat split; try done; intros H; clash. }
  destruct (interfaceTagOf tgs (pgClass event)) as [[[|s]|l]|] eqn:Hif.
  - repeat split; try done; try (intros H; clash).
    intros _. exists tgs. split; [done |]. by left.
  - destruct (decide (s = EmptyString)) as [-> | Hne].
    + repeat split; try done; try (intros H; clash).
      intros _. exists tgs. split; [done |]. by right.
    + set (prms := params (parseSmartTagsOptsString utils s 0)).
      destruct (decide (prms !! "mode" = Some "single")) as [Hm | Hm1].
      { destruct (discoverSingle _ _ _ _) as [poly|e] eqn:Hd; cbn.
        - repeat split; try done; intros H; clash.
        - apply discoverSingle_errors in Hd as [(t & n & r & ->) | ->];
            repeat split; try done; intros H; clash. }
      destruct (decide (prms !! "mode" = Some "relational")) as [Hm | Hm2].
      { destruct (discoverRelational _ _ _ _ _ _) as [poly|e] eqn:Hd; cbn.
        - repeat split; try done; intros H; clash.
        - apply discoverRelational_errors in Hd as (H1 & H2 & H3 & _).
          repeat split; try done; intros H; clash. }
      destruct (decide (prms !! "mode" = Some "union")) as [Hm | Hm3].
      { repeat split; try done; intros H; clash. }
      repeat split; try done; try (intros H; clash).
      intros _. by exists tgs, s.
  - repeat split; try done; try (intros H; clash).
    intros _. exists tgs. split; [done |]. right. by exists l.
  - repeat split; try done; try (intros H; clash).
    intros _. exists tgs. split; [done |]. by left.
Qed.

(** *** Without type tags *)

(** X4. A root in mode [single] or [relational] whose spec carries no
    [type] tag is never accepted: the missing tag is read as the one type
    tag ["undefined"], and unless the parser finds a [name] (a [references])
    parameter in that word, Discovery fails - on the discriminator when the
    table lacks it, on the type tag otherwise. *)
Theorem interface_without_type_tags (event : RecordTypeEvent)
    (tgs : gmap string TagValue) (interfaceTag : string) :
  tagsOfSpec (spec event) = Some tgs ->
  interfaceTagOf tgs (pgClass event) = Some (TagOne (AtomStr interfaceTag)) ->
  interfaceTag <> EmptyString ->
  tgs !! "type" = None ->
  let prms := params (parseSmartTagsOptsString utils interfaceTag 0) in
  let undefinedTag := params (parseSmartTagsOptsString utils "undefined" 1) in
  let missing :=
    NoTypeAttribute (discriminatorOf prms) (nspname (pgClass event))
                    (relname (pgClass event)) in
  let hasDiscriminator :=
    bool_decide (getAttribute (pgClass event) (discriminatorOf prms) <> None) in
  (prms !! "mode" = Some "single" ->
   truthy (undefinedTag !! "name") = None ->
   pgCodecs_recordType_spec utils info event
   = Err (if hasDiscriminator then TypeWithoutName else missing))
  /\ (prms !! "mode" = Some "relational" ->
      truthy (undefinedTag !! "references") = None ->
      pgCodecs_recordType_spec utils info event
      = Err (if hasDiscriminator then TypeWithoutReferences else missing)).
Proof.
  intros Htags Hif Hne Htype prms undefinedTag missing hasDiscriminator.
  rewrite (hook_on_interface_string utils info event tgs interfaceTag
             Htags Hif Hne).
  fold prms. rewrite Htype. unfold hasDiscriminator, missing. split.
  - intros Hmode Hname. rewrite Hmode.
    destruct (decide (Some "single" = Some "single")) as [_|]; [| done].
    unfold discoverSingle, checkDiscriminator.
    destruct (getAttribute _ _) as [a|]; cbn; [| done].
    unfold singleTypeTag. fold undefinedTag. by rewrite Hname.
  - intros Hmode Href. rewrite Hmode.
    destruct (decide (Some "relational" = Some "single")) as [|_]; [done |].
    destruct (decide (Some "relational" = Some "relational")) as [_|]; [| done].
    unfold discoverRelational, checkDiscriminator.
    destruct (getAttribute _ _) as [a|]; cbn; [| done].
    unfold relationalTypeTag. fold undefinedTag. by rewrite Href.
Qed.

(** *** The [types] map *)

Lemma last_filter_cons {A} (P : A -> Prop) `{!forall x, Decision (P x)}
    (x : A) (l : list A) :
  last (filter P (x :: l))
  = match last (filter P l) with
    | Some y => Some y
    | None => if decide (P x) then Some x else None
    end.
Proof.
  rewrite filter_cons. destruct (decide (P x)); [| by destruct (last _)].
  rewrite last_cons. by destruct (last _).
Qed.

Lemma lastTagFor_Some (typeValue : string) (typeTags : list string)
    (typeTag : string) :
  lastTagFor utils typeValue typeTags = Some typeTag ->
  typeTag ∈ typeTags /\ typeValueOfTag utils typeTag = typeValue.
Proof.
  unfold lastTagFor. intros [l Hl]%last_Some.
  assert (Hin : typeTag ∈ filter
            (fun t => typeValueOf (parseSmartTagsOptsString utils t 1)
                      = typeValue) typeTags).
  { rewrite Hl, elem_of_app, list_elem_of_singleton. by right. }
  rewrite list_elem_of_filter in Hin. destruct Hin as [Hv Hin]. done.
Qed.

Lemma lastTagFor_None (typeValue : string) (typeTags : list string) :
  lastTagFor utils typeValue typeTags = None
  <-> forall typeTag, typeTag ∈ typeTags ->
                      typeValueOfTag utils typeTag <> typeValue.
Proof.
  unfold lastTagFor. rewrite last_None. split.
  - intros Hnil typeTag Hin Hv.
    assert (Hf : typeTag ∈ filter
              (fun t => typeValueOf (parseSmartTagsOptsString utils t 1)
                        = typeValue) typeTags)
      by (rewrite list_elem_of_filter; done).
    rewrite Hnil in Hf. by apply elem_of_nil in Hf.
  - intros Hno. induction typeTags as [|t ts IH]; [done |].
    rewrite filter_cons. destruct (decide _) as [Hv|_].
    + destruct (Hno t (list_elem_of_here _ _) Hv).
    + apply IH. intros typeTag Hin. apply Hno. by apply list_elem_of_further.
Qed.

Section LastWins.

Context {E S V : Type} (proj : S -> JsObject.obj V)
        (body : S -> string -> Result E S) (entryOf : string -> option V).

Hypothesis body_sets :
  forall s typeTag s',
    body s typeTag = Ok s' ->
    exists v, entryOf typeTag = Some v
              /\ proj s' = JsObject.set (typeValueOfTag utils typeTag) v (proj s).

Lemma loop_last_wins (typeTags : list string) (s s' : S) :
  forEachR body typeTags s = Ok s' ->
  forall typeValue,
    JsObject.get typeValue (proj s')
    = match lastTagFor utils typeValue typeTags with
      | Some typeTag => entryOf typeTag
      | None => JsObject.get typeValue (proj s)
      end.
Proof using body_sets.
  revert s. induction typeTags as [|typeTag typeTags IH]; intros s.
  - cbn. by intros [= <-].
  - cbn [forEachR]. destruct (body s typeTag) as [s1|e] eqn:Hb; [| done].
    cbn. intros Hrest typeValue. rewrite (IH _ Hrest typeValue).
    unfold lastTagFor. rewrite last_filter_cons.
    destruct (last _) as [t|]; [done |].
    destruct (body_sets _ _ _ Hb) as (v & Hv & ->). rewrite get_set.
    unfold typeValueOfTag. destruct (decide _); done.
Qed.

Lemma loop_each_entry (typeTags : list string) (s s' : S) :
  forEachR body typeTags s = Ok s' ->
  forall typeTag, typeTag ∈ typeTags -> exists v, entryOf typeTag = Some v.
Proof using body_sets.
  intros Hloop typeTag Hin%list_elem_of_In.
  destruct (forEachR_ok_each _ _ _ _ Hloop typeTag Hin) as (s1 & s2 & Hb).
  destruct (body_sets _ _ _ Hb) as (v & Hv & _). by exists v.
Qed.

Lemma loop_keys_NoDup (typeTags : list string) (s s' : S) :
  NoDup (JsObject.keys (proj s)) ->
  forEachR body typeTags s = Ok s' -> NoDup (JsObject.keys (proj s')).
Proof using body_sets.
  intros Hnd Hloop.
  apply (forEachR_invariant body (fun s => NoDup (JsObject.keys (proj s)))
           typeTags s s'); [| done | done].
  intros s1 x s2 _ H1 Hb. destruct (body_sets _ _ _ Hb) as (v & _ & ->).
  by apply NoDup_keys_set.
Qed.

(** The three facts together, for a loop that starts from an empty
    object. *)
Lemma loop_types (typeTags : list string) (s s' : S) :
  proj s = JsObject.empty ->
  forEachR body typeTags s = Ok s' ->
  (forall typeValue,
     JsObject.get typeValue (proj s')
     = lastTagFor utils typeValue typeTags ≫= entryOf)
  /\ (forall typeValue,
        typeValue ∈ JsObject.keys (proj s')
        <-> exists typeTag, typeTag ∈ typeTags
                            /\ typeValueOfTag utils typeTag = typeValue)
  /\ NoDup (JsObject.keys (proj s')).
Proof using body_sets.
  intros Hempty Hloop.
  assert (Hget : forall typeValue,
     JsObject.get typeValue (proj s')
     = lastTagFor utils typeValue typeTags ≫= entryOf).
  { intros typeValue. rewrite (loop_last_wins _ _ _ Hloop), Hempty.
    by destruct (lastTagFor _ _ _). }
  split; [exact Hget |]. split.
  - intros typeValue. split.
    + intros Hin.
      destruct (lastTagFor utils typeValue typeTags) as [t|] eqn:Hlast.
      * apply lastTagFor_Some in Hlast as [? ?]. by exists t.
      * destruct (proj1 (get_None_keys typeValue (proj s'))); [| done].
        by rewrite Hget, Hlast.
    + intros (typeTag & Hin & Hv).
      destruct (JsObject.get typeValue (proj s')) as [v|] eqn:Hg;
        [by eapply get_Some_keys |].
      rewrite Hget in Hg.
      destruct (lastTagFor utils typeValue typeTags) as [t|] eqn:Hlast.
      * apply lastTagFor_Some in Hlast as [Ht _].
        destruct (loop_each_entry _ _ _ Hloop t Ht) as [v Hv'].
        cbn in Hg. by rewrite Hv' in Hg.
      * destruct (proj1 (lastTagFor_None _ _) Hlast typeTag Hin Hv).
  - apply (loop_keys_NoDup typeTags s); [| done]. rewrite Hempty. constructor.
Qed.

End LastWins.

Lemma singleTypeTag_sets (acc : SingleAcc) (typeTag : string) (acc' : SingleAcc) :
  singleTypeTag utils acc typeTag = Ok acc' ->
  exists v, singleEntryOf utils typeTag = Some v
            /\ acc'.1 = JsObject.set (typeValueOfTag utils typeTag) v acc.1.
Proof.
  unfold singleTypeTag, singleEntryOf. destruct acc as [types specific].
  destruct (truthy _) as [nm|]; [| done]. intros [= <-]. by eexists.
Qed.

(** X5. The [types] of a single-mode root, by discriminator value: the
    entry under a value is the one of the last type tag that carries the
    value (name and override list as that tag gives them), every type tag
    has a non-empty name, the values in the object are exactly those of the
    type tags, each once. *)
Theorem single_types_last_wins (event : RecordTypeEvent)
    (tgs : gmap string TagValue) (common typeAttributes : list string)
    (types : JsObject.obj PgCodecPolymorphismSingleTypeSpec) :
  tagsOfSpec (spec event) = Some tgs ->
  pgCodecs_recordType_spec utils info event
  = Ok (Some (PolySingle common typeAttributes types)) ->
  let typeTags := typeTagsOf (tgs !! "type") in
  (forall typeValue,
     JsObject.get typeValue types
     = lastTagFor utils typeValue typeTags ≫= singleEntryOf utils)
  /\ (forall typeTag, typeTag ∈ typeTags ->
        exists nm,
          truthy (params (parseSmartTagsOptsString utils typeTag 1) !! "name")
          = Some nm)
  /\ (forall typeValue,
        typeValue ∈ JsObject.keys types
        <-> exists typeTag, typeTag ∈ typeTags
                            /\ typeValueOfTag utils typeTag = typeValue)
  /\ NoDup (JsObject.keys types).
Proof.
  intros Htags Hhook typeTags.
  destruct (hook_single_inv utils info _ _ _ _ _ Htags Hhook) as [prms Hd].
  unfold discoverSingle in Hd.
  destruct (checkDiscriminator _ _) as [attr|e]; [| done]. cbn in Hd.
  destruct (forEachR _ _ _) as [[tys specific]|e] eqn:Hloop; [| done].
  cbn in Hd. injection Hd as _ _ <-. fold typeTags in Hloop.
  destruct (loop_types fst (singleTypeTag utils) (singleEntryOf utils)
              singleTypeTag_sets typeTags (JsObject.empty, ∅) (tys, specific)
              eq_refl Hloop)
    as (Hget & Hkeys & Hnd).
  cbn [fst] in Hget, Hkeys, Hnd.
  split; [exact Hget |]. split; [| by split].
  intros typeTag Hin.
  destruct (loop_each_entry fst (singleTypeTag utils) (singleEntryOf utils)
              singleTypeTag_sets typeTags _ _ Hloop typeTag Hin) as [v Hv].
  unfold singleEntryOf in Hv. destruct (truthy _) as [nm|]; [by exists nm | done].
Qed.

(** A relational-mode result of the hook comes from
    [discoverRelational]. *)
Lemma hook_relational_inv (event : RecordTypeEvent) (tgs : gmap string TagValue)
    (typeAttributes : list string)
    (types : JsObject.obj PgCodecPolymorphismRelationalTypeSpec) :
  tagsOfSpec (spec event) = Some tgs ->
  pgCodecs_recordType_spec utils info event
  = Ok (Some (PolyRelational typeAttributes types)) ->
  exists params,
    discoverRelational utils info (serviceName event) (pgClass event) params
                       (tgs !! "type")
    = Ok (PolyRelational typeAttributes types).
Proof.
  intros Htags. unfold pgCodecs_recordType_spec. rewrite Htags.
  destruct (interfaceTagOf _ _) as [[[|s]|l]|]; try done.
  destruct (decide (s = EmptyString)) as [|_]; [done |].
  set (params := params (parseSmartTagsOptsString utils s 0)).
  destruct (decide (params !! "mode" = Some "single")) as [_|_].
  { unfold discoverSingle.
    destruct (checkDiscriminator _ _); [| done]. cbn.
    destruct (forEachR _ _ _) as [[? ?]|]; done. }
  destruct (decide (params !! "mode" = Some "relational")) as [_|_].
  { destruct (discoverRelational _ _ _ _ _ _) as [poly|err] eqn:Hd; [| done].
    cbn. intros [= ->]. by exists params. }
  destruct (decide (params !! "mode" = Some "union")); done.
Qed.

Lemma relationalTypeTag_sets (serviceName : string) (pgClass : PgClass)
    (types : JsObject.obj PgCodecPolymorphismRelationalTypeSpec)
    (typeTag : string)
    (types' : JsObject.obj PgCodecPolymorphismRelationalTypeSpec) :
  relationalTypeTag utils info serviceName pgClass types typeTag = Ok types' ->
  exists v, relationalEntryOf utils info serviceName pgClass typeTag = Some v
            /\ types' = JsObject.set (typeValueOfTag utils typeTag) v types.
Proof.
  unfold relationalEntryOf, relationalTypeTag.
  destruct (truthy _) as [references|]; [| done].
  destruct (parseDatabaseIdentifier _ _ _ _) as [[ns tbl]|]; [| done].
  destruct (getClassByName _ _ _ _) as [referencedClass|]; [| done].
  destruct (primaryKeyOf pgClass) as [pk|]; [| done].
  destruct (primaryKeyOf referencedClass) as [remotePk|]; [| done].
  destruct (find _ _) as [c|]; [| done].
  intros [= <-]. by eexists.
Qed.

(** What the entry of an accepted relational type tag holds. *)
Lemma relationalEntryOf_Some (serviceName : string) (pgClass : PgClass)
    (typeTag : string) (entry : PgCodecPolymorphismRelationalTypeSpec) :
  relationalEntryOf utils info serviceName pgClass typeTag = Some entry ->
  exists referencedClass pk remotePk c,
    truthy (params (parseSmartTagsOptsString utils typeTag 1) !! "references")
    = Some (rt_references entry)
    /\ referencedClassOf utils info serviceName pgClass typeTag
       = Some referencedClass
    /\ primaryKeyOf pgClass = Some pk
    /\ primaryKeyOf referencedClass = Some remotePk
    /\ find (linksToRoot pgClass pk remotePk) (getConstraints referencedClass)
       = Some c
    /\ rt_name entry
       = tableTypeOfRef (inflection info)
           (getCodecFromClass (helpers info) serviceName (_id referencedClass))
    /\ rt_relationName entry
       = resourceRelationName (inflection info)
           {| rd_serviceName := serviceName;
              rd_isReferencee := true;
              rd_isUnique := true;
              rd_localClass := pgClass;
              rd_localAttributes := con_getAttributes pk;
              rd_foreignClass := referencedClass;
              rd_foreignAttributes := con_getAttributes remotePk;
              rd_pgConstraint := c |}.
Proof.
  unfold relationalEntryOf, relationalTypeTag, referencedClassOf.
  destruct (truthy _) as [references|]; [| done].
  destruct (parseDatabaseIdentifier _ _ _ _) as [[ns tbl]|]; [| done].
  destruct (getClassByName _ _ _ _) as [referencedClass|]; [| done].
  destruct (primaryKeyOf pgClass) as [pk|]; [| done].
  destruct (primaryKeyOf referencedClass) as [remotePk|] eqn:Hrpk; [| done].
  destruct (find _ _) as [c|] eqn:Hfind; [| done].
  cbn. intros [= <-]. exists referencedClass, pk, remotePk, c. by repeat split.
Qed.

(** X6. The [types] of a relational-mode root, by discriminator value: the
    entry under a value comes from the last type tag that carries the value;
    it records that tag's [references] parameter, the type name of the
    referenced table's codec, and the name of the relation from the root
    over the first foreign key of the referenced table that matches the two
    primary keys. The values in the object are exactly those of the type
    tags, each once. *)
Theorem relational_types_last_wins (event : RecordTypeEvent)
    (tgs : gmap string TagValue) (typeAttributes : list string)
    (types : JsObject.obj PgCodecPolymorphismRelationalTypeSpec) :
  tagsOfSpec (spec event) = Some tgs ->
  pgCodecs_recordType_spec utils info event
  = Ok (Some (PolyRelational typeAttributes types)) ->
  let typeTags := typeTagsOf (tgs !! "type") in
  (forall typeValue entry,
     JsObject.get typeValue types = Some entry ->
     exists typeTag referencedClass pk remotePk c,
       lastTagFor utils typeValue typeTags = Some typeTag
       /\ truthy (params (parseSmartTagsOptsString utils typeTag 1)
                    !! "references")
          = Some (rt_references entry)
       /\ referencedClassOf utils info (serviceName event) (pgClass event)
                            typeTag
          = Some referencedClass
       /\ primaryKeyOf (pgClass event) = Some pk
       /\ primaryKeyOf referencedClass = Some remotePk
       /\ find (linksToRoot (pgClass event) pk remotePk)
               (getConstraints referencedClass)
          = Some c
       /\ rt_name entry
          = tableTypeOfRef (inflection info)
              (getCodecFromClass (helpers info) (serviceName event)
                                 (_id referencedClass))
       /\ rt_relationName entry
          = resourceRelationName (inflection info)
              {| rd_serviceName := serviceName event;
                 rd_isReferencee := true;
                 rd_isUnique := true;
                 rd_localClass := pgClass event;
                 rd_localAttributes := con_getAttributes pk;
                 rd_foreignClass := referencedClass;
                 rd_foreignAttributes := con_getAttributes remotePk;
                 rd_pgConstraint := c |})
  /\ (forall typeValue,
        typeValue ∈ JsObject.keys types
        <-> exists typeTag, typeTag ∈ typeTags
                            /\ typeValueOfTag utils typeTag = typeValue)
  /\ NoDup (JsObject.keys types).
Proof.
  intros Htags Hhook typeTags.
  destruct (hook_relational_inv _ _ _ _ Htags Hhook) as [prms Hd].
  unfold discoverRelational in Hd.
  destruct (checkDiscriminator _ _) as [attr|e]; [| done]. cbn in Hd.
  destruct (forEachR _ _ _) as [tys|e] eqn:Hloop; [| done].
  cbn in Hd. injection Hd as _ <-. fold typeTags in Hloop.
  destruct (loop_types id
              (relationalTypeTag utils info (serviceName event) (pgClass event))
              (relationalEntryOf utils info (serviceName event) (pgClass event))
              (relationalTypeTag_sets (serviceName event) (pgClass event))
              typeTags JsObject.empty tys eq_refl Hloop)
    as (Hget & Hkeys & Hnd).
  split; [| by split].
  intros typeValue entry Hentry. unfold id in Hget. rewrite Hget in Hentry.
  destruct (lastTagFor utils typeValue typeTags) as [typeTag|]; [| done].
  cbn in Hentry.
  apply relationalEntryOf_Some in Hentry
    as (rc & pk & remotePk & c & H1 & H2 & H3 & H4 & H5 & H6 & H7).
  by exists typeTag, rc, pk, remotePk, c.
Qed.

(** *** Discovery and the registry hooks look for the same foreign key *)

Lemma links_agree (pgClass : PgClass) (rootPk relatedPk c : PgConstraint) :
  linksBackToRoot pgClass relatedPk rootPk c
  = linksToRoot pgClass rootPk relatedPk c.
Proof.
  unfold linksBackToRoot, linksToRoot.
  destruct (bool_decide _), (bool_decide _), (Js.arraysMatch _ _),
    (Js.arraysMatch _ _); done.
Qed.

Lemma find_links_agree (pgClass : PgClass) (rootPk relatedPk : PgConstraint)
    (constraints : list PgConstraint) :
  find (linksBackToRoot pgClass relatedPk rootPk) constraints
  = find (linksToRoot pgClass rootPk relatedPk) constraints.
Proof.
  induction constraints as [|c cs IH]; [done |].
  cbn [find]. by rewrite links_agree, IH.
Qed.

(** X7. Discovery and the registry hooks agree on a declared subtype. For
    a type tag that resolves to a table, Discovery accepts the tag exactly
    when the registry hooks can name the shared relation between the root
    and that table; then both have picked the same foreign key, Discovery
    naming the relation from the root and the registry hooks the relation
    from the subtype. *)
Theorem discovery_agrees_with_registry (serviceName : string)
    (pgClass referencedClass : PgClass)
    (types : JsObject.obj PgCodecPolymorphismRelationalTypeSpec)
    (typeTag : string) :
  referencedClassOf utils info serviceName pgClass typeTag
  = Some referencedClass ->
  isOk (relationalTypeTag utils info serviceName pgClass types typeTag)
  = isOk (sharedRelationNameOf info serviceName pgClass referencedClass)
  /\ (forall entry sharedRelationName,
        relationalEntryOf utils info serviceName pgClass typeTag = Some entry ->
        sharedRelationNameOf info serviceName pgClass referencedClass
        = Ok sharedRelationName ->
        exists pk remotePk c,
          primaryKeyOf pgClass = Some pk
          /\ primaryKeyOf referencedClass = Some remotePk
          /\ KeysMatch pgClass referencedClass c
          /\ rt_relationName entry
             = resourceRelationName (inflection info)
                 {| rd_serviceName := serviceName;
                    rd_isReferencee := true;
                    rd_isUnique := true;
                    rd_localClass := pgClass;
                    rd_localAttributes := con_getAttributes pk;
                    rd_foreignClass := referencedClass;
                    rd_foreignAttributes := con_getAttributes remotePk;
                    rd_pgConstraint := c |}
          /\ sharedRelationName
             = resourceRelationName (inflection info)
                 {| rd_serviceName := serviceName;
                    rd_isReferencee := false;
                    rd_isUnique := true;
                    rd_localClass := referencedClass;
                    rd_localAttributes := con_getAttributes remotePk;
                    rd_foreignClass := pgClass;
                    rd_foreignAttributes := con_getAttributes pk;
                    rd_pgConstraint := c |}).
Proof.
  intros Href. split.
  - revert Href.
    unfold referencedClassOf, relationalTypeTag, sharedRelationNameOf.
    destruct (truthy _) as [references|]; [| done].
    destruct (parseDatabaseIdentifier _ _ _ _) as [[ns tbl]|]; [| done].
    intros ->.
    destruct (primaryKeyOf pgClass) as [pk|],
      (primaryKeyOf referencedClass) as [remotePk|]; try done.
    rewrite find_links_agree. by destruct (find _ _).
  - intros entry shared Hentry Hshared.
    apply relationalEntryOf_Some in Hentry
      as (rc & pk & remotePk & c & _ & Hrc & Hpk & Hrpk & Hfind & _ & Hname).
    rewrite Href in Hrc. injection Hrc as <-.
    unfold sharedRelationNameOf in Hshared.
    rewrite Hrpk, Hpk, find_links_agree, Hfind in Hshared.
    injection Hshared as <-.
    exists pk, remotePk, c. split; [done |]. split; [done |].
    split; [| by split].
    apply find_some in Hfind as [Hin Hlinks].
    apply linksToRoot_true in Hlinks as (Hf & Hid & Hloc & Hfor).
    exists pk, remotePk. by repeat split.
Qed.

End DiscoveryMore.

(** *** The further properties of Discovery on the example tables *)

Section DiscoveryMoreExamples.

Import Example.

(** The [vehicle] root declared relational, without any type tag. *)
Lemma interface_without_type_tags_witness :
  pgCodecs_recordType_spec utils info
    {| pgClass := vehicle;
       spec := specWithTags {[ "interface" := TagOne (AtomStr "mode:relational") ]};
       serviceName := "main" |}
  = Err TypeWithoutReferences.
Proof.
  set (tgs := {[ "interface" := TagOne (AtomStr "mode:relational") ]}
              : gmap string TagValue).
  set (event := {| pgClass := vehicle; spec := specWithTags tgs;
                   serviceName := "main" |}).
  assert (Hif : interfaceTagOf tgs (pgClass event)
                = Some (TagOne (AtomStr "mode:relational")))
    by (vm_compute; reflexivity).
  assert (Hne : "mode:relational" <> EmptyString) by discriminate.
  assert (Htype : tgs !! "type" = None) by (vm_compute; reflexivity).
  assert (Hmode : params (parseSmartTagsOptsString utils "mode:relational" 0)
                    !! "mode" = Some "relational")
    by (vm_compute; reflexivity).
  assert (Href : truthy (params (parseSmartTagsOptsString utils "undefined" 1)
                           !! "references") = None)
    by (vm_compute; reflexivity).
  rewrite (proj2 (interface_without_type_tags utils info event tgs
                    "mode:relational" eq_refl Hif Hne Htype) Hmode Href).
  vm_compute. reflexivity.
Defined.

Lemma single_types_last_wins_witness :
  JsObject.get "employee"
    [ ("employee",
       {| st_name := "Employee";
          st_attributes := [ mkAttributeSpec "salary" true None ] |});
      ("contractor",
       {| st_name := "Contractor";
          st_attributes := [ mkAttributeSpec "hourly_rate" false None ] |}) ]
  = lastTagFor utils "employee"
      [ "employee name:Employee attributes:salary!";
        "contractor name:Contractor attributes:hourly_rate" ]
    ≫= singleEntryOf utils.
Proof.
  exact (proj1 (single_types_last_wins utils info personEvent personTags
                  _ _ _ eq_refl person_discovery) "employee").
Defined.

Lemma relational_types_last_wins_witness :
  exists typeTag c,
    lastTagFor utils "CAR" ["CAR references:car"] = Some typeTag
    /\ referencedClassOf utils info "main" vehicle typeTag = Some car
    /\ In c (getConstraints car).
Proof.
  destruct (proj1 (relational_types_last_wins utils info
                     (vehicleEvent ["CAR references:car"])
                     (vehicleTags ["CAR references:car"]) _ _
                     eq_refl car_accepted)
                  "CAR" _ eq_refl)
    as (typeTag & rc & pk & remotePk & c & Hlast & _ & Hrc & _ & _ & Hfind & _).
  exists typeTag, c. split; [exact Hlast |].
  vm_compute in Hlast. injection Hlast as <-.
  vm_compute in Hrc. injection Hrc as <-.
  split; [vm_compute; reflexivity |].
  by apply find_some in Hfind as [Hin _].
Defined.

Lemma discovery_agrees_with_registry_witness :
  isOk (relationalTypeTag utils info "main" vehicle JsObject.empty
                          "CAR references:car")
  = isOk (sharedRelationNameOf info "main" vehicle car)
  /\ isOk (relationalTypeTag utils info "main" vehicle JsObject.empty
                             "TRUCK references:truck")
     = isOk (sharedRelationNameOf info "main" vehicle truck).
Proof.
  assert (Hcar : referencedClassOf utils info "main" vehicle
                   "CAR references:car" = Some car)
    by (vm_compute; reflexivity).
  assert (Htruck : referencedClassOf utils info "main" vehicle
                     "TRUCK references:truck" = Some truck)
    by (vm_compute; reflexivity).
  split.
  - exact (proj1 (discovery_agrees_with_registry utils info "main" vehicle car
                    JsObject.empty "CAR references:car" Hcar)).
  - exact (proj1 (discovery_agrees_with_registry utils info "main" vehicle truck
                    JsObject.empty "TRUCK references:truck" Htruck)).
Defined.

End DiscoveryMoreExamples.

(** ** The registry hooks, beyond the claims *)

Section RegistryFrame.

Context (utils : Utils) (info : Info).

(** *** What the finalize hook leaves alone *)

Lemma sameButIdenticalVia_refl (a : PgCodecAttribute) : SameButIdenticalVia a a.
Proof. by repeat split. Qed.

Lemma attributesGrow_refl (a : option (gmap string PgCodecAttribute)) :
  AttributesGrow a a.
Proof.
  destruct a as [a|]; [| done]. intros colName.
  destruct (a !! colName); [apply sameButIdenticalVia_refl | done].
Qed.

Lemma attributesGrow_trans (a b c : option (gmap string PgCodecAttribute)) :
  AttributesGrow a b -> AttributesGrow b c -> AttributesGrow a c.
Proof.
  destruct a as [a|], b as [b|], c as [c|]; try done.
  intros Hab Hbc colName. specialize (Hab colName). specialize (Hbc colName).
  destruct (a !! colName) as [x|], (b !! colName) as [y|],
    (c !! colName) as [z|]; try done.
  - destruct Hab as (? & ? & ? & ? & ? & ? & ?),
      Hbc as (? & ? & ? & ? & ? & ? & ?).
    repeat split; congruence.
  - destruct Hbc as (_ & _ & _ & Hvia & _). congruence.
Qed.

Lemma onlyAttributesChange_refl (codecs : Codecs) :
  OnlyAttributesChange codecs codecs.
Proof.
  intros r. destruct (codecs !! r); [| done].
  repeat split. apply attributesGrow_refl.
Qed.

Lemma onlyAttributesChange_trans (a b c : Codecs) :
  OnlyAttributesChange a b -> OnlyAttributesChange b c ->
  OnlyAttributesChange a c.
Proof.
  intros Hab Hbc r. specialize (Hab r). specialize (Hbc r).
  destruct (a !! r) as [x|], (b !! r) as [y|], (c !! r) as [z|]; try done.
  destruct Hab as (? & ? & ? & ? & ? & Hg1), Hbc as (? & ? & ? & ? & ? & Hg2).
  repeat split; try congruence. by eapply attributesGrow_trans.
Qed.

Lemma copyAttributes_grow (shared : string)
    (rootAttributes otherAttributes : gmap string PgCodecAttribute) :
  AttributesGrow (Some otherAttributes)
    (Some (copyAttributes shared (map_to_list rootAttributes) otherAttributes)).
Proof.
  intros colName. rewrite copyAttributes_from_root.
  destruct (rootAttributes !! colName) as [colSpec|],
    (otherAttributes !! colName) as [existing|]; by repeat split.
Qed.

Lemma inheritSubtype_frame (serviceName resourceSchemaName : string)
    (pgClass : PgClass) (rootCodec : CodecRef) (codecs codecs' : Codecs)
    (spec : PgCodecPolymorphismRelationalTypeSpec) :
  inheritSubtype utils info serviceName resourceSchemaName pgClass rootCodec
                 codecs spec = Ok codecs' ->
  OnlyAttributesChange codecs codecs'.
Proof.
  unfold inheritSubtype.
  destruct (parseDatabaseIdentifier _ _ _ _) as [[schemaName tableName]|];
    [| done].
  destruct (getClassByName _ _ _ _) as [pgRelatedClass|]; [| done].
  destruct (getCodecFromClass _ _ _) as [otherCodec|];
    [| intros [= <-]; apply onlyAttributesChange_refl].
  destruct (codecs !! otherCodec) as [other|] eqn:Hother;
    [| intros [= <-]; apply onlyAttributesChange_refl].
  destruct (attributes other) as [otherAttributes|] eqn:Hattrs;
    [| intros [= <-]; apply onlyAttributesChange_refl].
  destruct (sharedRelationNameOf _ _ _ _) as [shared|]; [| done]. cbn.
  destruct (attributesOf codecs rootCodec) as [rootAttributes|]; [| done].
  intros [= <-] r. destruct (decide (otherCodec = r)) as [<- | Hne].
  - rewrite Hother, lookup_insert_eq. cbn. repeat split.
    rewrite Hattrs. apply copyAttributes_grow.
  - rewrite lookup_insert_ne by done. apply onlyAttributesChange_refl.
Qed.

Lemma inheritRoot_frame (codecs codecs' : Codecs) (resource : PgResourceOptions) :
  inheritRoot utils info codecs resource = Ok codecs' ->
  OnlyAttributesChange codecs codecs'.
Proof.
  unfold inheritRoot.
  destruct (_ || _); [intros [= <-]; apply onlyAttributesChange_refl |].
  destruct (pgOf _) as [ext|]; [| intros [= <-]; apply onlyAttributesChange_refl].
  destruct (getClassByName _ _ _ _) as [pgClass|];
    [| intros [= <-]; apply onlyAttributesChange_refl].
  destruct (polymorphismOf _ _) as [[| typeAttributes types |]|];
    try (intros [= <-]; apply onlyAttributesChange_refl).
  apply (forEachR_invariant _ (OnlyAttributesChange codecs));
    [| apply onlyAttributesChange_refl].
  intros s1 spec s2 _ H1 Hb. eapply onlyAttributesChange_trans; [exact H1 |].
  by eapply inheritSubtype_frame.
Qed.

(** X8. What the finalize hook leaves alone. When it returns normally, the
    codecs are the ones it was given, under the same references, and each is
    unchanged up to its attributes; no attribute has been removed, an
    attribute that was there has changed in [identicalVia] at most, and every
    attribute that was added has a [via]. *)
Theorem finalize_only_inherits
    (pgResources : JsObject.obj PgResourceOptions) (codecs codecs' : Codecs) :
  pgRegistry_PgRegistryBuilder_finalize utils info pgResources codecs
  = Ok codecs' ->
  OnlyAttributesChange codecs codecs'.
Proof.
  unfold pgRegistry_PgRegistryBuilder_finalize.
  apply (forEachR_invariant _ (OnlyAttributesChange codecs));
    [| apply onlyAttributesChange_refl].
  intros s1 resource s2 _ H1 Hb. eapply onlyAttributesChange_trans; [exact H1 |].
  by eapply inheritRoot_frame.
Qed.

(** *** What the registry hook leaves alone *)

Section OneRegistry.

Context (registry : PgRegistry).

Lemma refsGrow_refl (r : CodecRef) (a : option (gmap string PgCodecRef)) :
  RefsGrow utils info registry r a a.
Proof.
  split; [done |]. intros refName.
  destruct (default ∅ a !! refName); [by left | done].
Qed.

Lemma refsGrow_trans (r : CodecRef) (a b c : option (gmap string PgCodecRef)) :
  RefsGrow utils info registry r a b -> RefsGrow utils info registry r b c ->
  RefsGrow utils info registry r a c.
Proof.
  intros [Hab1 Hab2] [Hbc1 Hbc2]. split; [by auto |]. intros refName.
  specialize (Hab2 refName). specialize (Hbc2 refName).
  destruct (default ∅ c !! refName) as [ref|].
  - destruct Hbc2 as [Hb | Hs]; [| by right]. by rewrite Hb in Hab2.
  - by rewrite Hbc2 in Hab2.
Qed.

Lemma onlyRefsChange_refl (codecs : Codecs) :
  OnlyRefsChange utils info registry codecs codecs.
Proof.
  intros r. destruct (codecs !! r); [| done].
  repeat split; try done. intros refName.
  destruct (default ∅ _ !! refName); [by left | done].
Qed.

Lemma onlyRefsChange_trans (a b c : Codecs) :
  OnlyRefsChange utils info registry a b ->
  OnlyRefsChange utils info registry b c ->
  OnlyRefsChange utils info registry a c.
Proof.
  intros Hab Hbc r. specialize (Hab r). specialize (Hbc r).
  destruct (a !! r) as [x|], (b !! r) as [y|], (c !! r) as [z|]; try done.
  destruct Hab as (? & ? & ? & ? & ? & Hg1), Hbc as (? & ? & ? & ? & ? & Hg2).
  split; [congruence |]. split; [congruence |]. split; [congruence |].
  split; [congruence |]. split; [congruence |]. by eapply refsGrow_trans.
Qed.

(** One ref written. *)
Lemma writeRef_frame (codecs : Codecs) (k : CodecRef) (c : PgCodec)
    (refName : string) (ref : PgCodecRef) :
  codecs !! k = Some c ->
  SynthesizedFor utils info registry k refName ref ->
  OnlyRefsChange utils info registry codecs
    (<[k := writeRef refName ref c]> codecs).
Proof.
  intros Hk Hsynth r. destruct (decide (k = r)) as [<- | Hne].
  - rewrite Hk, lookup_insert_eq. cbn. repeat split; try done.
    intros n. cbn [from_option id]. destruct (decide (refName = n)) as [<- | Hn].
    + rewrite lookup_insert_eq. by right.
    + rewrite lookup_insert_ne by done.
      destruct (default ∅ (refs c) !! n); [by left | done].
  - rewrite lookup_insert_ne by done. apply onlyRefsChange_refl.
Qed.

Lemma synthesizeSubtype_frame (ext : PgExtension) (pgClass : PgClass)
    (resource : PgResource) (typeAttributes : list string)
    (types : JsObject.obj PgCodecPolymorphismRelationalTypeSpec)
    (codecs codecs' : Codecs) (spec : PgCodecPolymorphismRelationalTypeSpec) :
  In resource (JsObject.values (pgResources registry)) ->
  pgOf (res_extensions resource) = Some ext ->
  getClassByName (helpers info) (pg_serviceName ext) (schemaName ext)
                 (pg_name ext) = Some pgClass ->
  polymorphism (res_codec resource)
  = Some (PolyRelational typeAttributes types) ->
  In spec (JsObject.values types) ->
  synthesizeSubtype utils info (pg_serviceName ext) (schemaName ext) pgClass
    resource (pgRelations registry !! name (res_codec resource)) codecs spec
  = Ok codecs' ->
  OnlyRefsChange utils info registry codecs codecs'.
Proof.
  intros Hres Hext Hclass Hpoly Hspec. unfold synthesizeSubtype.
  destruct (parseDatabaseIdentifier _ _ _ _) as [[sch tbl]|] eqn:Hparse;
    [| done].
  destruct (getClassByName (helpers info) (pg_serviceName ext) sch tbl)
    as [pgRelatedClass|] eqn:Hrelated; [| done].
  destruct (getCodecFromClass _ _ _) as [otherCodec|];
    [| intros [= <-]; apply onlyRefsChange_refl].
  destruct (sharedRelationNameOf _ _ _ _) as [shared|] eqn:Hshared; [| done].
  cbn.
  destruct (pgRelations registry !! name (res_codec resource))
    as [relations|] eqn:Hrels; [| done].
  apply (forEachR_invariant _ (OnlyRefsChange utils info registry codecs));
    [| apply onlyRefsChange_refl].
  intros s1 [relationName relationSpec] s2 Hentry H1 Hb.
  eapply onlyRefsChange_trans; [exact H1 |].
  unfold installRef in Hb.
  destruct (getResourceOptions _ _ _) as [options|] eqn:Hopts; [| done].
  destruct (s1 !! ro_codec options) as [c|] eqn:Hc; [| done].
  injection Hb as <-. apply writeRef_frame; [done |].
  exists resource, ext, pgClass, typeAttributes, types, spec, pgRelatedClass,
         shared, relations, relationSpec.
  repeat split; try done.
  - unfold relatedClassOf. by rewrite Hparse.
  - unfold resourceCodecOf. by rewrite Hopts.
  - apply list_elem_of_In in Hentry. by apply elem_of_map_to_list in Hentry.
Qed.

Lemma synthesizeRoot_frame (codecs codecs' : Codecs) (resource : PgResource) :
  In resource (JsObject.values (pgResources registry)) ->
  synthesizeRoot utils info registry codecs resource = Ok codecs' ->
  OnlyRefsChange utils info registry codecs codecs'.
Proof.
  intros Hres. unfold synthesizeRoot.
  destruct (_ || _); [intros [= <-]; apply onlyRefsChange_refl |].
  destruct (pgOf _) as [ext|] eqn:Hext;
    [| intros [= <-]; apply onlyRefsChange_refl].
  destruct (getClassByName _ _ _ _) as [pgClass|] eqn:Hclass;
    [| intros [= <-]; apply onlyRefsChange_refl].
  destruct (polymorphism (res_codec resource))
    as [[| typeAttributes types |]|] eqn:Hpoly;
    try (intros [= <-]; apply onlyRefsChange_refl).
  apply (forEachR_invariant _ (OnlyRefsChange utils info registry codecs));
    [| apply onlyRefsChange_refl].
  intros s1 spec s2 Hspec H1 Hb. eapply onlyRefsChange_trans; [exact H1 |].
  by eapply synthesizeSubtype_frame.
Qed.

End OneRegistry.

Lemma pgRegistry_PgRegistry_frame (registry : PgRegistry)
    (codecs codecs' : Codecs) :
  pgRegistry_PgRegistry utils info registry codecs = Ok codecs' ->
  OnlyRefsChange utils info registry codecs codecs'.
Proof.
  unfold pgRegistry_PgRegistry.
  apply (forEachR_invariant _ (OnlyRefsChange utils info registry codecs));
    [| apply onlyRefsChange_refl].
  intros s1 resource s2 Hres H1 Hb. eapply onlyRefsChange_trans; [exact H1 |].
  by eapply synthesizeRoot_frame.
Qed.

(** X9. What the registry hook leaves alone. When it returns normally, the
    codecs are the ones it was given, under the same references, and each is
    unchanged up to its refs; no ref has been removed, and every ref of a
    codec is the one that was there or the ref synthesized for that codec:
    the codec is the resource codec of a table declared as a subtype of a
    relational root resource of the registry, the ref stands under the name
    of a relation of that root and goes through the shared relation. *)
Theorem registry_only_adds_refs (registry : PgRegistry)
    (codecs codecs' : Codecs) :
  pgRegistry_PgRegistry utils info registry codecs = Ok codecs' ->
  OnlyRefsChange utils info registry codecs codecs'.
Proof. apply pgRegistry_PgRegistry_frame. Qed.

(** *** Running the registry hook again *)

Lemma forEachR_simulation {E S X} (R : S -> S -> Prop)
    (body : S -> X -> Result E S) (xs : list X) (c c' d : S) :
  (forall x c c1 d, In x xs -> R c d -> body c x = Ok c1 ->
                    exists d1, body d x = Ok d1 /\ R c1 d1) ->
  R c d -> forEachR body xs c = Ok c' ->
  exists d', forEachR body xs d = Ok d' /\ R c' d'.
Proof.
  revert c d. induction xs as [|x xs IH]; intros c d Hstep HR; cbn [forEachR].
  - intros [= <-]. by exists d.
  - destruct (body c x) as [c1|e] eqn:Hb; [| done]. cbn. intros Hrest.
    destruct (Hstep x c c1 d (or_introl eq_refl) HR Hb) as (d1 & -> & HR1).
    cbn. apply (IH c1 d1); [| done | done].
    intros y c2 c3 d2 Hy. apply Hstep. by right.
Qed.

Section SecondRun.

Context (registry : PgRegistry) (final : Codecs).

Lemma installRef_agree (resource : PgResource) (shared : string)
    (options : option PgResourceOptions) (entry : string * PgCodecRelation)
    (c c1 d : Codecs) :
  RunsAgree final c d ->
  installRef info resource shared options c entry = Ok c1 ->
  exists d1, installRef info resource shared options d entry = Ok d1
             /\ RunsAgree final c1 d1.
Proof.
  intros HR. unfold installRef. destruct entry as [relationName relationSpec].
  destruct options as [options|]; [| done].
  pose proof (HR (ro_codec options)) as Hk.
  destruct (c !! ro_codec options) as [x|] eqn:Hx; [| done].
  destruct (d !! ro_codec options) as [y|] eqn:Hy; [| done].
  intros [= <-]. eexists. split; [done |].
  intros r. destruct (decide (ro_codec options = r)) as [<- | Hne].
  - rewrite !lookup_insert_eq. cbn.
    destruct Hk as (? & ? & ? & ? & ? & _ & Hrefs).
    repeat split; try done; [by left |].
    intros n. cbn [from_option id].
    destruct (decide (relationName = n)) as [<- | Hn].
    + left. by rewrite !lookup_insert_eq.
    + rewrite !lookup_insert_ne by done. apply Hrefs.
  - rewrite !lookup_insert_ne by done. apply HR.
Qed.

Lemma synthesizeSubtype_agree (serviceName resourceSchemaName : string)
    (pgClass : PgClass) (resource : PgResource)
    (relations : option (gmap string PgCodecRelation))
    (spec : PgCodecPolymorphismRelationalTypeSpec) (c c1 d : Codecs) :
  RunsAgree final c d ->
  synthesizeSubtype utils info serviceName resourceSchemaName pgClass resource
                    relations c spec = Ok c1 ->
  exists d1,
    synthesizeSubtype utils info serviceName resourceSchemaName pgClass
                      resource relations d spec = Ok d1
    /\ RunsAgree final c1 d1.
Proof.
  intros HR. unfold synthesizeSubtype.
  destruct (parseDatabaseIdentifier _ _ _ _) as [[sch tbl]|]; [| done].
  destruct (getClassByName _ _ _ _) as [pgRelatedClass|]; [| done].
  destruct (getCodecFromClass _ _ _) as [otherCodec|];
    [| intros [= <-]; by exists d].
  destruct (sharedRelationNameOf _ _ _ _) as [shared|]; [| done]. cbn.
  destruct relations as [relations|]; [| done].
  apply forEachR_simulation; [| done].
  intros entry c2 c3 d2 _. apply installRef_agree.
Qed.

Lemma synthesizeRoot_agree (resource : PgResource) (c c1 d : Codecs) :
  RunsAgree final c d ->
  synthesizeRoot utils info registry c resource = Ok c1 ->
  exists d1, synthesizeRoot utils info registry d resource = Ok d1
             /\ RunsAgree final c1 d1.
Proof.
  intros HR. unfold synthesizeRoot.
  destruct (_ || _); [intros [= <-]; by exists d |].
  destruct (pgOf _) as [ext|]; [| intros [= <-]; by exists d].
  destruct (getClassByName _ _ _ _) as [pgClass|];
    [| intros [= <-]; by exists d].
  destruct (polymorphism (res_codec resource))
    as [[| typeAttributes types |]|];
    try (intros [= <-]; by exists d).
  apply forEachR_simulation; [| done].
  intros spec c2 c3 d2 _. apply synthesizeSubtype_agree.
Qed.

End SecondRun.

Lemma refAt_default (codecs : Codecs) (r : CodecRef) (c : PgCodec)
    (refName : string) :
  codecs !! r = Some c -> refAt codecs r refName = default ∅ (refs c) !! refName.
Proof. unfold refAt. intros ->. by destruct (refs c). Qed.

(** At the end of the two runs. *)
Lemma runsAgree_final (final second : Codecs) :
  RunsAgree final final second -> second = final.
Proof.
  intros HR. apply map_eq. intros r. specialize (HR r).
  destruct (final !! r) as [x|] eqn:Hx, (second !! r) as [y|]; try done.
  destruct HR as (Hname & Hattrs & Hpoly & Hanon & Hext & Hsome & Hrefs).
  assert (Hnone : refs y = None <-> refs x = None).
  { destruct Hsome as [H | (z & [= <-] & H)]; exact H. }
  assert (Hlook : forall n, default ∅ (refs y) !! n = default ∅ (refs x) !! n).
  { intros n. destruct (Hrefs n) as [H | H]; [done |].
    by rewrite H, (refAt_default _ _ _ _ Hx). }
  assert (Hr : refs y = refs x).
  { destruct (refs y) as [ry|], (refs x) as [rx|].
    - f_equal. apply map_eq. exact Hlook.
    - by destruct (proj2 Hnone eq_refl).
    - by destruct (proj1 Hnone eq_refl).
    - done. }
  destruct x, y. cbn in *. by subst.
Qed.

(** The codecs a run starts from, against the codecs it ends with. *)
Lemma runsAgree_start (registry : PgRegistry) (codecs final : Codecs) :
  OnlyRefsChange utils info registry codecs final ->
  RunsAgree final codecs final.
Proof.
  intros Hframe r. specialize (Hframe r).
  destruct (codecs !! r) as [x|], (final !! r) as [y|] eqn:Hy; try done.
  destruct Hframe as (? & ? & ? & ? & ? & _).
  repeat split; try done.
  - right. by exists y.
  - intros n. right. by rewrite (refAt_default _ _ _ _ Hy).
Qed.

(** X10. Running the registry hook on its own result changes nothing: when
    the hook returns normally, a second run on the codecs it has left
    returns normally too, and leaves them as they are. *)
Theorem registry_hook_idempotent (registry : PgRegistry)
    (codecs codecs' : Codecs) :
  pgRegistry_PgRegistry utils info registry codecs = Ok codecs' ->
  pgRegistry_PgRegistry utils info registry codecs' = Ok codecs'.
Proof.
  intros Hrun.
  pose proof (runsAgree_start registry _ _
                (pgRegistry_PgRegistry_frame _ _ _ Hrun)) as Hstart.
  unfold pgRegistry_PgRegistry in *.
  destruct (forEachR_simulation (RunsAgree codecs')
              (synthesizeRoot utils info registry)
              (JsObject.values (pgResources registry)) codecs codecs' codecs')
    as (d' & Hsecond & Hagree); [| done | done |].
  - intros resource c c1 d _. apply synthesizeRoot_agree.
  - rewrite Hsecond. f_equal. by apply runsAgree_final.
Qed.

(** *** Registries without relational roots *)

Lemma forEachR_skip {E S X} (body : S -> X -> Result E S) (xs : list X) (s : S) :
  (forall x, In x xs -> body s x = Ok s) -> forEachR body xs s = Ok s.
Proof.
  induction xs as [|x xs IH]; intros Hskip; [done |].
  cbn [forEachR]. rewrite (Hskip x (or_introl eq_refl)). cbn.
  apply IH. intros y Hy. apply Hskip. by right.
Qed.

(** X11. Without relational roots the two registry hooks do nothing: when
    no resource has a codec in mode [relational], each of them returns the
    codecs it was given, and neither can fail. *)
Theorem registry_hooks_skip_other_roots
    (pgResourceOptions : JsObject.obj PgResourceOptions)
    (registry : PgRegistry) (codecs : Codecs) :
  ((forall resource, In resource (JsObject.values pgResourceOptions) ->
      isRelational (polymorphismOf codecs (ro_codec resource)) = false) ->
   pgRegistry_PgRegistryBuilder_finalize utils info pgResourceOptions codecs
   = Ok codecs)
  /\ ((forall resource, In resource (JsObject.values (pgResources registry)) ->
         isRelational (polymorphism (res_codec resource)) = false) ->
      pgRegistry_PgRegistry utils info registry codecs = Ok codecs).
Proof.
  split; intros Hplain.
  - apply forEachR_skip. intros resource Hin. specialize (Hplain _ Hin).
    unfold inheritRoot. destruct (_ || _); [done |].
    destruct (pgOf _); [| done]. destruct (getClassByName _ _ _ _); [| done].
    by destruct (polymorphismOf _ _) as [[| |]|].
  - apply forEachR_skip. intros resource Hin. specialize (Hplain _ Hin).
    unfold synthesizeRoot. destruct (_ || _); [done |].
    destruct (pgOf _); [| done]. destruct (getClassByName _ _ _ _); [| done].
    by destruct (polymorphism _) as [[| |]|].
Qed.

End RegistryFrame.

(** *** The frame of the registry hooks on the [vehicle] hierarchy *)

Section RegistryFrameExamples.

Import Example.

Lemma finalize_only_inherits_witness :
  exists codecs',
    pgRegistry_PgRegistryBuilder_finalize utils info
      [("vehicle", vehicleOptions)] registryCodecs = Ok codecs'
    /\ OnlyAttributesChange registryCodecs codecs'.
Proof.
  destruct (pgRegistry_PgRegistryBuilder_finalize utils info
              [("vehicle", vehicleOptions)] registryCodecs)
    as [codecs'|e] eqn:Hrun; [| by vm_compute in Hrun].
  exists codecs'. split; [reflexivity |].
  exact (finalize_only_inherits utils info _ _ _ Hrun).
Defined.

Lemma registry_only_adds_refs_witness :
  exists codecs',
    pgRegistry_PgRegistry utils info registry registryCodecs = Ok codecs'
    /\ OnlyRefsChange utils info registry registryCodecs codecs'.
Proof.
  destruct (pgRegistry_PgRegistry utils info registry registryCodecs)
    as [codecs'|e] eqn:Hrun; [| by vm_compute in Hrun].
  exists codecs'. split; [reflexivity |].
  exact (registry_only_adds_refs utils info _ _ _ Hrun).
Defined.

Lemma registry_hook_idempotent_witness :
  exists codecs',
    pgRegistry_PgRegistry utils info registry registryCodecs = Ok codecs'
    /\ pgRegistry_PgRegistry utils info registry codecs' = Ok codecs'.
Proof.
  destruct (pgRegistry_PgRegistry utils info registry registryCodecs)
    as [codecs'|e] eqn:Hrun; [| by vm_compute in Hrun].
  exists codecs'. split; [reflexivity |].
  exact (registry_hook_idempotent utils info _ _ _ Hrun).
Defined.

(** A registry whose only resource is the plain [person]. *)
Lemma registry_hooks_skip_other_roots_witness :
  pgRegistry_PgRegistry utils info
    {| pgResources := [("person", personResource)]; pgRelations := ∅ |}
    registryCodecs
  = Ok registryCodecs.
Proof.
  apply (proj2 (registry_hooks_skip_other_roots utils info JsObject.empty
                  {| pgResources := [("person", personResource)];
                     pgRelations := ∅ |} registryCodecs)).
  intros resource [<- | []]. reflexivity.
Defined.

End RegistryFrameExamples.

(** ** The schema hooks, beyond the claims *)

Section SchemaMore.

Context (build : Build).

(** *** [GraphQLObjectType_interfaces] *)

Lemma implementedTypes_cons (interfaceName : TagAtom) (names : list TagAtom) :
  implementedTypes build (interfaceName :: names)
  = match getTypeByName build (String_ interfaceName) with
    | Some type =>
        if isInterfaceType type then type :: implementedTypes build names
        else implementedTypes build names
    | None => implementedTypes build names
    end.
Proof.
  unfold implementedTypes. cbn [omap list_omap].
  destruct (getTypeByName build (String_ interfaceName)) as [type|]; [| done].
  rewrite filter_cons. destruct (isInterfaceType type) eqn:Hif.
  - by rewrite decide_True by done.
  - by rewrite decide_False by done.
Qed.

Lemma implementErrors_cons (interfaceName : TagAtom) (names : list TagAtom) :
  implementErrors build (interfaceName :: names)
  = match getTypeByName build (String_ interfaceName) with
    | Some type =>
        if isInterfaceType type then implementErrors build names
        else NotAnInterfaceType (String_ interfaceName) type
             :: implementErrors build names
    | None => TypeNotFound (String_ interfaceName) :: implementErrors build names
    end.
Proof.
  unfold implementErrors. cbn [omap list_omap].
  destruct (getTypeByName build (String_ interfaceName)) as [type|]; [| done].
  by destruct (isInterfaceType type).
Qed.

Lemma implementInterface_from (names : list TagAtom)
    (interfaces : list (option GraphQLNamedType)) (errors : list ConsoleError) :
  foldl (implementInterface build) (interfaces, errors) names
  = (interfaces ++ map Some (implementedTypes build names),
     errors ++ implementErrors build names).
Proof.
  revert interfaces errors.
  induction names as [|interfaceName names IH]; intros interfaces errors.
  - cbn. by rewrite !app_nil_r.
  - cbn [foldl]. unfold implementInterface at 2.
    rewrite implementedTypes_cons, implementErrors_cons.
    destruct (getTypeByName build (String_ interfaceName)) as [type|].
    + destruct (isInterfaceType type); cbn [negb]; rewrite IH; cbn [map];
        by rewrite <- app_assoc.
    + rewrite IH. by rewrite <- app_assoc.
Qed.

Lemma attachRootInterface_from (selfName : string) (codecs : list PgCodec)
    (interfaces : list (option GraphQLNamedType)) :
  foldl (attachRootInterface build selfName) interfaces codecs
  = interfaces
    ++ map (fun codec => getTypeByName build (tableType build codec))
           (filter (fun codec => declaresType codec selfName = true) codecs).
Proof.
  revert interfaces. induction codecs as [|codec codecs IH]; intros interfaces.
  - cbn. by rewrite app_nil_r.
  - cbn [foldl]. rewrite IH, filter_cons. unfold attachRootInterface.
    destruct (declaresType codec selfName) eqn:Hd.
    + rewrite decide_True by done. cbn [map]. by rewrite <- app_assoc.
    + by rewrite decide_False by done.
Qed.

(** X12. What the hook adds to the interfaces of an object type. The
    interfaces it was given stay in front. After them come the types found
    under the names of the [implements] tag that are interface types - the
    tag counts for a class type only; a name that resolves to no type, or to
    a type of another kind, is reported and skipped, so every name gives one
    interface or one report. Last come, unchecked, the types found under the
    table type names of the relational roots with attributes that declare
    the object type. *)
Theorem object_type_interfaces (interfaces : list (option GraphQLNamedType))
    (context : ObjectContext) :
  let names := interfaceNamesOf context in
  let implemented := implementedTypes build names in
  let reported := implementErrors build names in
  GraphQLObjectType_interfaces interfaces build context
  = (interfaces
     ++ map Some implemented
     ++ map (fun codec => getTypeByName build (tableType build codec))
            (rootsDeclaring build (ctx_SelfName context)),
     reported)
  /\ (forall type, type ∈ implemented ->
        isInterfaceType type = true
        /\ exists interfaceName,
             interfaceName ∈ names
             /\ getTypeByName build (String_ interfaceName) = Some type)
  /\ length implemented + length reported = length names.
Proof.
  intros names implemented reported. split; [| split].
  - unfold GraphQLObjectType_interfaces, rootsDeclaring.
    assert (Hfirst :
      (if ctx_isPgClassType context
       then foldl (implementInterface build) (interfaces, [])
                  (implementsOf (ctx_pgCodec context))
       else (interfaces, []))
      = (interfaces ++ map Some implemented, reported)).
    { unfold implemented, reported, names, interfaceNamesOf.
      destruct (ctx_isPgClassType context).
      - by rewrite implementInterface_from.
      - cbn. by rewrite app_nil_r. }
    rewrite Hfirst. cbn [fst snd].
    by rewrite attachRootInterface_from, <- app_assoc.
  - intros type Hin. unfold implemented, implementedTypes in Hin.
    rewrite list_elem_of_filter in Hin. destruct Hin as [Hif Hin].
    split; [done |]. apply list_elem_of_omap in Hin as (n & Hn & Hget).
    by exists n.
  - unfold implemented, reported.
    induction names as [|n ns IH]; [done |].
    rewrite implementedTypes_cons, implementErrors_cons.
    destruct (getTypeByName build (String_ n)) as [type|].
    + cbv zeta in IH. destruct (isInterfaceType type); cbn [length]; lia.
    + cbv zeta in IH. cbn [length]. lia.
Qed.

(** *** [init] *)

Lemma scan_calls (codecs : list PgCodec) (calls : list BuildCall)
    (unions : UnionsToRegister) :
  (foldl (scanCodec build) (calls, unions) codecs).1
  = calls
    ++ flat_map (fun codec => match attributes codec with
                              | Some _ => detectInterface build codec
                              | None => []
                              end) codecs.
Proof.
  revert calls unions. induction codecs as [|codec codecs IH];
    intros calls unions.
  - cbn. by rewrite app_nil_r.
  - cbn [foldl flat_map]. unfold scanCodec at 2.
    destruct (attributes codec); rewrite IH; [| done].
    by rewrite <- app_assoc.
Qed.

Lemma interfaceCalls_app (calls1 calls2 : list BuildCall) :
  interfaceCalls (calls1 ++ calls2)
  = interfaceCalls calls1 ++ interfaceCalls calls2.
Proof. unfold interfaceCalls. apply omap_app. Qed.

Lemma objectCalls_app (calls1 calls2 : list BuildCall) :
  objectCalls (calls1 ++ calls2) = objectCalls calls1 ++ objectCalls calls2.
Proof. unfold objectCalls. apply omap_app. Qed.

Lemma union_registrations (unions : UnionsToRegister) :
  interfaceCalls (map (fun '(unionName, codecs) =>
                         RegisterUnionType unionName codecs)
                      (JsObject.entries unions)) = []
  /\ objectCalls (map (fun '(unionName, codecs) =>
                         RegisterUnionType unionName codecs)
                      (JsObject.entries unions)) = [].
Proof.
  unfold JsObject.entries. induction unions as [|[u cs] unions [IH1 IH2]]; done.
Qed.

Lemma single_registrations (codec : PgCodec)
    (entries : list (string * PgCodecPolymorphismSingleTypeSpec))
    (calls : list BuildCall) :
  calls
  = flat_map
      (fun '(typeIdentifier, spec) =>
         [ RegisterObjectType (st_name spec) typeIdentifier
             (tableType build codec) (st_attributes spec);
           RegisterCursorConnection (st_name spec)
             (connectionType build (st_name spec))
             (edgeType build (st_name spec))
             (pgForbidSetofFunctionsToReturnNull build) ])
      entries ->
  interfaceCalls calls = []
  /\ objectCalls calls
     = map (fun '(typeIdentifier, spec) =>
              (st_name spec, typeIdentifier, tableType build codec))
           entries.
Proof.
  intros ->.
  induction entries as [|[typeIdentifier spec] entries [IH1 IH2]]; [done |].
  cbn in *. split; [done |]. by f_equal.
Qed.

(** The calls of the first recoverable block. *)
Lemma detectInterface_calls (codec : PgCodec) :
  attributes codec <> None ->
  interfaceCalls (detectInterface build codec)
  = (if registersInterface build codec then [tableType build codec] else [])
  /\ objectCalls (detectInterface build codec)
     = if registersInterface build codec
       then map (fun '(typeIdentifier, spec) =>
                   (st_name spec, typeIdentifier, tableType build codec))
                (singleTypesOf codec)
       else [].
Proof.
  intros Hattrs. unfold detectInterface, registersInterface, singleTypesOf.
  destruct (attributes codec) as [a|]; [| done].
  destruct (polymorphism codec) as [poly|]; [| done].
  destruct (pgCodecMatches build codec "table"); cbn [negb orb andb]; [| done].
  destruct (isAnonymous codec); cbn [negb andb]; [done |].
  destruct (pgCodecMatches build codec "select"); [| done].
  destruct poly as [common ta types | ta types |]; [| done | done].
  rewrite interfaceCalls_app, objectCalls_app.
  destruct (single_registrations codec (JsObject.entries types) _ eq_refl)
    as [-> ->].
  done.
Qed.

Lemma scanned_calls (codecs : list PgCodec) :
  let calls :=
    flat_map (fun codec => match attributes codec with
                           | Some _ => detectInterface build codec
                           | None => []
                           end) codecs in
  interfaceCalls calls
  = map (tableType build)
        (filter (fun codec => registersInterface build codec = true) codecs)
  /\ objectCalls calls
     = flat_map (fun codec =>
                   map (fun '(typeIdentifier, spec) =>
                          (st_name spec, typeIdentifier, tableType build codec))
                       (singleTypesOf codec))
                (filter (fun codec => registersInterface build codec = true)
                        codecs).
Proof.
  induction codecs as [|codec codecs [IH1 IH2]]; [done |].
  cbn [flat_map]. rewrite interfaceCalls_app, objectCalls_app, IH1, IH2.
  rewrite filter_cons.
  destruct (attributes codec) as [a|] eqn:Hattrs.
  - destruct (detectInterface_calls codec) as [-> ->]; [by rewrite Hattrs |].
    destruct (registersInterface build codec).
    + by rewrite decide_True by done.
    + by rewrite decide_False by done.
  - assert (Hno : registersInterface build codec = false)
      by (unfold registersInterface; by rewrite Hattrs).
    rewrite Hno. by rewrite decide_False by done.
Qed.

(** X13. What the [init] hook registers besides the unions. It registers
    one interface type, under its table type name, for every polymorphic,
    non-anonymous codec with attributes that matches the behaviors [table]
    and [select], in the order of the codecs - whatever the mode. It
    registers object types for the single-mode ones among them only: one for
    each entry of [types], under the entry's name, with the entry's
    discriminator value and the codec's interface. *)
Theorem init_registrations :
  interfaceCalls (init build)
  = map (tableType build)
        (filter (fun codec => registersInterface build codec = true)
                (pgCodecMetaLookup_keys build))
  /\ forall typeName typeIdentifier interfaceTypeName,
       (typeName, typeIdentifier, interfaceTypeName) ∈ objectCalls (init build)
       <-> exists codec spec,
             codec ∈ pgCodecMetaLookup_keys build
             /\ registersInterface build codec = true
             /\ (typeIdentifier, spec) ∈ singleTypesOf codec
             /\ typeName = st_name spec
             /\ interfaceTypeName = tableType build codec.
Proof.
  unfold init, scanCodecs.
  pose proof (scan_calls (pgCodecMetaLookup_keys build) [] JsObject.empty)
    as Hcalls.
  destruct (foldl _ _ _) as [calls unions]. cbn [fst app] in Hcalls.
  rewrite Hcalls, interfaceCalls_app, objectCalls_app.
  destruct (union_registrations unions) as [-> ->].
  destruct (scanned_calls (pgCodecMetaLookup_keys build)) as [-> ->].
  rewrite !app_nil_r. split; [done |].
  intros typeName typeIdentifier interfaceTypeName.
  rewrite list_elem_of_In, in_flat_map. split.
  - intros (codec & Hcodec & Hentry).
    apply list_elem_of_In, list_elem_of_filter in Hcodec as [Hreg Hcodec].
    apply in_map_iff in Hentry as ([tid spec] & [= <- <- <-] & Hin).
    apply list_elem_of_In in Hin. by exists codec, spec.
  - intros (codec & spec & Hcodec & Hreg & Hin & -> & ->).
    exists codec. split.
    + apply list_elem_of_In, list_elem_of_filter. done.
    + apply in_map_iff. exists (typeIdentifier, spec).
      by apply list_elem_of_In in Hin.
Qed.

(** *** [GraphQLSchema_types] *)

(** X14. What the hook adds to the types of the schema. The types it was
    given stay in front, and what it adds is exactly what [getTypeByName]
    returns - a type or nothing - for the names of the types declared by the
    polymorphism in the scope of a registered interface type. *)
Theorem schema_types_only_forced (types : list (option GraphQLNamedType)) :
  exists forced,
    GraphQLSchema_types types build = types ++ forced
    /\ forall t, In t forced <-> ForcedBy build t.
Proof.
  exists (flat_map (forceDeclaredTypes build [])
                   (JsObject.values (getAllTypes build))).
  split; [apply schema_types_from |].
  intros t. rewrite in_flat_map. split.
  - intros (type & Hin & Ht). unfold forceDeclaredTypes in Ht.
    destruct (isInterfaceType type) eqn:Hif; [| done].
    destruct (scopeByType build type) as [scope|] eqn:Hscope; [| done].
    destruct (pgPolymorphism scope) as [poly|] eqn:Hpoly; [| done].
    rewrite push_all in Ht. cbn [app] in Ht.
    apply in_map_iff in Ht as (typeName & <- & Hname).
    by exists type, scope, poly, typeName.
  - intros (type & scope & poly & typeName & Hin & Hif & Hscope & Hpoly
            & Hname & ->).
    exists type. split; [done |].
    unfold forceDeclaredTypes. rewrite Hif, Hscope, Hpoly, push_all.
    by apply in_map.
Qed.

End SchemaMore.

(** ** Ordering by the primary key *)

Section OrderByPrimaryKeyFacts.

Import OrderByPrimaryKey.

Lemma orderSpecs_app (calls1 calls2 : list PlanCall) :
  orderSpecs (calls1 ++ calls2) = orderSpecs calls1 ++ orderSpecs calls2.
Proof. unfold orderSpecs. apply omap_app. Qed.

Lemma orderSpecs_OrderBy (specs : list OrderSpec) :
  orderSpecs (map OrderBy specs) = specs.
Proof. induction specs as [|spec specs IH]; [done |]. cbn. by f_equal. Qed.

Lemma orderByColumn_loop (pgCodec : PgTypeCodec) (alias : string)
    (d : Direction) (columnNames : list string) (calls calls' : list PlanCall) :
  forEachR (orderByColumn pgCodec alias d) columnNames calls = Ok calls' ->
  exists specs,
    calls' = calls ++ map OrderBy specs
    /\ OrdersBy pgCodec alias d columnNames specs.
Proof.
  revert calls. induction columnNames as [|c cs IH]; intros calls.
  - cbn. intros [= <-]. exists []. split; [by rewrite app_nil_r | constructor].
  - cbn [forEachR].
    destruct (orderByColumn pgCodec alias d calls c) as [calls1|e] eqn:Hb;
      [| done].
    unfold orderByColumn in Hb.
    destruct (default ∅ (columns pgCodec) !! c) as [column|] eqn:Hc; [| done].
    injection Hb as <-. cbn. intros (specs & -> & Hspecs)%IH.
    eexists (_ :: specs). split; [by rewrite <- app_assoc |].
    constructor; [by exists column | done].
Qed.

Lemma orderByColumn_loop_ok (pgCodec : PgTypeCodec) (alias : string)
    (d : Direction) (columnNames : list string) (calls : list PlanCall) :
  isOk (forEachR (orderByColumn pgCodec alias d) columnNames calls) = true
  <-> Forall (fun columnName =>
                default ∅ (columns pgCodec) !! columnName <> None)
             columnNames.
Proof.
  revert calls. induction columnNames as [|c cs IH]; intros calls.
  - cbn. split; [constructor | done].
  - cbn [forEachR]. rewrite Forall_cons.
    destruct (orderByColumn pgCodec alias d calls c) as [calls1|e] eqn:Hb;
      unfold orderByColumn in Hb;
      destruct (default ∅ (columns pgCodec) !! c) as [column|] eqn:Hc;
      try done; cbn.
    + rewrite IH. split; [by split | by intros [_ ?]].
    + split; [done | by intros [? _]].
Qed.

Lemma orderByColumn_loop_reverse (pgCodec : PgTypeCodec) (alias : string)
    (columnNames : list string) (calls : list PlanCall) :
  forEachR (orderByColumn pgCodec alias DESC) columnNames
           (map reverseCall calls)
  = match forEachR (orderByColumn pgCodec alias ASC) columnNames calls with
    | Ok calls' => Ok (map reverseCall calls')
    | Err e => Err e
    end.
Proof.
  revert calls. induction columnNames as [|c cs IH]; intros calls; [done |].
  cbn [forEachR].
  assert (Hstep : orderByColumn pgCodec alias DESC (map reverseCall calls) c
                  = match orderByColumn pgCodec alias ASC calls c with
                    | Ok calls' => Ok (map reverseCall calls')
                    | Err e => Err e
                    end).
  { unfold orderByColumn.
    destruct (default ∅ (columns pgCodec) !! c) as [column|]; [| done].
    by rewrite map_app. }
  rewrite Hstep.
  destruct (orderByColumn pgCodec alias ASC calls c) as [calls1|e]; [| done].
  cbn. apply IH.
Qed.

(** X15. What a plan function of the hook does to the plan it is given.
    When every captured key column is a column of the codec, it calls
    [orderBy] once per key column, in key order, with the column's codec,
    the fragment [alias.column] and its direction, and then
    [setOrderIsUnique]; it throws exactly when some key column is no column
    of the codec. The descending plan makes the calls of the ascending one
    with the direction reversed. *)
Theorem primary_key_plan_calls (pgCodec : PgTypeCodec)
    (primaryKeyColumns : list string) (alias : string) :
  (forall direction calls,
      plan pgCodec primaryKeyColumns direction alias = Ok calls ->
      calls = map OrderBy (orderSpecs calls) ++ [SetOrderIsUnique]
      /\ OrdersBy pgCodec alias direction primaryKeyColumns (orderSpecs calls))
  /\ (forall direction,
        isOk (plan pgCodec primaryKeyColumns direction alias) = true
        <-> Forall (fun columnName =>
                      default ∅ (columns pgCodec) !! columnName <> None)
                   primaryKeyColumns)
  /\ plan pgCodec primaryKeyColumns DESC alias
     = match plan pgCodec primaryKeyColumns ASC alias with
       | Ok calls => Ok (map reverseCall calls)
       | Err e => Err e
       end.
Proof.
  split; [| split].
  - intros d calls. unfold plan.
    destruct (forEachR _ _ _) as [calls0|e] eqn:Hloop; [| done].
    cbn. intros [= <-].
    apply orderByColumn_loop in Hloop as (specs & -> & Hspecs). cbn [app].
    rewrite orderSpecs_app, orderSpecs_OrderBy. cbn. by rewrite app_nil_r.
  - intros d. rewrite <- (orderByColumn_loop_ok pgCodec alias d _ []).
    unfold plan. by destruct (forEachR _ _ _).
  - unfold plan.
    pose proof (orderByColumn_loop_reverse pgCodec alias primaryKeyColumns [])
      as Hrev.
    cbn [map] in Hrev. rewrite Hrev. clear Hrev.
    destruct (forEachR _ _ _) as [calls|e]; cbn; [| done].
    by rewrite map_app.
Qed.

(** X16. When the hook adds the two sort values. It returns the values it
    was given unless the scope is that of a row sort enum with a named codec
    that has columns, and the first source of that very codec without
    parameters has a primary unique; other sources are not looked at. Then
    it extends the values it was given, untouched, by one value under each of
    the names of [PRIMARY_KEY_ASC] and [PRIMARY_KEY_DESC], both planned over
    that codec and the columns of that primary unique, in the direction of
    the name - and by the descending one alone should the two names be the
    same. *)
Theorem primary_key_sort_added {V} (values : V) (build : Build) (scope : Scope) :
  match GraphQLEnumType_values values build scope with
  | Returned values' =>
      values' = values
      /\ (isPgRowSortEnum scope = false
          \/ pgCodec scope = None
          \/ exists codec,
               pgCodec scope = Some codec
               /\ (columns codec = None
                   \/ isAnonymous codec = true
                   \/ primaryKeyFor build codec = None))
  | Extend values' added hint =>
      values' = values
      /\ isPgRowSortEnum scope = true
      /\ exists codec primaryKey,
           pgCodec scope = Some codec
           /\ columns codec <> None
           /\ isAnonymous codec = false
           /\ primaryKeyFor build codec = Some primaryKey
           /\ isPrimary primaryKey = true
           /\ JsObject.get (builtin build "PRIMARY_KEY_DESC") added
              = Some {| plan_pgCodec := codec;
                        plan_primaryKeyColumns := unique_columns primaryKey;
                        plan_direction := DESC |}
           /\ (builtin build "PRIMARY_KEY_ASC"
               <> builtin build "PRIMARY_KEY_DESC" ->
               JsObject.get (builtin build "PRIMARY_KEY_ASC") added
               = Some {| plan_pgCodec := codec;
                         plan_primaryKeyColumns := unique_columns primaryKey;
                         plan_direction := ASC |})
           /\ forall key,
                JsObject.get key added <> None ->
                key = builtin build "PRIMARY_KEY_ASC"
                \/ key = builtin build "PRIMARY_KEY_DESC"
  end.
Proof.
  unfold GraphQLEnumType_values, primaryKeyFor.
  destruct (isPgRowSortEnum scope); cbn [negb]; [| split; [done | by left]].
  destruct (pgCodec scope) as [codec|]; [| split; [done | right; by left]].
  destruct (columns codec) as [cols|] eqn:Hcols.
  2:{ rewrite bool_decide_eq_true_2 by done. cbn [orb].
      split; [done |]. right; right. exists codec. split; [done |].
      left. by rewrite Hcols. }
  rewrite bool_decide_eq_false_2 by done. cbn [orb].
  destruct (isAnonymous codec) eqn:Hanon;
    [split; [done |]; right; right; exists codec; split; [done |];
     right; by left |].
  destruct (List.filter _ _) as [|source sources] eqn:Hsources;
    [split; [done |]; right; right; exists codec; split; [done |];
     right; right; by rewrite Hsources |].
  destruct (find isPrimary (uniques source)) as [primaryKey|] eqn:Hpk;
    [| split; [done |]; right; right; exists codec; split; [done |];
       right; right; by rewrite Hsources].
  split; [done |]. split; [done |]. exists codec, primaryKey.
  split; [done |]. split; [by rewrite Hcols |]. split; [done |].
  split; [by rewrite Hsources |].
  split; [by apply find_some in Hpk as [_ ?] |].
  split; [| split].
  - rewrite get_set. by destruct (decide _).
  - intros Hne. rewrite !get_set.
    destruct (decide (_ = _)) as [Heq | _]; [by destruct Hne |].
    by destruct (decide _).
  - intros key. rewrite !get_set.
    destruct (decide (builtin build "PRIMARY_KEY_DESC" = key)); [by right |].
    destruct (decide (builtin build "PRIMARY_KEY_ASC" = key)); [by left |].
    done.
Qed.

End OrderByPrimaryKeyFacts.

(** ** Grafast's [execute] *)

Section GrafastFacts.

Import Grafast.

Context {R : Type} (prepare : Prepare R).

Lemma refusedInDevelopment_object (keys : list string) :
  refusedInDevelopment (RootObject keys)
  = match keys with
    | [] => false
    | _ :: _ => true
    end.
Proof.
  destruct keys as [|key keys]; [reflexivity |].
  cbn. apply bool_decide_eq_true_2. cbn. lia.
Qed.

(** X17. Which root values the executor takes. In development mode it
    refuses every root value that is neither nullish nor an object without
    keys; outside development mode it refuses exactly the values that are
    neither nullish nor objects, so an object with keys goes through, and its
    other error cannot occur in development mode. A nullish root value is
    replaced by a fresh object without keys; an object is handed on as it
    is. [execute] is the same function. *)
Theorem root_value_validation (development : bool) (rootValue : RootValue)
    (options : GrafastExecuteOptions) :
  let result := withGrafastArgs development prepare rootValue options in
  (result = Err RootValueNotSupported
   <-> development = true
       /\ (rootValue = RootNonObject
           \/ exists key keys, rootValue = RootObject (key :: keys)))
  /\ (result = Err RootValueNotAnObject
      <-> development = false /\ rootValue = RootNonObject)
  /\ (forall prepared r,
        result = Ok (prepared, r) ->
        rootKeys prepared = match rootValue with
                            | RootObject keys => keys
                            | _ => []
                            end
        /\ r = settled prepare (rootKeys prepared) options)
  /\ execute development prepare rootValue options = result.
Proof.
  intros result. unfold result, execute, withGrafastArgs.
  destruct rootValue as [| | |keys];
    [| | | rewrite refusedInDevelopment_object; destruct keys as [|key keys]];
    destruct development; cbn;
    repeat split; try done; try (by intros [? ?]);
    try (by intros [_ [? | (? & ? & ?)]]);
    try (by intros ? ? [= <- <-]);
    try (match goal with
         | H : Ok _ = Ok _ |- _ => by injection H as <- <-
         end);
    try (by left); right; by exists key, keys.
Qed.

Lemma handleExplainOperation_filter (options : GrafastExecuteOptions)
    (events recorded : list Operation) :
  foldl (handleExplainOperation options) recorded events
  = recorded
    ++ filter (fun operation => type operation ∈ default [] (explain options))
              events.
Proof.
  revert recorded. induction events as [|operation events IH]; intros recorded.
  - cbn. by rewrite app_nil_r.
  - cbn [foldl]. rewrite IH, filter_cons. unfold handleExplainOperation.
    destruct (decide (type operation ∈ default [] (explain options))).
    + rewrite bool_decide_eq_true_2 by done. by rewrite <- app_assoc.
    + by rewrite bool_decide_eq_false_2 by done.
Qed.

(** X18. What the executor records for [explain]. It installs an event
    emitter, and an operations list, exactly when [options.explain] is a
    non-empty list; the operations list then holds, in the order of their
    events, exactly the announced operations whose type is in
    [options.explain]. *)
Theorem explain_operations_recorded (development : bool)
    (rootValue : RootValue) (options : GrafastExecuteOptions)
    (prepared : PreparedRootValue) (r : R) :
  withGrafastArgs development prepare rootValue options = Ok (prepared, r) ->
  (eventEmitter prepared = true
   <-> exists types, explain options = Some types /\ types <> [])
  /\ explainOperations prepared
     = if eventEmitter prepared
       then Some (filter (fun operation =>
                            type operation ∈ default [] (explain options))
                         (emitted prepare (rootKeys prepared) options))
       else None.
Proof.
  unfold withGrafastArgs.
  destruct (development && refusedInDevelopment rootValue); [done |].
  destruct (defaultRootValue rootValue) as [| | |keys]; try done.
  intros [= <- <-]. cbn [eventEmitter explainOperations rootKeys]. split.
  - unfold shouldExplain. destruct (explain options) as [[|t ts]|]; cbn.
    + split; [done | by intros (? & [= <-] & ?)].
    + split; [| done]. intros _. by eexists.
    + split; [done | by intros (? & ? & _)].
  - destruct (shouldExplain options); [| done].
    by rewrite handleExplainOperation_filter.
Qed.

End GrafastFacts.

(** *** The further hooks on examples *)

Section FurtherExamples.

Lemma primary_key_plan_calls_witness :
  OrderByPrimaryKey.plan
    {| OrderByPrimaryKey.codecId := 1; OrderByPrimaryKey.name := "person";
       OrderByPrimaryKey.columns :=
         Some {[ "id" := OrderByPrimaryKey.mkPgSourceColumn "int4" ]};
       OrderByPrimaryKey.isAnonymous := false |}
    ["id"] OrderByPrimaryKey.ASC "t"
  = Ok [ OrderByPrimaryKey.OrderBy
           {| OrderByPrimaryKey.order_codec := "int4";
              OrderByPrimaryKey.fragment_alias := "t";
              OrderByPrimaryKey.fragment_identifier := "id";
              OrderByPrimaryKey.direction := OrderByPrimaryKey.ASC |};
         OrderByPrimaryKey.SetOrderIsUnique ].
Proof.
  set (codec := {| OrderByPrimaryKey.codecId := 1;
                   OrderByPrimaryKey.name := "person";
                   OrderByPrimaryKey.columns :=
                     Some {[ "id" := OrderByPrimaryKey.mkPgSourceColumn "int4" ]};
                   OrderByPrimaryKey.isAnonymous := false |}).
  destruct (OrderByPrimaryKey.plan codec ["id"] OrderByPrimaryKey.ASC "t")
    as [calls|e] eqn:Hplan; [| by vm_compute in Hplan].
  destruct (proj1 (primary_key_plan_calls codec ["id"] "t")
                  OrderByPrimaryKey.ASC calls Hplan) as [Hcalls Hspecs].
  rewrite Hcalls. f_equal.
  unfold OrderByPrimaryKey.OrdersBy in Hspecs.
  apply Forall2_cons_inv_l in Hspecs
    as (spec & specs & (column & Hcolumn & ->) & Hnil & ->).
  apply Forall2_nil_inv_l in Hnil as ->.
  vm_compute in Hcolumn. by injection Hcolumn as <-.
Defined.

Lemma explain_operations_recorded_witness :
  exists prepared,
    Grafast.withGrafastArgs false
      {| Grafast.emitted := fun _ _ =>
           [ Grafast.mkOperation "plan" "first";
             Grafast.mkOperation "sql" "second";
             Grafast.mkOperation "plan" "third" ];
         Grafast.settled := fun _ _ => tt |}
      (Grafast.RootObject ["viewer"])
      {| Grafast.explain := Some ["plan"]; Grafast.asString := None |}
    = Ok (prepared, tt)
    /\ Grafast.explainOperations prepared
       = Some [ Grafast.mkOperation "plan" "first";
                Grafast.mkOperation "plan" "third" ].
Proof.
  set (prepare := {| Grafast.emitted := fun _ _ =>
                       [ Grafast.mkOperation "plan" "first";
                         Grafast.mkOperation "sql" "second";
                         Grafast.mkOperation "plan" "third" ];
                     Grafast.settled := fun _ _ => tt |}).
  set (options := {| Grafast.explain := Some ["plan"];
                     Grafast.asString := None |}).
  destruct (Grafast.withGrafastArgs false prepare
              (Grafast.RootObject ["viewer"]) options)
    as [[prepared []]|e] eqn:Hrun; [| by vm_compute in Hrun].
  exists prepared. split; [reflexivity |].
  rewrite (proj2 (explain_operations_recorded prepare false
                    (Grafast.RootObject ["viewer"]) options prepared tt Hrun)).
  vm_compute in Hrun. injection Hrun as <-. vm_compute. reflexivity.
Defined.

End FurtherExamples.

(** ** Discovery and the registry hooks together *)

Section DiscoveredRoots.

Context (utils : Utils) (info : Info).

(** A loop whose body cannot fail where the invariant holds does not
    fail. *)
Lemma forEachR_succeeds {E S X} (body : S -> X -> Result E S) (P : S -> Prop)
    (xs : list X) (s : S) :
  (forall x s1, In x xs -> P s1 -> exists s2, body s1 x = Ok s2 /\ P s2) ->
  P s -> exists s', forEachR body xs s = Ok s' /\ P s'.
Proof.
  revert s. induction xs as [|x xs IH]; intros s Hstep Hs.
  - by exists s.
  - cbn [forEachR].
    destruct (Hstep x s (or_introl eq_refl) Hs) as (s1 & -> & Hs1). cbn.
    apply IH; [| done]. intros y s2 Hy. apply Hstep. by right.
Qed.

(** Every entry of the [types] of a discovered relational root is the entry
    of an accepted type tag. *)
Lemma discovered_specs (event : RecordTypeEvent) (typeAttributes : list string)
    (types : JsObject.obj PgCodecPolymorphismRelationalTypeSpec)
    (entry : PgCodecPolymorphismRelationalTypeSpec) :
  pgCodecs_recordType_spec utils info event
  = Ok (Some (PolyRelational typeAttributes types)) ->
  In entry (JsObject.values types) ->
  exists typeTag,
    relationalEntryOf utils info (serviceName event) (pgClass event) typeTag
    = Some entry.
Proof.
  intros Hhook Hspec.
  destruct (tagsOfSpec (spec event)) as [tgs|] eqn:Htags.
  2:{ unfold pgCodecs_recordType_spec in Hhook. by rewrite Htags in Hhook. }
  destruct (hook_relational_inv utils info _ _ _ _ Htags Hhook) as [prms Hd].
  unfold discoverRelational in Hd.
  destruct (checkDiscriminator _ _) as [attr|e]; [| done]. cbn in Hd.
  destruct (forEachR _ _ _) as [tys|e] eqn:Hloop; [| done].
  cbn in Hd. injection Hd as _ <-.
  destruct (loop_types utils id
              (relationalTypeTag utils info (serviceName event) (pgClass event))
              (relationalEntryOf utils info (serviceName event) (pgClass event))
              (relationalTypeTag_sets utils info (serviceName event)
                                      (pgClass event))
              _ JsObject.empty tys eq_refl Hloop)
    as (Hget & _ & Hnd).
  unfold id in Hget, Hnd.
  apply in_map_iff in Hspec as ([k v] & <- & Hentry). cbn [snd].
  apply list_elem_of_In in Hentry.
  apply (entries_get k v tys Hnd) in Hentry. rewrite Hget in Hentry.
  destruct (lastTagFor utils k _) as [typeTag|]; [| done].
  by exists typeTag.
Qed.

(** What Discovery has checked for an entry is what the registry hooks
    look for. *)
Lemma discovered_spec_resolves (serviceName : string) (pgClass : PgClass)
    (typeTag : string) (spec : PgCodecPolymorphismRelationalTypeSpec) :
  relationalEntryOf utils info serviceName pgClass typeTag = Some spec ->
  exists schemaName tableName pgRelatedClass sharedRelationName,
    parseDatabaseIdentifier utils (rt_references spec) 2 (nspname pgClass)
    = Some (schemaName, tableName)
    /\ getClassByName (helpers info) serviceName schemaName tableName
       = Some pgRelatedClass
    /\ sharedRelationNameOf info serviceName pgClass pgRelatedClass
       = Ok sharedRelationName.
Proof.
  intros (rc & pk & remotePk & c & Hrefs & Hrc & Hpk & Hrpk & Hfind & _)
    %relationalEntryOf_Some.
  unfold referencedClassOf in Hrc. rewrite Hrefs in Hrc.
  destruct (parseDatabaseIdentifier _ _ _ _) as [[ns tbl]|]; [| done].
  exists ns, tbl, rc. eexists. split; [done |]. split; [done |].
  unfold sharedRelationNameOf. by rewrite Hrpk, Hpk, find_links_agree, Hfind.
Qed.

(** X19. The registry hooks do not fail on a root that Discovery has
    accepted. For a resource that stands for the discovered table - its
    service, its schema as the default schema, its codec carrying the
    polymorphism Discovery has built - the finalize hook's run for the root
    ends normally whatever the codecs; and the registry hook's run ends
    normally as soon as the registry has relations under the codec's name
    and the tables of the declared subtypes have resource options whose
    codec is among the codecs. *)
Theorem discovered_root_passes (event : RecordTypeEvent)
    (typeAttributes : list string)
    (types : JsObject.obj PgCodecPolymorphismRelationalTypeSpec)
    (ext : PgExtension) :
  pgCodecs_recordType_spec utils info event
  = Ok (Some (PolyRelational typeAttributes types)) ->
  pg_serviceName ext = serviceName event ->
  schemaName ext = nspname (pgClass event) ->
  getClassByName (helpers info) (pg_serviceName ext) (schemaName ext)
                 (pg_name ext) = Some (pgClass event) ->
  (forall codecs resource,
      pgOf (ro_extensions resource) = Some ext ->
      polymorphismOf codecs (ro_codec resource)
      = Some (PolyRelational typeAttributes types) ->
      isOk (inheritRoot utils info codecs resource) = true)
  /\ (forall registry codecs resource relations,
        pgOf (res_extensions resource) = Some ext ->
        polymorphism (res_codec resource)
        = Some (PolyRelational typeAttributes types) ->
        pgRelations registry !! name (res_codec resource) = Some relations ->
        (forall spec pgRelatedClass,
            In spec (JsObject.values types) ->
            relatedClassOf utils info (pg_serviceName ext) (schemaName ext) spec
            = Some pgRelatedClass ->
            exists options,
              getResourceOptions (helpers info) (pg_serviceName ext)
                                 pgRelatedClass = Some options
              /\ codecs !! ro_codec options <> None) ->
        isOk (synthesizeRoot utils info registry codecs resource) = true).
Proof.
  intros Hhook Hservice Hschema Hclass. split.
  - intros codecs resource Hext Hpoly. unfold inheritRoot.
    destruct (ro_parameters resource); [done |]. cbn [orb].
    destruct (attributesOf codecs (ro_codec resource)) as [rootAttributes|]
      eqn:Hroot; [| by rewrite bool_decide_eq_true_2].
    rewrite bool_decide_eq_false_2 by done.
    rewrite Hext, Hclass, Hpoly.
    destruct (forEachR_succeeds
                (inheritSubtype utils info (pg_serviceName ext) (schemaName ext)
                                (pgClass event) (ro_codec resource))
                (fun s => attributesOf s (ro_codec resource) <> None)
                (JsObject.values types) codecs) as (codecs' & -> & _);
      [| by rewrite Hroot | done].
    intros spec s1 Hspec Hs1.
    destruct (discovered_specs event _ _ spec Hhook Hspec) as [typeTag Hentry].
    destruct (discovered_spec_resolves _ _ _ _ Hentry)
      as (sch & tbl & rc & shared & Hparse & Hrc & Hshared).
    assert (Hstep : exists s2,
      inheritSubtype utils info (pg_serviceName ext) (schemaName ext)
                     (pgClass event) (ro_codec resource) s1 spec = Ok s2).
    { unfold inheritSubtype. rewrite Hschema, Hparse, Hservice, Hrc.
      destruct (getCodecFromClass _ _ _) as [otherCodec|]; [| by eexists].
      destruct (s1 !! otherCodec) as [other|]; [| by eexists].
      destruct (attributes other) as [otherAttributes|]; [| by eexists].
      rewrite Hshared. cbn.
      destruct (attributesOf s1 (ro_codec resource)); [by eexists | done]. }
    destruct Hstep as [s2 Hs2]. exists s2. split; [done |].
    pose proof (inheritSubtype_frame utils info _ _ _ _ _ _ _ Hs2
                  (ro_codec resource)) as Hframe.
    unfold attributesOf in *.
    destruct (s1 !! ro_codec resource) as [x|], (s2 !! ro_codec resource) as [y|];
      try done.
    cbn in *. destruct Hframe as (_ & _ & _ & _ & _ & Hgrow).
    by destruct (attributes x), (attributes y).
  - intros registry codecs resource relations Hext Hpoly Hrels Hoptions.
    unfold synthesizeRoot.
    destruct (_ || _); [done |].
    rewrite Hext, Hclass, Hpoly, Hrels.
    destruct (forEachR_succeeds
                (synthesizeSubtype utils info (pg_serviceName ext)
                   (schemaName ext) (pgClass event) resource (Some relations))
                (fun s => forall k, codecs !! k <> None -> s !! k <> None)
                (JsObject.values types) codecs) as (codecs' & -> & _);
      [| done | done].
    intros spec s1 Hspec Hs1.
    destruct (discovered_specs event _ _ spec Hhook Hspec) as [typeTag Hentry].
    destruct (discovered_spec_resolves _ _ _ _ Hentry)
      as (sch & tbl & rc & shared & Hparse & Hrc & Hshared).
    destruct (Hoptions spec rc Hspec) as (options & Hopts & Hcodec).
    { unfold relatedClassOf. by rewrite Hschema, Hparse, Hservice, Hrc. }
    unfold synthesizeSubtype. rewrite Hschema, Hparse, Hservice, Hrc.
    destruct (getCodecFromClass _ _ _) as [otherCodec|]; [| by exists s1].
    rewrite Hshared. cbn. rewrite <- Hservice, Hopts.
    apply forEachR_succeeds; [| done].
    intros [relationName relationSpec] s2 _ Hs2. unfold installRef.
    destruct (s2 !! ro_codec options) as [c|] eqn:Hc;
      [| by destruct (Hs2 _ Hcodec)].
    eexists. split; [done |]. intros k Hk.
    destruct (decide (ro_codec options = k)) as [<- | Hne].
    + by rewrite lookup_insert_eq.
    + rewrite lookup_insert_ne by done. by apply Hs2.
Qed.

End DiscoveredRoots.

Section DiscoveredRootsExamples.

Import Example.

Lemma discovered_root_passes_witness :
  isOk (inheritRoot utils info registryCodecs vehicleOptions) = true
  /\ isOk (synthesizeRoot utils info registry registryCodecs vehicleResource)
     = true.
Proof.
  destruct (discovered_root_passes utils info
              (vehicleEvent ["CAR references:car"]) ["type"] vehicleTypes
              vehicleExt car_accepted eq_refl eq_refl eq_refl)
    as [Hfinalize Hregistry].
  split.
  - apply Hfinalize; reflexivity.
  - apply (Hregistry registry registryCodecs vehicleResource vehicleRelations);
      try reflexivity.
    intros spec pgRelatedClass [<- | []] Hrelated.
    vm_compute in Hrelated. injection Hrelated as <-.
    eexists. split; [reflexivity |]. by vm_compute.
Defined.

End DiscoveredRootsExamples.
